(** * Structural node transforms of the Slate editor

    A shallow embedding of
    [packages/slate/src/interfaces/editor/transforms/node.ts]
    ([NodeTransforms]: insertNodes, liftNodes, mergeNodes, moveNodes,
    removeNodes, setNodes, splitNodes, unsetNodes, unwrapNodes, wrapNodes) as
    functions
    in a state-error-trace monad over the editor, and the properties of the
    operation sequences they emit. *)

From stdpp Require Import base option strings list gmap.
From Stdlib Require Import ZArith Lia.

Set Default Proof Using "Type".
Set Warnings "-clear-no-such-hyp".
Open Scope string_scope.
Open Scope list_scope.

(** ** Data model *)

(** Values a custom property of a node can hold.  [VUndefined] is what
    reading an absent key gives; [VRef] stands for an object or array value,
    compared by reference. *)
Inductive Value :=
  | VUndefined
  | VNull
  | VBool (b : bool)
  | VNum (z : Z)
  | VStr (s : string)
  | VRef (r : nat).

#[global] Instance Value_eq_dec : EqDecision Value.
Proof. solve_decision. Defined.

(** A JS object used as a property bag. *)
Abbreviation Props := (gmap string Value).

Definition Path := list nat.

Record Point := mkPoint { path_of : Path; offset : nat }.

Record Range := mkRange { anchor : Point; focus : Point }.

#[global] Instance Point_eq_dec : EqDecision Point.
Proof. solve_decision. Defined.

#[global] Instance Range_eq_dec : EqDecision Range.
Proof. solve_decision. Defined.

Inductive Location :=
  | AtPath (p : Path)
  | AtPoint (pt : Point)
  | AtRange (r : Range).

(** [Node = Editor | Element | Text].  An [Element] keeps its custom
    properties apart from [children], a [Text] its marks apart from [text];
    the root appears in node entries as [Root]. *)
#[warnings="-register-all"]
Inductive Node :=
  | Text (text : string) (marks : Props)
  | Element (props : Props) (children : list Node)
  | Root (children : list Node).

Definition NodeEntry := (Node * Path)%type.

Module NodeI.
Definition isText (n : Node) : bool :=
  match n with Text _ _ => true | _ => false end.

Definition isElement (n : Node) : bool :=
  match n with Element _ _ => true | _ => false end.

Definition children (n : Node) : list Node :=
  match n with
  | Text _ _ => []
  | Element _ c => c
  | Root c => c
  end.

Definition text (n : Node) : string :=
  match n with Text t _ => t | _ => "" end.

(** [node[k]] for a key other than [children] and [text]. *)
Definition get (n : Node) (k : string) : Value :=
  match n with
  | Text _ m => default VUndefined (m !! k)
  | Element p _ => default VUndefined (p !! k)
  | Root _ => VUndefined
  end.

(** [const { text, children, ...rest } = node]. *)
Definition rest (n : Node) : Props :=
  match n with
  | Text _ m => m
  | Element p _ => p
  | Root _ => ∅
  end.
End NodeI.

(** The [match] option.  Strings and arrays of strings name node kinds;
    the closures the transforms build themselves are kept symbolic, because
    they test object identity, which the query engine decides:
    [MIs node] is [n => n === node], [MOneOf ns] is [n => ns.includes(n)]. *)
Inductive NodeMatch :=
  | MKind (k : string)
  | MKinds (ks : list string)
  | MFn (f : Node -> bool)
  | MIs (n : Node)
  | MOneOf (ns : list Node)
  | MAnd (m1 m2 : NodeMatch).

Inductive Mode := ModeAll | ModeHighest.

Inductive Affinity := Forward | Backward | Inward | Outward.

#[global] Instance Affinity_eq_dec : EqDecision Affinity.
Proof. solve_decision. Defined.

(** A JS number used as a position: an index, or [NaN], which is what
    [undefined + 0] gives when a path is read past its ends. *)
Inductive Num :=
  | Index (n : nat)
  | NaN.

Coercion Index : nat >-> Num.

#[global] Instance Num_eq_dec : EqDecision Num.
Proof. solve_decision. Defined.

(** Atomic operations handed to [editor.apply]. *)
Inductive Operation :=
  | insert_node (path : Path) (node : Node)
  | remove_node (path : Path) (node : Node)
  | set_node (path : Path) (properties newProperties : Props)
  | split_node (path : Path) (position : Num) (target : option Num)
               (properties : Props)
  | merge_node (path : Path) (position : nat) (target : option nat)
               (properties : Props)
  | move_node (path newPath : Path)
  | insert_text (path : Path) (off : nat) (text : string)
  | remove_text (path : Path) (off : nat) (text : string)
  | set_selection (properties newProperties : option Range).

(** ** Path arithmetic *)

Module PathI.
(** Modelled from the spec: [Path.parent] is not under the transforms
    file; the parent of a path drops its last index, and the root path has
    none. *)
Definition parent (p : Path) : option Path :=
  match p with
  | [] => None
  | _ => Some (removelast p)
  end.

(** Modelled from the spec: [Path.next], the path of the next sibling;
    the root path has none. *)
Definition next (p : Path) : option Path :=
  match last p with
  | None => None
  | Some i => Some (removelast p ++ [S i])
  end.

(** Modelled from the spec: [Path.common], the longest common prefix. *)
Fixpoint common (p q : Path) : Path :=
  match p, q with
  | i :: p', j :: q' => if decide (i = j) then i :: common p' q' else []
  | _, _ => []
  end.

Definition equals (p q : Path) : bool := bool_decide (p = q).

(** Modelled from the spec: [Path.isSibling], same parent and a different
    last index. *)
Definition isSibling (p q : Path) : bool :=
  match p, q with
  | [], _ | _, [] => false
  | _, _ =>
      bool_decide (length p = length q)
      && bool_decide (removelast p = removelast q)
      && negb (bool_decide (last p = last q))
  end.

(** Modelled from the spec: [Path.compare] in document order: [Lt], [Eq]
    (also for an ancestor and its descendant) or [Gt]. *)
Fixpoint compare (p q : Path) : comparison :=
  match p, q with
  | i :: p', j :: q' =>
      match Nat.compare i j with
      | Eq => compare p' q'
      | c => c
      end
  | _, _ => Eq
  end.
End PathI.

Module PointI.
(** Modelled from the spec: [Point.compare], by path, then by offset. *)
Definition compare (a b : Point) : comparison :=
  match PathI.compare (path_of a) (path_of b) with
  | Eq => Nat.compare (offset a) (offset b)
  | c => c
  end.

Definition isAfter (a b : Point) : bool :=
  match compare a b with Gt => true | _ => false end.
End PointI.

Module RangeI.
Definition isCollapsed (r : Range) : bool :=
  bool_decide (anchor r = focus r).

(** Modelled from the spec: [Range.edges], start and end in document
    order. *)
Definition edges (r : Range) : Point * Point :=
  if PointI.isAfter (anchor r) (focus r)
  then (focus r, anchor r)
  else (anchor r, focus r).
End RangeI.

(** ** The editor and its collaborators *)

(** The document side of the editor object: the tree, the selection and the
    registries of live path, point and range references (handles are
    numbers, [nextRef] is the next fresh one). *)
Record Doc := mkDoc {
  children : list Node;
  selection : option Range;
  pathRefs : gmap nat (option Affinity * Path);
  pointRefs : gmap nat (option Affinity * Point);
  rangeRefs : gmap nat (option Affinity * Range);
  nextRef : nat
}.

(** The editor: the document and the normalizing flag that
    [Editor.withoutNormalizing] saves, clears and restores. *)
Record Editor := mkEditor {
  doc : Doc;
  normalizing : bool
}.

(** What the transforms import from the rest of the package.  None of it is
    in the transforms file, so it is taken as a parameter: the schema
    predicates, the Apply Engine's per-operation rewriting of the tree, the
    selection and the references, the Query Engine, and the two transforms of
    other files ([Editor.delete], [Editor.select]), which report the
    operations they applied.  A query reads the tree, [editor.children].  Queries that throw in the package on a missing
    node return [None] here. *)
Record Engine := mkEngine {
  isInline : Node -> bool;
  isVoid : Node -> bool;
  transformTree : Operation -> list Node -> list Node;
  transformSelection : Operation -> option Range -> option Range;
  transformPath : Operation -> option Affinity -> Path -> option Path;
  transformPoint : Operation -> option Affinity -> Point -> option Point;
  transformRange : Operation -> option Affinity -> Range -> option Range;
  normalizePass : Doc -> Doc;
  Editor_node : list Node -> Path -> option NodeEntry;
  Editor_parent : list Node -> Path -> option NodeEntry;
  Editor_point : list Node -> Path -> option Point;
  Editor_end : list Node -> Path -> option Point;
  Editor_after : list Node -> Path -> option Point;
  Editor_range : list Node -> Path -> option Path -> option Range;
  Editor_match : list Node -> Location -> NodeMatch -> bool -> option NodeEntry;
  Editor_previous : list Node -> Location -> NodeMatch -> bool -> option NodeEntry;
  Editor_nodes : list Node -> Location -> NodeMatch -> Mode -> bool -> list NodeEntry;
  Editor_levels : list Node -> Path -> bool -> bool -> list NodeEntry;
  Editor_isEnd : list Node -> Point -> Path -> bool;
  Editor_isEdge : list Node -> Point -> Path -> bool;
  Editor_isEmpty : list Node -> Node -> bool;
  Editor_unhangRange : list Node -> Range -> Range;
  Range_intersection : Range -> Range -> option Range;
  Editor_delete : Range -> Doc -> Doc * list Operation;
  Editor_select : Location -> Doc -> Doc * list Operation
}.

(** ** The monad of a transform

    A transform reads and mutates the editor, may throw, and emits atomic
    operations; [Done] and [Thrown] carry the editor reached and the
    operations applied so far, in order. *)
Inductive Result (A : Type) :=
  | Done (a : A) (e : Editor) (tr : list Operation)
  | Thrown (msg : string) (e : Editor) (tr : list Operation).
Arguments Done {A} a e tr.
Arguments Thrown {A} msg e tr.

Definition M (A : Type) := Editor -> Result A.

#[global] Instance M_ret : MRet M := fun A a e => Done a e [].

#[global] Instance M_bind : MBind M := fun A B k m e =>
  match m e with
  | Done a e1 tr1 =>
      match k a e1 with
      | Done b e2 tr2 => Done b e2 (tr1 ++ tr2)
      | Thrown msg e2 tr2 => Thrown msg e2 (tr1 ++ tr2)
      end
  | Thrown msg e1 tr1 => Thrown msg e1 tr1
  end.

Definition throw {A} (msg : string) : M A := fun e => Thrown msg e [].

(** [mret] at the monad of transforms. *)
Definition pure {A} (a : A) : M A := mret a.

(** The operations a run emitted and the editor it ended in. *)
Definition emitted {A} (r : Result A) : list Operation :=
  match r with Done _ _ tr => tr | Thrown _ _ tr => tr end.

Definition final {A} (r : Result A) : Editor :=
  match r with Done _ e _ => e | Thrown _ e _ => e end.

Definition threw {A} (r : Result A) : bool :=
  match r with Done _ _ _ => false | Thrown _ _ _ => true end.

(** [for (const x of xs) body(x)]. *)
Fixpoint forEach {A} (xs : list A) (body : A -> M unit) : M unit :=
  match xs with
  | [] => pure tt
  | x :: xs' => body x;; forEach xs' body
  end.

(** [Array.from(xs, f)] for an effectful [f]. *)
Fixpoint arrayFrom {A B} (f : A -> M B) (xs : list A) : M (list B) :=
  match xs with
  | [] => pure []
  | x :: xs' => y ← f x; ys ← arrayFrom f xs'; pure (y :: ys)
  end.

Definition query {A} (f : Doc -> A) : M A := fun e => Done (f (doc e)) e [].

(** A query that throws in the package when it finds nothing. *)
Definition must {A} (msg : string) (f : Doc -> option A) : M A :=
  fun e =>
    match f (doc e) with
    | Some a => Done a e []
    | None => Thrown msg e []
    end.

Definition orThrow {A} (msg : string) (o : option A) : M A :=
  match o with Some a => pure a | None => throw msg end.

Definition external (f : Doc -> Doc * list Operation) : M unit :=
  fun e =>
    let '(d, tr) := f (doc e) in
    Done tt (mkEditor d (normalizing e)) tr.

(** ** Apply Engine and Reference Tracker, as the transforms use them *)

Section Primitives.
Context (E : Engine).

Definition transformRefs {A} (f : option Affinity -> A -> option A)
    (refs : gmap nat (option Affinity * A)) : gmap nat (option Affinity * A) :=
  omap (fun r => pair (fst r) <$> f (fst r) (snd r)) refs.

(** Modelled from the spec: one atomic operation mutates the tree and
    rewrites every live reference in lock-step; a reference whose position
    was removed drops out of the registry (its [current] is null). *)
Definition applyDoc (op : Operation) (d : Doc) : Doc :=
  {| children := transformTree E op (children d);
     selection := transformSelection E op (selection d);
     pathRefs := transformRefs (transformPath E op) (pathRefs d);
     pointRefs := transformRefs (transformPoint E op) (pointRefs d);
     rangeRefs := transformRefs (transformRange E op) (rangeRefs d);
     nextRef := nextRef d |}.

(** Modelled from the spec: normalization is deferred while a batch is
    open and runs as one pass otherwise. *)
Definition normalize (e : Editor) : Editor :=
  if normalizing e then mkEditor (normalizePass E (doc e)) true else e.

(** Modelled from the spec: [editor.apply(op)] applies the operation, then
    normalizes unless a batch is open. *)
Definition apply (op : Operation) : M unit :=
  fun e => Done tt (normalize (mkEditor (applyDoc op (doc e)) (normalizing e))) [op].

(** Modelled from the spec: [Editor.withoutNormalizing(editor, fn)] opens a
    batch in which normalization is deferred: the flag is saved, cleared for
    [fn] and restored, then the deferred pass runs; a throw in [fn] leaves
    the flag cleared. *)
Definition withoutNormalizing (fn : M unit) : M unit :=
  fun e =>
    match fn (mkEditor (doc e) false) with
    | Done _ e' tr => Done tt (normalize (mkEditor (doc e') (normalizing e))) tr
    | Thrown msg e' tr => Thrown msg e' tr
    end.

(** Modelled from the spec: the Reference Tracker.  [Editor.pathRef(editor,
    path)] registers a live handle, [ref.current] reads it (null once its
    position was removed or the handle released) and [ref.unref()] releases
    it and returns what it held. *)
Definition pathRef (p : Path) : M nat :=
  fun e =>
    let d := doc e in
    Done (nextRef d)
      (mkEditor {| children := children d; selection := selection d;
                   pathRefs := <[nextRef d := (Some Forward, p)]> (pathRefs d);
                   pointRefs := pointRefs d; rangeRefs := rangeRefs d;
                   nextRef := S (nextRef d) |} (normalizing e)) [].

Definition pathRef_current (h : nat) : M (option Path) :=
  query (fun d => snd <$> pathRefs d !! h).

Definition pathRef_unref (h : nat) : M (option Path) :=
  fun e =>
    let d := doc e in
    Done (snd <$> pathRefs d !! h)
      (mkEditor {| children := children d; selection := selection d;
                   pathRefs := delete h (pathRefs d);
                   pointRefs := pointRefs d; rangeRefs := rangeRefs d;
                   nextRef := nextRef d |} (normalizing e)) [].

(** Modelled from the spec: [Editor.pointRef(editor, point, { affinity })]
    and its handles, as for paths. *)
Definition pointRef (pt : Point) (a : option Affinity) : M nat :=
  fun e =>
    let d := doc e in
    Done (nextRef d)
      (mkEditor {| children := children d; selection := selection d;
                   pathRefs := pathRefs d;
                   pointRefs := <[nextRef d := (a, pt)]> (pointRefs d);
                   rangeRefs := rangeRefs d;
                   nextRef := S (nextRef d) |} (normalizing e)) [].

Definition pointRef_current (h : nat) : M (option Point) :=
  query (fun d => snd <$> pointRefs d !! h).

Definition pointRef_unref (h : nat) : M (option Point) :=
  fun e =>
    let d := doc e in
    Done (snd <$> pointRefs d !! h)
      (mkEditor {| children := children d; selection := selection d;
                   pathRefs := pathRefs d;
                   pointRefs := delete h (pointRefs d);
                   rangeRefs := rangeRefs d;
                   nextRef := nextRef d |} (normalizing e)) [].

(** Modelled from the spec: [Editor.rangeRef(editor, range, { affinity })]
    and its handles, as for paths. *)
Definition rangeRef (r : Range) (a : option Affinity) : M nat :=
  fun e =>
    let d := doc e in
    Done (nextRef d)
      (mkEditor {| children := children d; selection := selection d;
                   pathRefs := pathRefs d; pointRefs := pointRefs d;
                   rangeRefs := <[nextRef d := (a, r)]> (rangeRefs d);
                   nextRef := S (nextRef d) |} (normalizing e)) [].

Definition rangeRef_unref (h : nat) : M (option Range) :=
  fun e =>
    let d := doc e in
    Done (snd <$> rangeRefs d !! h)
      (mkEditor {| children := children d; selection := selection d;
                   pathRefs := pathRefs d; pointRefs := pointRefs d;
                   rangeRefs := delete h (rangeRefs d);
                   nextRef := nextRef d |} (normalizing e)) [].
End Primitives.

(** ** Options of the transforms

    An omitted option is [None]; the defaults are applied where the source
    destructures them. *)

Record InsertOptions := mkInsertOptions {
  ins_at : option Location;
  ins_match : option NodeMatch;
  ins_hanging : option bool;
  ins_voids : option bool
}.

Record LiftOptions := mkLiftOptions {
  lift_at : option Location;
  lift_match : option NodeMatch;
  lift_mode : option Mode;
  lift_voids : option bool
}.

Record MergeOptions := mkMergeOptions {
  mrg_at : option Location;
  mrg_match : option NodeMatch;
  mrg_hanging : option bool;
  mrg_voids : option bool
}.

Record MoveOptions := mkMoveOptions {
  mv_at : option Location;
  mv_match : option NodeMatch;
  mv_mode : option Mode;
  mv_to : Path;
  mv_voids : option bool
}.

Record RemoveOptions := mkRemoveOptions {
  rm_at : option Location;
  rm_match : option NodeMatch;
  rm_mode : option Mode;
  rm_hanging : option bool;
  rm_voids : option bool
}.

Record SetOptions := mkSetOptions {
  set_at : option Location;
  set_match : option NodeMatch;
  set_mode : option Mode;
  set_hanging : option bool;
  set_split : option bool;
  set_voids : option bool
}.

Record UnsetOptions := mkUnsetOptions {
  unset_at : option Location;
  unset_match : option NodeMatch;
  unset_mode : option Mode;
  unset_split : option bool;
  unset_voids : option bool
}.

Record SplitOptions := mkSplitOptions {
  spl_at : option Location;
  spl_match : option NodeMatch;
  spl_always : option bool;
  spl_height : option Z;
  spl_voids : option bool
}.

Record UnwrapOptions := mkUnwrapOptions {
  unwrap_at : option Location;
  unwrap_match : option NodeMatch;
  unwrap_mode : option Mode;
  unwrap_split : option bool;
  unwrap_voids : option bool
}.

Record WrapOptions := mkWrapOptions {
  wrap_at : option Location;
  wrap_match : option NodeMatch;
  wrap_mode : option Mode;
  wrap_split : option bool;
  wrap_voids : option bool
}.

(** [options.at] with [editor.selection] as its default. *)
Definition atOrSelection (at_ : option Location) (d : Doc) : option Location :=
  match at_ with
  | Some l => Some l
  | None => AtRange <$> selection d
  end.

Definition isPath (l : Location) : bool :=
  match l with AtPath _ => true | _ => false end.

Definition isRange (l : Location) : bool :=
  match l with AtRange _ => true | _ => false end.

(** ** The transforms *)

Section Transforms.
Context (E : Engine).

(** [matchPath(editor, path)]: the identity match of the node now at
    [path]. *)
Definition matchPath (path : Path) : M NodeMatch :=
  '(node, _) ← must "Cannot find a descendant at path" (fun d => Editor_node E (children d) path);
  pure (MIs node).

(** The shared default of [match]: the node at a Path location, else
    ['block']. *)
Definition defaultMatch (m : option NodeMatch) (at_ : Location) : M NodeMatch :=
  match m with
  | Some m => pure m
  | None =>
      match at_ with
      | AtPath p => matchPath p
      | _ => pure (MKind "block")
      end
  end.

(** The body of the loop of [moveNodes] for one path reference. *)
Definition moveEntry (toRef h : nat) : M unit :=
  path ← pathRef_unref h;
  newPath ← pathRef_current toRef;
  path ← orThrow "TypeError: Cannot read property 'length' of null" path;
  if bool_decide (length path ≠ 0) then
    newPath ← orThrow "TypeError: newPath is null" newPath;
    apply E (move_node path newPath)
  else pure tt.

(** [moveNodes(editor, options)].  The matches are collected and given
    path references before the loop; each reference is released and, unless
    it resolves to the root path, a [move_node] to the current destination
    is applied. *)
Definition moveNodes (o : MoveOptions) : M unit :=
  withoutNormalizing E (
    at_ ← query (atOrSelection (mv_at o));
    let mode := default ModeHighest (mv_mode o) in
    let voids := default false (mv_voids o) in
    match at_ with
    | None => pure tt
    | Some at_ =>
        match_ ← defaultMatch (mv_match o) at_;
        toRef ← pathRef (mv_to o);
        targets ← query (fun d => Editor_nodes E (children d) at_ match_ mode voids);
        pathRefs ← arrayFrom (fun t : NodeEntry => pathRef (snd t)) targets;
        forEach pathRefs (moveEntry toRef);;
        pathRef_unref toRef;;
        pure tt
    end).

(** The body of the loop of [removeNodes] for one path reference. *)
Definition removeEntry (h : nat) : M unit :=
  path ← pathRef_unref h;
  match path with
  | Some path =>
      '(node, _) ← must "Cannot find a descendant at path"
                        (fun d => Editor_node E (children d) path);
      apply E (remove_node path node)
  | None => pure tt
  end.

(** [removeNodes(editor, options)]. *)
Definition removeNodes (o : RemoveOptions) : M unit :=
  withoutNormalizing E (
    let hanging := default false (rm_hanging o) in
    let voids := default false (rm_voids o) in
    at_ ← query (atOrSelection (rm_at o));
    match at_ with
    | None => pure tt
    | Some at_ =>
        match_ ← defaultMatch (rm_match o) at_;
        let mode := match rm_mode o with
                    | None | Some ModeAll => ModeHighest
                    | Some m => m
                    end in
        at_ ← match at_ with
               | AtRange r =>
                   if negb hanging
                   then query (fun d => AtRange (Editor_unhangRange E (children d) r))
                   else pure at_
               | _ => pure at_
               end;
        depths ← query (fun d => Editor_nodes E (children d) at_ match_ mode voids);
        pathRefs ← arrayFrom (fun t : NodeEntry => pathRef (snd t)) depths;
        forEach pathRefs removeEntry
    end).

(** [nodes: Node | Node[]]. *)
Inductive NodeArg :=
  | One (n : Node)
  | Many (ns : list Node).

Definition asArray (a : NodeArg) : list Node :=
  match a with One n => [n] | Many ns => ns end.

(** The insertion loop: [insert_node] at [parentPath.concat(index)] for
    consecutive indices. *)
Fixpoint insertLoop (parentPath : Path) (index : nat) (nodes : list Node) : M unit :=
  match nodes with
  | [] => pure tt
  | node :: rest =>
      apply E (insert_node (parentPath ++ [index]) node);;
      insertLoop parentPath (S index) rest
  end.

(** The part of [insertNodes] from [Path.parent(at)] on, once the location
    has been resolved to a path: the void guard, the insertion loop and the
    selection update. *)
Definition insertAtPath (nodes : list Node) (voids select : bool) (at_ : Path) : M unit :=
  parentPath ← orThrow "Cannot get the parent path of the root path" (PathI.parent at_);
  index ← orThrow "Cannot get the parent path of the root path" (last at_);
  guard ← query (fun d => Editor_match E (children d) (AtPath parentPath) (MKind "void") false);
  if negb voids && bool_decide (is_Some guard) then pure tt
  else
    insertLoop parentPath index nodes;;
    if select then
      point ← query (fun d => Editor_end E (children d) at_);
      match point with
      | Some point => external (Editor_select E (AtPoint point))
      | None => pure tt
      end
    else pure tt.

(** [insertNodes(editor, nodes, options)], with the [Editor.splitNodes] it
    calls for a Point location left open as [split]; the knot is tied
    below. *)
Definition insertNodes_with (split : SplitOptions -> M unit)
    (nodes : NodeArg) (o : InsertOptions) : M unit :=
  withoutNormalizing E (
    let hanging := default false (ins_hanging o) in
    let voids := default false (ins_voids o) in
    let nodes := asArray nodes in
    match nodes with
    | [] => pure tt
    | node :: _ =>
        (* default location: the selection, the end of the document, [0] *)
        '(at_, select) ←
          match ins_at o with
          | Some l => pure (l, false)
          | None =>
              sel ← query selection;
              match sel with
              | Some r => pure (AtRange r, true)
              | None =>
                  cs ← query children;
                  if bool_decide (0 < length cs) then
                    pt ← must "Cannot get the end point" (fun d => Editor_end E (children d) []);
                    pure (AtPoint pt, true)
                  else pure (AtPath [0], true)
              end
          end;
        (* a Range becomes a Point *)
        at_ ←
          match at_ with
          | AtRange r =>
              r ← (if negb hanging
                   then query (fun d => Editor_unhangRange E (children d) r)
                   else pure r : M Range);
              if RangeI.isCollapsed r then pure (AtPoint (anchor r))
              else
                let '(_, end_) := RangeI.edges r in
                pointRef_ ← pointRef end_ (Some Forward);
                external (Editor_delete E r);;
                pt ← pointRef_unref pointRef_;
                pt ← orThrow "TypeError: Cannot read property 'length' of null" pt;
                pure (AtPoint pt)
          | _ => pure at_
          end;
        (* a Point becomes the Path of the split match *)
        match at_ with
        | AtPoint pt =>
            let match_ :=
              match ins_match o with
              | Some m => m
              | None =>
                  if NodeI.isText node then MKind "text"
                  else if isInline E node then MKinds ["inline"; "text"]
                  else MKind "block"
              end in
            atMatch ← query (fun d => Editor_match E (children d) (AtPath (path_of pt)) match_ false);
            match atMatch with
            | Some (_, matchPath) =>
                pathRef_ ← pathRef matchPath;
                isAtEnd ← query (fun d => Editor_isEnd E (children d) pt matchPath);
                split (mkSplitOptions (Some (AtPoint pt)) (Some match_) None None None);;
                path ← pathRef_unref pathRef_;
                path ← orThrow "TypeError: Cannot read property 'length' of null" path;
                at_ ← (if isAtEnd : bool
                       then orThrow "Cannot get the next path of a root path" (PathI.next path)
                       else pure path : M Path);
                insertAtPath nodes voids select at_
            | None => pure tt
            end
        | AtPath p => insertAtPath nodes voids select p
        | AtRange _ => pure tt
        end
    end).

(** [deleteRange(editor, range)]: a range becomes a point by deleting its
    content. *)
Definition deleteRange (range : Range) : M (option Point) :=
  if RangeI.isCollapsed range then pure (Some (anchor range))
  else
    let '(_, end_) := RangeI.edges range in
    pointRef_ ← pointRef end_ (Some Forward);
    external (Editor_delete E range);;
    pointRef_unref pointRef_.

(** [xs.slice(0, k)] and [xs[k]] for a possibly negative [k]. *)
Definition slice0 {A} (xs : list A) (k : Z) : list A :=
  if (k <? 0)%Z then take (Z.to_nat (Z.of_nat (length xs) + k)) xs
  else take (Z.to_nat k) xs.

Definition index {A} (xs : list A) (k : Z) : option A :=
  if (k <? 0)%Z then None else xs !! Z.to_nat k.

Definition len {A} (xs : list A) : Z := Z.of_nat (length xs).

(** The loop of [splitNodes] over the levels, lowest first.  It stops at
    the first level above the highest match, at the root, or at a void;
    [position] and [target] are threaded from one level to the next. *)
Fixpoint splitLoop (levels : list NodeEntry) (highestPath : Path)
    (always voids : bool) (beforeRef : nat)
    (position : Num) (target : option Num) : M unit :=
  match levels with
  | [] => pure tt
  | (node, path) :: rest =>
      if bool_decide (length path < length highestPath)
         || bool_decide (length path = 0)
         || (negb voids && NodeI.isElement node && isVoid E node)
      then pure tt
      else
        point ← pointRef_current beforeRef;
        point ← orThrow "TypeError: Cannot read property 'path' of null" point;
        isEnd ← query (fun d => Editor_isEnd E (children d) point path);
        isEdge ← query (fun d => Editor_isEdge E (children d) point path);
        let split := always || negb isEdge in
        (if split
         then apply E (split_node path position target (NodeI.rest node))
         else pure tt);;
        i ← orThrow "unreachable: the path is not empty" (last path);
        splitLoop rest highestPath always voids beforeRef
          (i + (if split || isEnd then 1 else 0)) (Some position)
  end.

(** [insertNodes] as [splitNodes] calls it: with a Path location, for
    which it never splits. *)
Definition insertNodes_path : NodeArg -> InsertOptions -> M unit :=
  insertNodes_with (fun _ => pure tt).

(** [splitNodes] from [Editor.pointRef(editor, at, ...)] on, once the
    location is a Point and [match], [height] and [always] are settled. *)
Definition splitPoint (optionsAt : option Location) (voids : bool) (at_ : Point)
    (match_ : NodeMatch) (height : Z) (always : bool) : M unit :=
  beforeRef ← pointRef at_ (Some Backward);
  highest ← query (fun d => Editor_match E (children d) (AtPoint at_) match_ voids);
  match highest with
  | None => pure tt
  | Some (_, highestPath) =>
      voidMatch ← query (fun d => Editor_match E (children d) (AtPoint at_)
                                    (MKind "void") false);
      '(at_, height, always) ←
        match voidMatch with
        | Some (voidNode, voidPath) =>
            if negb voids then
              '(at_, always) ←
                (if NodeI.isElement voidNode && isInline E voidNode then
                   after ← query (fun d => Editor_after E (children d) voidPath);
                   after ←
                     match after with
                     | Some a => pure a
                     | None =>
                         afterPath ← orThrow "Cannot get the next path of a root path"
                                             (PathI.next voidPath);
                         insertNodes_path (One (Text "" ∅))
                           (mkInsertOptions (Some (AtPath afterPath)) None None (Some voids));;
                         must "Cannot get the point"
                              (fun d => Editor_point E (children d) afterPath)
                     end;
                   pure (after, true)
                 else pure (at_, always));
              let siblingHeight := (len (path_of at_) - len voidPath)%Z in
              pure (at_, (siblingHeight + 1)%Z, true)
            else pure (at_, height, always)
        | None => pure (at_, height, always)
        end;
      afterRef ← pointRef at_ (Some Forward);
      let depth := (len (path_of at_) - height)%Z in
      let lowestPath := slice0 (path_of at_) depth in
      let position : Num :=
        if (height =? 0)%Z then Index (offset at_)
        else match index (path_of at_) depth with
             | Some i => Index i
             | None => NaN
             end in
      levels ← query (fun d => Editor_levels E (children d) lowestPath true voids);
      splitLoop levels highestPath always voids beforeRef position None;;
      (if bool_decide (optionsAt = None) then
         cur ← pointRef_current afterRef;
         point ← match cur with
                  | Some pt => pure pt
                  | None => must "Cannot get the end point"
                                 (fun d => Editor_end E (children d) [])
                  end;
         external (Editor_select E (AtPoint point))
       else pure tt);;
      pointRef_unref beforeRef;;
      pointRef_unref afterRef;;
      pure tt
  end.

(** [splitNodes(editor, options)]. *)
Definition splitNodes (o : SplitOptions) : M unit :=
  withoutNormalizing E (
    at_ ← query (atOrSelection (spl_at o));
    let match_ := default (MKind "block") (spl_match o) in
    let height := default 0%Z (spl_height o) in
    let always := default false (spl_always o) in
    let voids := default false (spl_voids o) in
    (* a Range is deleted down to a Point *)
    at_ ← match at_ with
           | Some (AtRange r) => pt ← deleteRange r; pure (AtPoint <$> pt)
           | _ => pure at_
           end;
    (* a Path: split at its point, up to the parent, always *)
    '(at_, match_, height, always) ←
      match at_ with
      | Some (AtPath path) =>
          point ← must "Cannot get the point" (fun d => Editor_point E (children d) path);
          '(parent, _) ← must "Cannot get the parent"
                              (fun d => Editor_parent E (children d) path);
          pure (Some point, MIs parent, (len (path_of point) - len path + 1)%Z, true)
      | Some (AtPoint pt) => pure (Some pt, match_, height, always)
      | _ => pure (None, match_, height, always)
      end;
    match at_ with
    | None => pure tt
    | Some at_ => splitPoint (spl_at o) voids at_ match_ height always
    end).

(** [insertNodes(editor, nodes, options)]. *)
Definition insertNodes : NodeArg -> InsertOptions -> M unit :=
  insertNodes_with splitNodes.

Definition liftError : string :=
  "Cannot lift node at a path because it has a depth of less than `2`.".

(** The body of the loop of [liftNodes] for one path reference. *)
Definition liftEntry (voids : bool) (h : nat) : M unit :=
  path ← pathRef_unref h;
  path ← orThrow "TypeError: Cannot read property 'length' of null" path;
  if bool_decide (length path < 2) then
    throw liftError
  else
    pp ← orThrow "Cannot get the parent path of the root path" (PathI.parent path);
    '(parent, parentPath) ← must "Cannot find a descendant at path"
                                 (fun d => Editor_node E (children d) pp);
    index ← orThrow "unreachable: the path is not empty" (last path);
    let length_ := length (NodeI.children parent) in
    let move to_ :=
      moveNodes (mkMoveOptions (Some (AtPath path)) None None to_ (Some voids)) in
    if bool_decide (length_ = 1) then
      toPath ← orThrow "Cannot get the next path of a root path" (PathI.next parentPath);
      move toPath;;
      removeNodes (mkRemoveOptions (Some (AtPath parentPath)) None None None (Some voids))
    else if bool_decide (index = 0) then
      move parentPath
    else if bool_decide (index = length_ - 1) then
      toPath ← orThrow "Cannot get the next path of a root path" (PathI.next parentPath);
      move toPath
    else
      splitPath ← orThrow "Cannot get the next path of a root path" (PathI.next path);
      toPath ← orThrow "Cannot get the next path of a root path" (PathI.next parentPath);
      splitNodes (mkSplitOptions (Some (AtPath splitPath)) None None None (Some voids));;
      move toPath.

(** [liftNodes(editor, options)]. *)
Definition liftNodes (o : LiftOptions) : M unit :=
  withoutNormalizing E (
    at_ ← query (atOrSelection (lift_at o));
    let mode := default ModeHighest (lift_mode o) in
    let voids := default false (lift_voids o) in
    match_ ← match lift_match o, at_ with
              | Some m, _ => pure m
              | None, Some (AtPath p) => matchPath p
              | None, _ => pure (MKind "block")
              end;
    match at_ with
    | None => pure tt
    | Some at_ =>
        matches ← query (fun d => Editor_nodes E (children d) at_ match_ mode voids);
        pathRefs ← arrayFrom (fun t : NodeEntry => pathRef (snd t)) matches;
        forEach pathRefs (liftEntry voids)
    end).

(** The body of the loop of [unwrapNodes] for one path reference: the
    children of the node there are lifted out of it.  When the range of the
    node does not meet the location, [Range.intersection] gives null and
    [liftNodes] is called with [at: null]: a null is not replaced by the
    selection, so [liftNodes] opens its batch and returns at once. *)
Definition unwrapEntry (at_ : Location) (split voids : bool) (h : nat) : M unit :=
  path ← pathRef_unref h;
  path ← orThrow "TypeError: Cannot read property 'length' of null" path;
  '(node, _) ← must "Cannot find a descendant at path"
                    (fun d => Editor_node E (children d) path);
  range ← must "Cannot get the range" (fun d => Editor_range E (children d) path None);
  let range :=
    match at_ with
    | AtRange r => if split then Range_intersection E r range else Some range
    | _ => Some range
    end in
  match range with
  | Some range =>
      liftNodes (mkLiftOptions (Some (AtRange range))
                   (Some (MOneOf (NodeI.children node))) None (Some voids))
  | None => withoutNormalizing E (pure tt)
  end.

(** [unwrapNodes(editor, options)]. *)
Definition unwrapNodes (o : UnwrapOptions) : M unit :=
  withoutNormalizing E (
    at_ ← query (atOrSelection (unwrap_at o));
    let mode := default ModeHighest (unwrap_mode o) in
    let split := default false (unwrap_split o) in
    let voids := default false (unwrap_voids o) in
    match at_ with
    | None => pure tt
    | Some at_ =>
        match_ ← defaultMatch (unwrap_match o) at_;
        matches ← query (fun d => Editor_nodes E (children d) at_ match_ mode voids);
        pathRefs ← arrayFrom (fun t : NodeEntry => pathRef (snd t)) matches;
        forEach pathRefs (unwrapEntry at_ split voids)
    end).

(** The closure [n => levels.includes(n) && Element.isElement(n) &&
    n.children.length === 1] of [mergeNodes]. *)
Definition emptyAncestorMatch (levels : list Node) : NodeMatch :=
  MAnd (MOneOf levels)
       (MFn (fun n => NodeI.isElement n
                      && bool_decide (length (NodeI.children n) = 1))).

(** The test that the predecessor is empty. *)
Definition prevIsEmpty (tree : list Node) (prevNode : Node) : bool :=
  (NodeI.isElement prevNode && Editor_isEmpty E tree prevNode)
  || (NodeI.isText prevNode && bool_decide (NodeI.text prevNode = "")).

(** [mergeNodes]: a Range location is unhung and collapsed to a Point. *)
Definition mergeLocation (o : MergeOptions) (at_ : Location) : M Location :=
  let hanging := default false (mrg_hanging o) in
  at_ ← match at_ with
         | AtRange r =>
             if negb hanging
             then query (fun d => AtRange (Editor_unhangRange E (children d) r))
             else pure at_
         | _ => pure at_
         end;
  match at_ with
  | AtRange r =>
      if RangeI.isCollapsed r then pure (AtPoint (anchor r))
      else
        let '(_, end_) := RangeI.edges r in
        pointRef_ ← pointRef end_ (Some Forward);
        external (Editor_delete E r);;
        pt ← pointRef_unref pointRef_;
        pt ← orThrow "TypeError: Cannot read property 'path' of null" pt;
        (if bool_decide (mrg_at o = None)
         then external (Editor_select E (AtPoint pt))
         else pure tt);;
        pure (AtPoint pt)
  | _ => pure at_
  end.

(** The kind check of [mergeNodes]: the position and the properties of the
    merge, or the error. *)
Definition mergeKind (node prevNode : Node) : M (nat * Props) :=
  match node, prevNode with
  | Text _ marks, Text prevText _ => pure (String.length prevText, marks)
  | Element props _, Element _ prevChildren => pure (length prevChildren, props)
  | _, _ =>
      throw "Cannot merge the node with the previous sibling because it is not the same kind"
  end.

(** [mergeNodes], before the merge: the node is moved next to its
    predecessor unless it is there already, then the tracked ancestor, if
    there is one, is removed. *)
Definition mergePrepare (voids isPreviousSibling : bool) (path newPath : Path)
    (emptyRef : option nat) : M unit :=
  (if negb isPreviousSibling
   then moveNodes (mkMoveOptions (Some (AtPath path)) None None newPath (Some voids))
   else pure tt);;
  match emptyRef with
  | Some h =>
      cur ← pathRef_current h;
      match cur with
      | Some p => removeNodes (mkRemoveOptions (Some (AtPath p)) None None None (Some voids))
      | None => withoutNormalizing E (pure tt)
      end
  | None => pure tt
  end.

(** [mergeNodes], the merge itself: an empty predecessor is removed, any
    other receives the node by a [merge_node]. *)
Definition mergeFinish (voids : bool) (prevNode : Node) (prevPath newPath : Path)
    (position : nat) (properties : Props) : M unit :=
  isEmpty ← query (fun d => prevIsEmpty (children d) prevNode);
  if isEmpty : bool
  then removeNodes (mkRemoveOptions (Some (AtPath prevPath)) None None None (Some voids))
  else apply E (merge_node newPath position None properties).

(** The nodes on the way to [path], below the common ancestor and above the
    node itself. *)
Definition mergeLevels (tree : list Node) (path commonPath : Path) : list Node :=
  removelast (drop (length commonPath)
                (fst <$> Editor_levels E tree path false false)).

(** [emptyAncestor && Editor.pathRef(editor, emptyAncestor[1])]. *)
Definition trackAncestor (emptyAncestor : option NodeEntry) : M (option nat) :=
  match emptyAncestor with
  | Some (_, p) => h ← pathRef p; pure (Some h)
  | None => pure None
  end.

(** [mergeNodes] once the matched node and its predecessor are known and
    neither is the root. *)
Definition mergeEntries (voids : bool) (node : Node) (path : Path)
    (prevNode : Node) (prevPath : Path) : M unit :=
  newPath ← orThrow "Cannot get the next path of a root path" (PathI.next prevPath);
  let commonPath := PathI.common path prevPath in
  let isPreviousSibling := PathI.isSibling path prevPath in
  levels ← query (fun d => mergeLevels (children d) path commonPath);
  emptyAncestor ← query (fun d => Editor_match E (children d) (AtPath path)
                                    (emptyAncestorMatch levels) false);
  emptyRef ← trackAncestor emptyAncestor;
  '(position, properties) ← mergeKind node prevNode;
  mergePrepare voids isPreviousSibling path newPath emptyRef;;
  mergeFinish voids prevNode prevPath newPath position properties;;
  match emptyRef with
  | Some h => pathRef_unref h;; pure tt
  | None => pure tt
  end.

(** The default of [match] in [mergeNodes]: for a Path location the
    children of its parent, else ['block']. *)
Definition mergeDefaultMatch (o : MergeOptions) (at_ : Location) : M NodeMatch :=
  match mrg_match o, at_ with
  | Some m, _ => pure m
  | None, AtPath p =>
      '(parent, _) ← must "Cannot get the parent" (fun d => Editor_parent E (children d) p);
      pure (MOneOf (NodeI.children parent))
  | None, _ => pure (MKind "block")
  end.

(** [mergeNodes(editor, options)]. *)
Definition mergeNodes (o : MergeOptions) : M unit :=
  withoutNormalizing E (
    at_ ← query (atOrSelection (mrg_at o));
    let voids := default false (mrg_voids o) in
    match at_ with
    | None => pure tt
    | Some at_ =>
        match_ ← mergeDefaultMatch o at_;
        at_ ← mergeLocation o at_;
        current ← query (fun d => Editor_match E (children d) at_ match_ voids);
        prev ← query (fun d => Editor_previous E (children d) at_ match_ voids);
        match current, prev with
        | Some (node, path), Some (prevNode, prevPath) =>
            if bool_decide (length path = 0) || bool_decide (length prevPath = 0)
            then pure tt
            else mergeEntries voids node path prevNode prevPath
        | _, _ => pure tt
        end
    end).

(** The inner loop of [setNodes] over the keys of [props]: the old and the
    new value of every key, other than [children] and [text], whose
    requested value differs from the node's. *)
Definition setNodesStep (node : Node) (k : string) (v : Value)
    (acc : Props * Props) : Props * Props :=
  if bool_decide (k = "children") || bool_decide (k = "text") then acc
  else if bool_decide (v ≠ NodeI.get node k)
       then (<[k := NodeI.get node k]> (fst acc), <[k := v]> (snd acc))
       else acc.

Definition setNodesDelta (props : Props) (node : Node) : Props * Props :=
  map_fold (setNodesStep node) (∅, ∅) props.

(** The body of the loop of [setNodes] for one match. *)
Definition setNodesEntry (props : Props) (entry : NodeEntry) : M unit :=
  let '(node, path) := entry in
  if bool_decide (length path = 0) then pure tt
  else
    let '(properties, newProperties) := setNodesDelta props node in
    if bool_decide (dom newProperties ≠ ∅)
    then apply E (set_node path properties newProperties)
    else pure tt.

(** The splitting of both edges of a Range, shared by [setNodes] and
    [wrapNodes]. *)
Definition splitEdges (optionsAt : option Location) (r : Range)
    (match_ : NodeMatch) (voids : bool) : M Location :=
  rangeRef_ ← rangeRef r (Some Inward);
  let '(start, end_) := RangeI.edges r in
  splitNodes (mkSplitOptions (Some (AtPoint end_)) (Some match_) None None (Some voids));;
  splitNodes (mkSplitOptions (Some (AtPoint start)) (Some match_) None None (Some voids));;
  r' ← rangeRef_unref rangeRef_;
  r' ← orThrow "TypeError: Cannot read property 'anchor' of null" r';
  (if bool_decide (optionsAt = None)
   then external (Editor_select E (AtRange r'))
   else pure tt);;
  pure (AtRange r').

(** [setNodes(editor, props, options)]. *)
Definition setNodes (props : Props) (o : SetOptions) : M unit :=
  withoutNormalizing E (
    at_ ← query (atOrSelection (set_at o));
    let hanging := default false (set_hanging o) in
    let mode := default ModeHighest (set_mode o) in
    let split := default false (set_split o) in
    let voids := default false (set_voids o) in
    match at_ with
    | None => pure tt
    | Some at_ =>
        match_ ← defaultMatch (set_match o) at_;
        at_ ← match at_ with
               | AtRange r =>
                   if negb hanging
                   then query (fun d => AtRange (Editor_unhangRange E (children d) r))
                   else pure at_
               | _ => pure at_
               end;
        at_ ← match at_ with
               | AtRange r =>
                   if split then splitEdges (set_at o) r match_ voids else pure at_
               | _ => pure at_
               end;
        entries ← query (fun d => Editor_nodes E (children d) at_ match_ mode voids);
        forEach entries (setNodesEntry props)
    end).

(** [unsetNodes(editor, props, options)]: [obj[key] = null] for every key,
    then [setNodes]. *)
Definition unsetObj (props : list string) : Props :=
  foldl (fun obj key => <[key := VNull]> obj) ∅ props.

Definition unsetToSet (o : UnsetOptions) : SetOptions :=
  mkSetOptions (unset_at o) (unset_match o) (unset_mode o) None
               (unset_split o) (unset_voids o).

Inductive PropsArg :=
  | OneKey (k : string)
  | ManyKeys (ks : list string).

Definition unsetNodes (props : PropsArg) (o : UnsetOptions) : M unit :=
  let props := match props with OneKey k => [k] | ManyKeys ks => ks end in
  setNodes (unsetObj props) (unsetToSet o).

(** [{ ...element, children: [] }]. *)
Definition emptied (element : Node) : Node :=
  match element with
  | Element props _ => Element props []
  | Text _ marks => Element marks []
  | Root _ => Element ∅ []
  end.

(** Where [wrapNodes] puts the wrapper for matches running from
    [firstPath] to [lastPath]: [Path.next(lastPath).slice(0, depth)]. *)
Definition wrapCommonPath (firstPath lastPath : Path) : option Path :=
  if PathI.equals firstPath lastPath
  then PathI.parent firstPath
  else Some (PathI.common firstPath lastPath).

Definition wrapperPathOf (commonPath lastPath : Path) : option Path :=
  next_ ← PathI.next lastPath;
  Some (take (length commonPath + 1) next_).

(** The part of the location that lies in one root context: a Range is
    intersected with the range of the root, any other location is taken as
    it is. *)
Definition wrapArea (at_ : Location) (rootPath : Path) : M (option Location) :=
  match at_ with
  | AtRange r =>
      rootRange ← must "Cannot get the range"
                       (fun d => Editor_range E (children d) rootPath None);
      pure (AtRange <$> Range_intersection E r rootRange)
  | _ => pure (Some at_)
  end.

(** The body of the loop of [wrapNodes] for one root context. *)
Definition wrapRoot (element : Node) (at_ : Location) (match_ : NodeMatch)
    (mode : Mode) (voids : bool) (rootPath : Path) : M unit :=
  a ← wrapArea at_ rootPath;
  match a with
  | None => pure tt
  | Some a =>
      matches ← query (fun d => Editor_nodes E (children d) a match_ mode voids);
      match matches, last matches with
      | (_, firstPath) :: _, Some (_, lastPath) =>
          commonPath ← orThrow "Cannot get the parent path of the root path"
                               (wrapCommonPath firstPath lastPath);
          range ← must "Cannot get the range"
                       (fun d => Editor_range E (children d) firstPath (Some lastPath));
          '(commonNode, _) ← must "Cannot find a descendant at path"
                                  (fun d => Editor_node E (children d) commonPath);
          wrapperPath ← orThrow "Cannot get the next path of a root path"
                                (wrapperPathOf commonPath lastPath);
          let wrapper := emptied element in
          insertNodes (One wrapper)
            (mkInsertOptions (Some (AtPath wrapperPath)) None None (Some voids));;
          (* [n => commonNode.children.includes(n)] is called by [moveNodes]:
             an element is the value read before the insertion, the editor
             is the editor itself, whose children then hold the wrapper *)
          live ← query children;
          let members :=
            if bool_decide (commonPath = []) then live
            else NodeI.children commonNode in
          moveNodes (mkMoveOptions (Some (AtRange range)) (Some (MOneOf members)) None
                       (wrapperPath ++ [0]) (Some voids))
      | _, _ => pure tt
      end
  end.

(** [wrapNodes(editor, element, options)]. *)
Definition wrapNodes (element : Node) (o : WrapOptions) : M unit :=
  withoutNormalizing E (
    let mode := default ModeHighest (wrap_mode o) in
    let split := default false (wrap_split o) in
    let voids := default false (wrap_voids o) in
    at_ ← query (atOrSelection (wrap_at o));
    match at_ with
    | None => pure tt
    | Some at_ =>
        match_ ← match wrap_match o with
                  | Some m => pure m
                  | None =>
                      match at_ with
                      | AtPath p => matchPath p
                      | _ => if isInline E element
                             then pure (MKinds ["inline"; "text"])
                             else pure (MKind "block")
                      end
                  end;
        at_ ← match at_ with
               | AtRange r =>
                   if split then splitEdges (wrap_at o) r match_ voids else pure at_
               | _ => pure at_
               end;
        roots ← query (fun d => Editor_nodes E (children d) at_
                                  (if isInline E element then MKind "block" else MKind "editor")
                                  ModeHighest voids);
        forEach roots (fun root : NodeEntry =>
          wrapRoot element at_ match_ mode voids (snd root))
    end).
End Transforms.

(** ** Callers of the transforms: the example plugins *)

(** The commands the example plugins look at, by their [type]; any other
    command is [other]. *)
Inductive Command :=
  | toggle_format (format : string)
  | delete_forward
  | delete_backward
  | insert_break
  | other (type : string).

(** Modelled from the spec: an object [{ [k]: v }] used as [match] holds of
    the nodes whose value under [k] is identical to [v]. *)
Definition matchProps (k : string) (v : Value) : NodeMatch :=
  MFn (fun n => bool_decide (NodeI.get n k = v)).

Section Callers.
Context (E : Engine).

(** Modelled from the spec: [Editor.nodes(editor, { match, mode })] without
    [at] iterates over the selection, and yields nothing when there is
    none. *)
Definition nodesAtSelection (m : NodeMatch) (mode : Mode) : M (list NodeEntry) :=
  at_ ← query (atOrSelection None);
  match at_ with
  | None => pure []
  | Some at_ => query (fun d => Editor_nodes E (children d) at_ m mode false)
  end.

(** [isFormatActive(editor, format)] of the hovering menu: [!!match] for
    the first node yielded. *)
Definition isFormatActive (format : string) : M bool :=
  matches ← nodesAtSelection (matchProps format (VBool true)) ModeAll;
  pure (bool_decide (head matches ≠ None)).

(** The options [{ match: 'text', split: true }]. *)
Definition textSplit : SetOptions :=
  mkSetOptions None (Some (MKind "text")) None None (Some true) None.

(** [editor.exec] as [withFormatting] overrides it. *)
Definition withFormatting (exec : Command -> M unit) (command : Command) : M unit :=
  match command with
  | toggle_format format =>
      isActive ← isFormatActive format;
      setNodes E {[format := if isActive : bool then VNull else VBool true]} textSplit
  | _ => exec command
  end.

(** [editor.exec] as [withTables] overrides it.  [Editor_start] is
    [Editor.start], which the transforms do not use. *)
Definition withTables (Editor_start : list Node -> Path -> option Point)
    (exec : Command -> M unit) (command : Command) : M unit :=
  selection ← query selection;
  atEdge ←
    match command, selection with
    | (delete_forward | delete_backward), Some sel =>
        if RangeI.isCollapsed sel then
          cells ← nodesAtSelection (matchProps "type" (VStr "table-cell")) ModeAll;
          match head cells with
          | Some (_, cellPath) =>
              edge ← must "Cannot get the point"
                          (fun d => match command with
                                    | delete_backward => Editor_start (children d) cellPath
                                    | _ => Editor_end E (children d) cellPath
                                    end);
              pure (bool_decide (anchor sel = edge))
          | None => pure false
          end
        else pure false
    | _, _ => pure false
    end;
  if atEdge : bool then pure tt
  else
    inTable ←
      match command, selection with
      | insert_break, Some _ =>
          tables ← nodesAtSelection (matchProps "type" (VStr "table")) ModeAll;
          pure (bool_decide (head tables ≠ None))
      | _, _ => pure false
      end;
    if inTable : bool then pure tt else exec command.
End Callers.

(** * A reference engine

    Modelled from the spec: the Query Engine and the Apply Engine, which are
    not under the transforms file, as a small executable instance on which
    the transforms run on concrete documents.  An element is inline or void when
    its property of that name is [true]; object identity is structural
    equality, so the documents used below keep their nodes pairwise
    distinct. *)

Module Ref.

Definition isInline (n : Node) : bool :=
  NodeI.isElement n && bool_decide (NodeI.get n "inline" = VBool true).

Definition isVoid (n : Node) : bool :=
  NodeI.isElement n && bool_decide (NodeI.get n "void" = VBool true).

(** Structural equality of nodes, standing for [===]. *)
Fixpoint same (a b : Node) : bool :=
  let fix sameList (l l' : list Node) : bool :=
    match l, l' with
    | [], [] => true
    | x :: l, y :: l' => same x y && sameList l l'
    | _, _ => false
    end in
  match a, b with
  | Text t m, Text t' m' => bool_decide (t = t') && bool_decide (m = m')
  | Element p c, Element p' c' => bool_decide (p = p') && sameList c c'
  | Root c, Root c' => sameList c c'
  | _, _ => false
  end.

Definition kindIs (k : string) (n : Node) : bool :=
  if bool_decide (k = "text") then NodeI.isText n
  else if bool_decide (k = "block") then NodeI.isElement n && negb (isInline n)
  else if bool_decide (k = "inline") then isInline n
  else if bool_decide (k = "void") then isVoid n
  else if bool_decide (k = "editor") then match n with Root _ => true | _ => false end
  else false.

(** Modelled from the spec: a pattern is a kind name, a predicate or a node
    identity; [isMatch] decides it on a node. *)
Fixpoint isMatch (m : NodeMatch) (n : Node) : bool :=
  match m with
  | MKind k => kindIs k n
  | MKinds ks => existsb (fun k => kindIs k n) ks
  | MFn f => f n
  | MIs x => same n x
  | MOneOf xs => existsb (same n) xs
  | MAnd m1 m2 => isMatch m1 n && isMatch m2 n
  end.

(** The node at a path below [n]. *)
Fixpoint getIn (n : Node) (p : Path) : option Node :=
  match p with
  | [] => Some n
  | i :: p' =>
      match NodeI.children n !! i with
      | Some c => getIn c p'
      | None => None
      end
  end.

(** Modelled from the spec: [resolve(path)], the node at a path and the
    path. *)
Definition node (tree : list Node) (p : Path) : option NodeEntry :=
  n ← getIn (Root tree) p; Some (n, p).

Definition parent (tree : list Node) (p : Path) : option NodeEntry :=
  pp ← PathI.parent p; node tree pp.

(** Every node of the document with its path, in document order. *)
Fixpoint entriesOf (n : Node) (p : Path) : list NodeEntry :=
  let fix go (l : list Node) (i : nat) : list NodeEntry :=
    match l with
    | [] => []
    | x :: l' => entriesOf x (p ++ [i]) ++ go l' (S i)
    end in
  (n, p) :: match n with
            | Text _ _ => []
            | Element _ c => go c 0
            | Root c => go c 0
            end.

Definition entries (tree : list Node) : list NodeEntry := entriesOf (Root tree) [].

Definition isPrefix (p q : Path) : bool := bool_decide (take (length p) q = p).

(** The text leaves at or below a path. *)
Definition leaves (tree : list Node) (p : Path) : list NodeEntry :=
  filter (fun en => NodeI.isText (fst en) && isPrefix p (snd en)) (entries tree).

(** Modelled from the spec: [start] and [end], the points at the two edges
    of a path; [point] of a path, called without an edge, is the start
    point. *)
Definition start (tree : list Node) (p : Path) : option Point :=
  en ← head (leaves tree p); Some (mkPoint (snd en) 0).

Definition end_ (tree : list Node) (p : Path) : option Point :=
  en ← last (leaves tree p);
  Some (mkPoint (snd en) (String.length (NodeI.text (fst en)))).

Definition locPath (l : Location) : Path :=
  match l with
  | AtPath p => p
  | AtPoint pt => path_of pt
  | AtRange r => PathI.common (path_of (anchor r)) (path_of (focus r))
  end.

(** Modelled from the spec: [levels], the nodes from the root down to the
    location (or, reversed, from the location up); without [voids] the walk
    stops at the first void. *)
Fixpoint levelsFrom (n : Node) (done todo : Path) (voids : bool) : list NodeEntry :=
  (n, done) ::
  match todo with
  | [] => []
  | i :: todo' =>
      if negb voids && isVoid n then []
      else match NodeI.children n !! i with
           | Some c => levelsFrom c (done ++ [i]) todo' voids
           | None => []
           end
  end.

Definition levels (tree : list Node) (p : Path) (reverse_ voids : bool)
    : list NodeEntry :=
  let ls := levelsFrom (Root tree) [] p voids in
  if reverse_ then reverse ls else ls.

(** Modelled from the spec: [match], the first node on the branch of the
    location, from the root down, that the pattern matches. *)
Definition match_ (tree : list Node) (l : Location) (m : NodeMatch) (voids : bool)
    : option NodeEntry :=
  head (filter (fun en => isMatch m (fst en)) (levels tree (locPath l) false voids)).

(** A path lies in the span from [from] to [to] when it is neither before
    the first nor after the second; an ancestor of either end is in. *)
Definition inSpan (from to p : Path) : bool :=
  negb (bool_decide (PathI.compare p from = Lt))
  && negb (bool_decide (PathI.compare p to = Gt)).

(** A path has a void strictly above it. *)
Definition behindVoid (tree : list Node) (p : Path) : bool :=
  existsb (fun en => isVoid (fst en) && negb (bool_decide (snd en = p)))
          (levelsFrom (Root tree) [] p true).

(** [mode: 'highest']: a match below an earlier match is dropped. *)
Fixpoint highestOnly (hit : option Path) (ms : list NodeEntry) : list NodeEntry :=
  match ms with
  | [] => []
  | (n, p) :: ms' =>
      match hit with
      | Some h =>
          if isPrefix h p then highestOnly hit ms'
          else (n, p) :: highestOnly (Some p) ms'
      | None => (n, p) :: highestOnly (Some p) ms'
      end
  end.

(** The first and the last path at or below a path; a node without text
    below it is its own first and last. *)
Definition firstPath (tree : list Node) (p : Path) : Path :=
  default p (snd <$> head (leaves tree p)).

Definition lastPath (tree : list Node) (p : Path) : Path :=
  default p (snd <$> last (leaves tree p)).

Definition spanOf (tree : list Node) (l : Location) : option (Path * Path) :=
  match l with
  | AtPath p => Some (firstPath tree p, lastPath tree p)
  | AtPoint pt => Some (path_of pt, path_of pt)
  | AtRange r =>
      let '(a, b) := RangeI.edges r in Some (path_of a, path_of b)
  end.

(** Modelled from the spec: [nodes], the matches in the span of a location,
    in document order, without the content of voids unless [voids] is set,
    and without the matches below another match in the mode [highest]. *)
Definition nodes (tree : list Node) (l : Location) (m : NodeMatch) (mode : Mode)
    (voids : bool) : list NodeEntry :=
  match spanOf tree l with
  | None => []
  | Some (from, to) =>
      let inside :=
        filter (fun en => inSpan from to (snd en)
                          && (voids || negb (behindVoid tree (snd en)))
                          && isMatch m (fst en))
               (entries tree) in
      match mode with
      | ModeAll => inside
      | ModeHighest => highestOnly None inside
      end
  end.

(** Modelled from the spec: [previous], the match before the one at the
    location: the second match, going backward from the start of the
    location. *)
Definition previous (tree : list Node) (l : Location) (m : NodeMatch) (voids : bool)
    : option NodeEntry :=
  match spanOf tree l with
  | None => None
  | Some (from, _) =>
      let upto :=
        filter (fun en => negb (bool_decide (PathI.compare (snd en) from = Gt))
                          && (voids || negb (behindVoid tree (snd en)))
                          && isMatch m (fst en))
               (entries tree) in
      reverse upto !! 1
  end.

(** Modelled from the spec: [after], the point that follows a path: the
    start of the first text after it. *)
Definition after_ (tree : list Node) (p : Path) : option Point :=
  en ← head (filter (fun en => NodeI.isText (fst en)
                               && bool_decide (PathI.compare (snd en) p = Gt))
                    (entries tree));
  Some (mkPoint (snd en) 0).

Definition range (tree : list Node) (p : Path) (q : option Path) : option Range :=
  a ← start tree p; b ← end_ tree (default p q); Some (mkRange a b).

Definition isEnd (tree : list Node) (pt : Point) (p : Path) : bool :=
  bool_decide (end_ tree p = Some pt).

Definition isStart (tree : list Node) (pt : Point) (p : Path) : bool :=
  bool_decide (start tree p = Some pt).

Definition isEdge (tree : list Node) (pt : Point) (p : Path) : bool :=
  isStart tree pt p || isEnd tree pt p.

(** Modelled from the spec: an element is empty with no child, or with one
    empty text as its only child. *)
Definition isEmpty (tree : list Node) (n : Node) : bool :=
  match NodeI.children n with
  | [] => true
  | [Text t _] => bool_decide (t = "") && negb (isVoid n)
  | _ => false
  end.

(** Modelled from the spec: a range hangs when its end is at the start of a
    block after its start; it is trimmed back to the end of the text before.
    A range that does not hang is returned as it is. *)
Definition unhangRange (tree : list Node) (r : Range) : Range :=
  let '(a, b) := RangeI.edges r in
  if RangeI.isCollapsed r || negb (bool_decide (offset b = 0))
     || negb (bool_decide (hd 0 (path_of a) < hd 0 (path_of b)))
  then r
  else
    match last (filter (fun en => NodeI.isText (fst en)
                                  && bool_decide (PathI.compare (snd en) (path_of b) = Lt))
                       (entries tree)) with
    | Some (n, p) => mkRange a (mkPoint p (String.length (NodeI.text n)))
    | None => r
    end.

(** Modelled from the spec: the intersection of two ranges, or none when
    they do not meet. *)
Definition intersection (r s : Range) : option Range :=
  let '(a1, b1) := RangeI.edges r in
  let '(a2, b2) := RangeI.edges s in
  let a := if PointI.isAfter a2 a1 then a2 else a1 in
  let b := if PointI.isAfter b1 b2 then b2 else b1 in
  if PointI.isAfter a b then None else Some (mkRange a b).

(** *** The Apply Engine of the reference engine *)

(** [q] and [p] meet at the depth of [q]: the parent of [q] is on the way to
    [p]; [k] is that depth. *)
Definition meets (q p : Path) : bool :=
  bool_decide (length q <= length p)
  && bool_decide (take (length q - 1) p = removelast q).

Definition at_ (k : nat) (p : Path) : nat := default 0 (p !! k).

Definition insertShift (q p : Path) : Path :=
  let k := length q - 1 in
  if negb (bool_decide (q = [])) && meets q p && bool_decide (at_ k q <= at_ k p)
  then alter S k p else p.

Definition removeShift (q p : Path) : Path :=
  let k := length q - 1 in
  if negb (bool_decide (q = [])) && meets q p && bool_decide (at_ k q < at_ k p)
  then alter Nat.pred k p else p.

(** A position as the Apply Engine reads it: a comparison with [NaN] is
    false, and a slice takes [NaN] as 0. *)
Definition sliceAt (pos : Num) : nat :=
  match pos with Index n => n | NaN => 0 end.

Definition atMost (pos : Num) (k : nat) : bool :=
  match pos with Index n => bool_decide (n <= k) | NaN => false end.

Definition below (pos : Num) (k : nat) : bool :=
  match pos with Index n => bool_decide (n < k) | NaN => false end.

(** Modelled from the spec: the path-shift rule of each operation. *)
Definition transformPath (op : Operation) (a : option Affinity) (p : Path)
    : option Path :=
  match op with
  | insert_node q _ => Some (insertShift q p)
  | remove_node q _ =>
      if isPrefix q p then None else Some (removeShift q p)
  | move_node q nq =>
      if bool_decide (q = nq) then Some p
      else
        let truePath := if bool_decide (length q < length nq)
                        then removeShift q nq else nq in
        if isPrefix q p then Some (truePath ++ drop (length q) p)
        else Some (insertShift truePath (removeShift q p))
  | split_node q pos _ _ =>
      let k := length q - 1 in
      if bool_decide (p = q) then
        match a with
        | Some Forward => Some (alter S k p)
        | Some _ => Some p
        | None => None
        end
      else if isPrefix q p then
        if atMost pos (at_ (length q) p)
        then Some (alter (fun i => i - sliceAt pos) (length q) (alter S k p))
        else Some p
      else Some (insertShift (alter S k q) p)
  | merge_node q pos _ _ =>
      let k := length q - 1 in
      if bool_decide (p = q) then Some (alter Nat.pred k p)
      else if isPrefix q p
      then Some (alter (fun i => i + pos) (length q) (alter Nat.pred k p))
      else Some (removeShift q p)
  | _ => Some p
  end.

Definition transformPoint (op : Operation) (a : option Affinity) (pt : Point)
    : option Point :=
  let path := path_of pt in
  match op with
  | split_node q pos _ _ =>
      if bool_decide (path = q) then
        if bool_decide (pos = Index (offset pt)) && bool_decide (a = None) then None
        else if below pos (offset pt)
                || (bool_decide (pos = Index (offset pt))
                    && bool_decide (a = Some Forward))
        then p ← transformPath op (Some Forward) path;
             Some (mkPoint p (offset pt - sliceAt pos))
        else Some pt
      else p ← transformPath op a path; Some (mkPoint p (offset pt))
  | merge_node q pos _ _ =>
      p ← transformPath op a path;
      Some (mkPoint p (if bool_decide (path = q) then offset pt + pos else offset pt))
  | insert_text q off text =>
      if bool_decide (path = q) && bool_decide (off <= offset pt)
      then Some (mkPoint path (offset pt + String.length text))
      else Some pt
  | remove_text q off text =>
      if bool_decide (path = q) && bool_decide (off <= offset pt)
      then Some (mkPoint path (offset pt - Nat.min (offset pt - off) (String.length text)))
      else Some pt
  | _ => p ← transformPath op a path; Some (mkPoint p (offset pt))
  end.

Definition transformRange (op : Operation) (a : option Affinity) (r : Range)
    : option Range :=
  let forward := negb (PointI.isAfter (anchor r) (focus r)) in
  let '(aa, af) :=
    match a with
    | Some Inward => if forward then (Some Forward, Some Backward)
                     else (Some Backward, Some Forward)
    | Some Outward => if forward then (Some Backward, Some Forward)
                      else (Some Forward, Some Backward)
    | _ => (a, a)
    end in
  x ← transformPoint op aa (anchor r);
  y ← transformPoint op af (focus r);
  Some (mkRange x y).

Definition transformSelection (op : Operation) (sel : option Range) : option Range :=
  match op with
  | set_selection _ new => new
  | _ => sel ≫= transformRange op (Some Forward)
  end.

Definition setChildren (n : Node) (c : list Node) : Node :=
  match n with
  | Text t m => Text t m
  | Element p _ => Element p c
  | Root _ => Root c
  end.

(** The tree with [f] applied to the node at [p]. *)
Fixpoint alterAt (p : Path) (f : Node -> Node) (n : Node) : Node :=
  match p with
  | [] => f n
  | i :: p' => setChildren n (alter (alterAt p' f) i (NodeI.children n))
  end.

Definition alterChildren (pp : Path) (f : list Node -> list Node) (n : Node) : Node :=
  alterAt pp (fun x => setChildren x (f (NodeI.children x))) n.

Definition insertList {A} (i : nat) (x : A) (l : list A) : list A :=
  take i l ++ x :: drop i l.

Definition splitTwo (pos : nat) (props : Props) (n : Node) : list Node :=
  match n with
  | Text t m =>
      [Text (String.substring 0 pos t) m;
       Text (String.substring pos (String.length t - pos) t) (props ∪ m)]
  | Element p c => [Element p (take pos c); Element (props ∪ p) (drop pos c)]
  | Root _ => [n]
  end.

Definition mergeTwo (a b : Node) : list Node :=
  match a, b with
  | Text t m, Text t' _ => [Text (String.append t t') m]
  | Element p c, Element _ c' => [Element p (c ++ c')]
  | _, _ => [a; b]
  end.

Definition setProps (new : Props) (n : Node) : Node :=
  let kept := filter (fun kv => snd kv ≠ VNull /\ snd kv ≠ VUndefined) new in
  match n with
  | Text t m => Text t (kept ∪ (m ∖ new))
  | Element p c => Element (kept ∪ (p ∖ new)) c
  | Root _ => n
  end.

Definition editText (f : string -> string) (n : Node) : Node :=
  match n with
  | Text t m => Text (f t) m
  | _ => n
  end.

(** Modelled from the spec: what each atomic operation does to the tree. *)
Definition transformTree (op : Operation) (tree : list Node) : list Node :=
  let root := Root tree in
  NodeI.children
    match op with
    | insert_node q n =>
        alterChildren (removelast q) (insertList (at_ (length q - 1) q) n) root
    | remove_node q _ =>
        alterChildren (removelast q) (delete (at_ (length q - 1) q)) root
    | set_node q _ new => alterAt q (setProps new) root
    | split_node q pos _ props =>
        let i := at_ (length q - 1) q in
        alterChildren (removelast q)
          (fun c => match c !! i with
                    | Some n => take i c ++ splitTwo (sliceAt pos) props n ++ drop (S i) c
                    | None => c
                    end) root
    | merge_node q _ _ _ =>
        let i := at_ (length q - 1) q in
        alterChildren (removelast q)
          (fun c => match c !! (i - 1), c !! i with
                    | Some a, Some b => take (i - 1) c ++ mergeTwo a b ++ drop (S i) c
                    | _, _ => c
                    end) root
    | move_node q nq =>
        match getIn root q with
        | Some n =>
            let truePath := if bool_decide (length q < length nq)
                            then removeShift q nq else nq in
            alterChildren (removelast truePath)
              (insertList (at_ (length truePath - 1) truePath) n)
              (alterChildren (removelast q) (delete (at_ (length q - 1) q)) root)
        | None => root
        end
    | insert_text q off text =>
        alterAt q (editText (fun t =>
                     String.append (String.substring 0 off t)
                       (String.append text
                          (String.substring off (String.length t - off) t)))) root
    | remove_text q off text =>
        alterAt q (editText (fun t =>
                     String.append (String.substring 0 off t)
                       (String.substring (off + String.length text)
                          (String.length t - off - String.length text) t))) root
    | set_selection _ _ => root
    end.

(** The engine without the two foreign transforms, which are defined from
    its own Apply Engine just below. *)
Definition core : Engine :=
  mkEngine isInline isVoid
    transformTree transformSelection transformPath transformPoint transformRange
    (fun d => d)
    node parent start end_ after_ range match_ previous nodes levels
    isEnd isEdge isEmpty unhangRange intersection
    (fun _ d => (d, [])) (fun _ d => (d, [])).

(** Modelled from the spec: [Editor.delete] destroys the content under a
    range, of which the reference engine covers a range inside one text: one
    [remove_text]. *)
Definition delete_ (r : Range) (d : Doc) : Doc * list Operation :=
  let '(a, b) := RangeI.edges r in
  match getIn (Root (children d)) (path_of a) with
  | Some (Text t _) =>
      if bool_decide (path_of a = path_of b) && negb (RangeI.isCollapsed r) then
        let op := remove_text (path_of a) (offset a)
                    (String.substring (offset a) (offset b - offset a) t) in
        (applyDoc core op d, [op])
      else (d, [])
  | _ => (d, [])
  end.

(** Modelled from the spec: [Editor.select] sets the selection to a
    location, with a [set_selection] when that changes it. *)
Definition select (target : Location) (d : Doc) : Doc * list Operation :=
  let new := match target with
             | AtPoint pt => Some (mkRange pt pt)
             | AtRange r => Some r
             | AtPath p => range (children d) p None
             end in
  if bool_decide (new = selection d) then (d, [])
  else
    let op := set_selection (selection d) new in
    (applyDoc core op d, [op]).

(** The reference engine. *)
Definition engine : Engine :=
  mkEngine isInline isVoid
    transformTree transformSelection transformPath transformPoint transformRange
    (fun d => d)
    node parent start end_ after_ range match_ previous nodes levels
    isEnd isEdge isEmpty unhangRange intersection
    delete_ select.

(** A document to start from: the tree, no selection, no reference. *)
Definition editorOf (tree : list Node) : Editor :=
  mkEditor (mkDoc tree None ∅ ∅ ∅ 0) true.

Definition props (kvs : list (string * Value)) : Props := list_to_map kvs.

(** Nodes of the example documents: a paragraph, a void figure, an inline
    link, a quote. *)
Definition paragraph (c : list Node) : Node := Element ∅ c.

Definition figure (c : list Node) : Node :=
  Element (props [("void", VBool true)]) c.

Definition link (c : list Node) : Node :=
  Element (props [("inline", VBool true)]) c.

Definition quote (c : list Node) : Node :=
  Element (props [("type", VStr "quote")]) c.
End Ref.

(** * Vocabulary of the properties *)

(** [Emits P m]: every operation [m] emits, from any editor, satisfies [P]. *)
Definition Emits {A} (P : Operation -> Prop) (m : M A) : Prop :=
  forall e, Forall P (emitted (m e)).

(** [Raises Q m]: every error [m] throws, from any editor, has a message in
    [Q]. *)
Definition Raises {A} (Q : string -> Prop) (m : M A) : Prop :=
  forall e msg e' tr, m e = Thrown msg e' tr -> Q msg.

(** [after tr r]: the result [r] of a continuation, after the operations
    [tr] emitted before it. *)
Definition after {A} (tr : list Operation) (r : Result A) : Result A :=
  match r with
  | Done a e tr' => Done a e (tr ++ tr')
  | Thrown msg e tr' => Thrown msg e (tr ++ tr')
  end.

(** The document [d] with the path reference [h] live at [p], and with it
    released. *)
Definition withPathRef (h : nat) (a : option Affinity) (p : Path) (d : Doc) : Doc :=
  {| children := children d; selection := selection d;
     pathRefs := <[h := (a, p)]> (pathRefs d);
     pointRefs := pointRefs d; rangeRefs := rangeRefs d;
     nextRef := nextRef d |}.

Definition dropPathRef (h : nat) (d : Doc) : Doc :=
  {| children := children d; selection := selection d;
     pathRefs := delete h (pathRefs d);
     pointRefs := pointRefs d; rangeRefs := rangeRefs d;
     nextRef := nextRef d |}.

(** The same for a point reference. *)
Definition withPointRef (h : nat) (a : option Affinity) (pt : Point) (d : Doc) : Doc :=
  {| children := children d; selection := selection d;
     pathRefs := pathRefs d;
     pointRefs := <[h := (a, pt)]> (pointRefs d);
     rangeRefs := rangeRefs d;
     nextRef := nextRef d |}.

Definition dropPointRef (h : nat) (d : Doc) : Doc :=
  {| children := children d; selection := selection d;
     pathRefs := pathRefs d;
     pointRefs := delete h (pointRefs d);
     rangeRefs := rangeRefs d;
     nextRef := nextRef d |}.

(** The document after a fresh handle has been handed out. *)
Definition bumpRef (d : Doc) : Doc :=
  {| children := children d; selection := selection d;
     pathRefs := pathRefs d; pointRefs := pointRefs d;
     rangeRefs := rangeRefs d;
     nextRef := S (nextRef d) |}.

(** An operation that is a [move_node] from a path other than the root. *)
Definition movesOffRoot (op : Operation) : Prop :=
  match op with
  | move_node path _ => path ≠ []
  | _ => False
  end.

(** In the words of the spec: the object that maps each name in [props] to
    null, and nothing else. *)
Definition nullProps (props : list string) : Props :=
  gset_to_gmap VNull (list_to_set props).

Definition keysOf (props : PropsArg) : list string :=
  match props with OneKey k => [k] | ManyKeys ks => ks end.

(** The requested key [k] differs on [node]: it is neither of the two
    structural keys, it is requested, and its requested value is not the
    node's current one. *)
Definition differs (props : Props) (node : Node) (k : string) : Prop :=
  k ≠ "children" /\ k ≠ "text"
  /\ exists v, props !! k = Some v /\ v ≠ NodeI.get node k.

(** What the key [k] contributes to the old and to the new properties. *)
Definition deltaOld (node : Node) (k : string) (v : Value) : option Value :=
  if bool_decide (k = "children") || bool_decide (k = "text") then None
  else if bool_decide (v ≠ NodeI.get node k) then Some (NodeI.get node k)
       else None.

Definition deltaNew (node : Node) (k : string) (v : Value) : option Value :=
  if bool_decide (k = "children") || bool_decide (k = "text") then None
  else if bool_decide (v ≠ NodeI.get node k) then Some v
       else None.

(** The operations one match contributes, as a function of the match
    alone. *)
Definition setNodesOps (props : Props) (entry : NodeEntry) : list Operation :=
  if bool_decide (length (snd entry) = 0) then []
  else if bool_decide (dom (snd (setNodesDelta props (fst entry))) ≠ ∅)
       then [set_node (snd entry) (fst (setNodesDelta props (fst entry)))
                      (snd (setNodesDelta props (fst entry)))]
       else [].

(** The editor as a transform sees it inside its batch. *)
Definition batch (e : Editor) : Editor := mkEditor (doc e) false.

(** The steps of [setNodes] between the choice of [match] and the loop
    over the matches: a Range is unhung unless [hanging] is set, and with
    [split] it is split at both edges and replaced by what its reference
    then holds. *)
Definition setLocation (E : Engine) (o : SetOptions) (at_ : Location)
    (match_ : NodeMatch) : M Location :=
  at_ ← match at_ with
         | AtRange r =>
             if negb (default false (set_hanging o))
             then query (fun d => AtRange (Editor_unhangRange E (children d) r))
             else pure at_
         | _ => pure at_
         end;
  match at_ with
  | AtRange r =>
      if default false (set_split o)
      then splitEdges E (set_at o) r match_ (default false (set_voids o))
      else pure at_
  | _ => pure at_
  end.

(** The two nodes are of different kinds: one a Text, the other an
    Element. *)
Definition kindsDiffer (node prevNode : Node) : Prop :=
  (NodeI.isText node = true /\ NodeI.isElement prevNode = true)
  \/ (NodeI.isElement node = true /\ NodeI.isText prevNode = true).

(** What [removeNodes] and the preparation of a merge emit. *)
Definition removesOnly (op : Operation) : Prop :=
  match op with remove_node _ _ => True | _ => False end.

Definition moveOrRemove (op : Operation) : Prop :=
  match op with
  | move_node _ _ | remove_node _ _ => True
  | _ => False
  end.

(** The tracked ancestor of a merge: the match of [emptyAncestorMatch] on
    the way to [path]. *)
Definition emptyAncestorOf (E : Engine) (tree : list Node) (path prevPath : Path)
    : option NodeEntry :=
  Editor_match E tree (AtPath path)
    (emptyAncestorMatch (mergeLevels E tree path (PathI.common path prevPath))) false.

(** An error other than the depth error of [liftNodes]. *)
Definition notLiftError (msg : string) : Prop := msg ≠ liftError.

(** ** Vocabulary of the further properties *)

(** The operations of the insertion loop, as a function of its
    arguments: the nodes in order, at consecutive indices. *)
Definition insertOps (parentPath : Path) (index : nat) (nodes : list Node)
    : list Operation :=
  imap (fun k node => insert_node (parentPath ++ [index + k]) node) nodes.

(** The moves go to the tracked destination: the first to [to], each later
    one to where the operations before it have shifted [to]. *)
Fixpoint trackedMoves (E : Engine) (to : Path) (ops : list Operation) : Prop :=
  match ops with
  | [] => True
  | op :: rest =>
      (exists path, op = move_node path to)
      /\ match transformPath E op (Some Forward) to with
         | Some to' => trackedMoves E to' rest
         | None => True
         end
  end.

(** What [splitNodes] emits at a Path or a Point: splits, and the
    insertion of an empty text after an inline void. *)
Definition splitsOrInserts (op : Operation) : Prop :=
  match op with
  | split_node _ _ _ _ | insert_node _ _ => True
  | _ => False
  end.

Definition insertsOnly (op : Operation) : Prop :=
  match op with insert_node _ _ => True | _ => False end.

(** A run of splits that climbs the tree: each split takes as its [target]
    the [position] of the split before it, and as its [position] the index
    after the node that split has divided. *)
Fixpoint splitChain (position : Num) (target : option Num) (ops : list Operation)
    : Prop :=
  match ops with
  | [] => True
  | op :: rest =>
      exists path i properties,
        op = split_node path position target properties
        /\ last path = Some i
        /\ splitChain (i + 1) (Some position) rest
  end.

(** The levels the loop of [splitNodes] works on: those that come, lowest
    first, before the first level above the highest match, at the root, or
    at a void, where the loop ends. *)
Fixpoint retained (E : Engine) (highestPath : Path) (voids : bool)
    (levels : list NodeEntry) : list NodeEntry :=
  match levels with
  | [] => []
  | (node, path) :: rest =>
      if bool_decide (length path < length highestPath)
         || bool_decide (length path = 0)
         || (negb voids && NodeI.isElement node && isVoid E node)
      then []
      else (node, path) :: retained E highestPath voids rest
  end.

(** What lifting and unwrapping emit: moves of nodes other than the root,
    removals, splits and insertions. *)
Definition liftsOnly (op : Operation) : Prop :=
  match op with
  | move_node path _ => path ≠ []
  | remove_node _ _ | split_node _ _ _ _ | insert_node _ _ => True
  | _ => False
  end.

(** What wrapping without splitting emits: the insertion of the wrapper
    and moves of nodes other than the root. *)
Definition wrapsOnly (op : Operation) : Prop :=
  match op with
  | move_node path _ => path ≠ []
  | insert_node _ _ => True
  | _ => False
  end.

(** What [mergeNodes] emits at a Path or a Point: moves of nodes other than
    the root, removals and the merge. *)
Definition mergesOnly (op : Operation) : Prop :=
  match op with
  | move_node path _ => path ≠ []
  | remove_node _ _ | merge_node _ _ _ _ => True
  | _ => False
  end.

(** What [setNodes] emits at a given location: the [set_node] of a node
    other than the root and, with [split], what the splits of the edges
    emit. *)
Definition setsOrSplits (op : Operation) : Prop :=
  match op with
  | set_node path _ _ => path ≠ []
  | split_node _ _ _ _ | insert_node _ _ => True
  | _ => False
  end.

(** What [wrapNodes] emits at a given location: the wrapper, the moves
    into it and, with [split], what the splits of the edges emit. *)
Definition wrapsOrSplits (op : Operation) : Prop :=
  match op with
  | move_node path _ => path ≠ []
  | split_node _ _ _ _ | insert_node _ _ => True
  | _ => False
  end.

(** ** Vocabulary of the void guard *)

(** The steps of [insertNodes] at a Point, l.75-98: the match on the path
    of the point, the reference to it, the split, and the path the reference
    then holds, or the next one when the point was at the end of the match.
    [None] when nothing matches. *)
Definition insertPoint (E : Engine) (split : SplitOptions -> M unit)
    (match_ : NodeMatch) (pt : Point) : M (option Path) :=
  atMatch ← query (fun d => Editor_match E (children d) (AtPath (path_of pt)) match_ false);
  match atMatch with
  | Some (_, matchPath) =>
      pathRef_ ← pathRef matchPath;
      isAtEnd ← query (fun d => Editor_isEnd E (children d) pt matchPath);
      split (mkSplitOptions (Some (AtPoint pt)) (Some match_) None None None);;
      path ← pathRef_unref pathRef_;
      path ← orThrow "TypeError: Cannot read property 'length' of null" path;
      at_ ← (if isAtEnd : bool
             then orThrow "Cannot get the next path of a root path" (PathI.next path)
             else pure path : M Path);
      pure (Some at_)
  | None => pure None
  end.

(** The steps of [insertNodes] at a Range, l.60-72: the range is unhung
    unless [hanging] is set, and becomes a Point: its anchor when it is
    collapsed, what a reference to its end holds after its content has been
    deleted otherwise. *)
Definition insertRange (E : Engine) (hanging : bool) (r : Range) : M Point :=
  r ← (if negb hanging
       then query (fun d => Editor_unhangRange E (children d) r)
       else pure r : M Range);
  if RangeI.isCollapsed r then pure (anchor r)
  else
    let '(_, end_) := RangeI.edges r in
    pointRef_ ← pointRef end_ (Some Forward);
    external (Editor_delete E r);;
    pt ← pointRef_unref pointRef_;
    orThrow "TypeError: Cannot read property 'length' of null" pt.

(** The steps of [insertNodes] before [Path.parent(at)], l.44-98: the
    location is defaulted, a Range becomes a Point, a Point becomes a Path.
    The result is the path the insertion is made at and whether the
    selection follows, or [None] when [insertNodes] returns for want of a
    match. *)
Definition insertLocation (E : Engine) (split : SplitOptions -> M unit)
    (node : Node) (o : InsertOptions) : M (option (Path * bool)) :=
  '(at_, select) ←
    match ins_at o with
    | Some l => pure (l, false)
    | None =>
        sel ← query selection;
        match sel with
        | Some r => pure (AtRange r, true)
        | None =>
            cs ← query children;
            if bool_decide (0 < length cs) then
              pt ← must "Cannot get the end point" (fun d => Editor_end E (children d) []);
              pure (AtPoint pt, true)
            else pure (AtPath [0], true)
        end
    end;
  at_ ←
    match at_ with
    | AtRange r => pt ← insertRange E (default false (ins_hanging o)) r; pure (AtPoint pt)
    | _ => pure at_
    end;
  match at_ with
  | AtPoint pt =>
      let match_ :=
        match ins_match o with
        | Some m => m
        | None =>
            if NodeI.isText node then MKind "text"
            else if isInline E node then MKinds ["inline"; "text"]
            else MKind "block"
        end in
      at_ ← insertPoint E split match_ pt;
      pure ((fun p => (p, select)) <$> at_)
  | AtPath p => pure (Some (p, select))
  | AtRange _ => pure None
  end.

(** The void guard of [insertNodes], l.103: the void at or above a path. *)
Definition voidAbove (E : Engine) (tree : list Node) (q : Path) : option NodeEntry :=
  Editor_match E tree (AtPath q) (MKind "void") false.

(** A path is outside every void when its parent, if it has one, is neither
    a void nor inside one. *)
Definition outsideVoids (E : Engine) (tree : list Node) (p : Path) : Prop :=
  forall q, PathI.parent p = Some q -> voidAbove E tree q = None.

(** A split or an insertion at depth [k] or deeper. *)
Definition deepOp (k : nat) (op : Operation) : Prop :=
  match op with
  | split_node q _ _ _ | insert_node q _ => k <= length q
  | _ => False
  end.

(** Modelled from the spec: what the transforms rely on, where voids are
    concerned, from the Query Engine and the Apply Engine, neither of which
    is under the transforms file.  A Point is looked up at its path; without
    [voids], [match] does not look into a void; the first void on a branch
    is at or below whatever else matches on it; a split or an insertion at
    the depth of a path or deeper keeps the length of the path and what is
    above its parent. *)
Record VoidContract (E : Engine) : Prop := {
  point_is_its_path : forall tree pt m voids,
    Editor_match E tree (AtPoint pt) m voids
    = Editor_match E tree (AtPath (path_of pt)) m voids;
  match_outside_voids : forall tree l m n p,
    Editor_match E tree l m false = Some (n, p) -> outsideVoids E tree p;
  match_above_void : forall tree l m n p vn vp,
    Editor_match E tree l m false = Some (n, p) ->
    Editor_match E tree l (MKind "void") false = Some (vn, vp) ->
    length p <= length vp;
  deep_op_keeps_outside : forall tree op a p p',
    deepOp (length p) op ->
    transformPath E op a p = Some p' ->
    outsideVoids E tree p ->
    length p' = length p /\ outsideVoids E (transformTree E op tree) p'
}.

(** What a split at a Point keeps of the path reference [h] that
    [insertNodes] holds to its match: while the batch is open, the path is
    of length [k] and outside every void. *)
Definition tracksOutside (E : Engine) (h k : nat) (e : Editor) : Prop :=
  normalizing e = false
  /\ forall a p, pathRefs (doc e) !! h = Some (a, p) ->
       length p = k /\ outsideVoids E (children (doc e)) p.

(** [Keeps I m]: [m] ends, by returning or by throwing, in an editor that
    satisfies [I] when it starts in one. *)
Definition Keeps {A} (I : Editor -> Prop) (m : M A) : Prop :=
  forall e, I e -> I (final (m e)).

(** On the reference engine: no void at or above [q], going down from
    [n]. *)
Fixpoint voidFree (n : Node) (q : Path) : bool :=
  negb (Ref.isVoid n)
  && match q with
     | [] => true
     | i :: q' =>
         match NodeI.children n !! i with
         | Some c => voidFree c q'
         | None => true
         end
     end.

(** * Example documents and runs *)

Module Examples.
Import Ref.

(** A void figure with a caption. *)
Definition captioned : list Node := [figure [Text "caption" ∅]].


(** Two paragraphs, the second in bold. *)
Definition twoParagraphs : list Node :=
  [paragraph [Text "a" ∅]; paragraph [Text "b" (props [("bold", VBool true)])]].

(** A paragraph that starts with an empty text, followed by a link. *)
Definition emptyThenLink : list Node :=
  [paragraph [Text "" ∅; link [Text "x" ∅]]].

(** An empty paragraph before a paragraph with text. *)
Definition emptyThenText : list Node :=
  [paragraph [Text "" ∅]; paragraph [Text "b" ∅]].

(** A paragraph with a text and a void figure after it. *)
Definition textThenFigure : list Node :=
  [paragraph [Text "ab" ∅; figure [Text "" ∅]]].

(** The resolution of the location of [insertNodes] for a text at a
    point of a document. *)
Definition resolveAt (tree : list Node) (pt : Point) : Result (option (Path * bool)) :=
  insertLocation engine (splitNodes engine) (Text "x" ∅)
    (mkInsertOptions (Some (AtPoint pt)) None None None) (batch (editorOf tree)).


Definition bold : Props := props [("bold", VBool true)].

(** The editor inside the batch of a merge of the two paragraphs' texts,
    after the move of the second text and after the removal of its
    paragraph. *)
Definition mergeStart : Editor := batch (editorOf twoParagraphs).

Definition mergeMoved : Editor :=
  final (moveNodes engine
           (mkMoveOptions (Some (AtPath [1; 0])) None None [0; 1] (Some false))
           (final (pathRef [1] mergeStart))).

Definition mergeCleaned : Editor :=
  final (removeNodes engine
           (mkRemoveOptions (Some (AtPath [1])) None None None (Some false))
           mergeMoved).

Definition mergeTexts : Result unit :=
  mergeNodes engine
    (mkMergeOptions (Some (AtPoint (mkPoint [1; 0] 0))) (Some (MKind "text")) None None)
    (editorOf twoParagraphs).

Definition mergeIntoEmpty : Result unit :=
  mergeNodes engine (mkMergeOptions (Some (AtPath [1])) None None None)
    (editorOf emptyThenText).

(** A paragraph nested in a paragraph, before a plain one. *)
Definition nested : list Node :=
  [paragraph [paragraph [Text "a" ∅]]; paragraph [Text "b" ∅]].

Definition liftAt (p : Path) : Result unit :=
  liftNodes engine (mkLiftOptions (Some (AtPath p)) None None None) (editorOf nested).

Definition setBoldItalic : Result unit :=
  setNodes engine (props [("bold", VBool true); ("italic", VBool true);
                          ("text", VStr "zzz")])
    (mkSetOptions (Some (AtPath [1; 0])) None None None None None)
    (editorOf twoParagraphs).

Definition mergeLink : Result unit :=
  mergeNodes engine (mkMergeOptions (Some (AtPath [0; 1])) None None None)
    (editorOf emptyThenLink).

Definition wrapTexts : Result unit :=
  wrapNodes engine (quote [Text "junk" ∅])
    (mkWrapOptions (Some (AtPath [])) (Some (MKind "text")) None None None)
    (editorOf twoParagraphs).

(** A quote of two paragraphs. *)
Definition quoted : list Node :=
  [quote [paragraph [Text "a" ∅]; paragraph [Text "b" ∅]]].

(** A paragraph before a table of one row and two cells. *)
Definition cell (c : list Node) : Node :=
  Element (props [("type", VStr "table-cell")]) c.

Definition row (c : list Node) : Node :=
  Element (props [("type", VStr "table-row")]) c.

Definition table (c : list Node) : Node :=
  Element (props [("type", VStr "table")]) c.

Definition tableDoc : list Node :=
  [paragraph [Text "a" ∅]; table [row [cell [Text "x" ∅]; cell [Text "yz" ∅]]]].

(** A document with a selection, and a collapsed selection. *)
Definition selecting (r : Range) (tree : list Node) : Editor :=
  mkEditor (mkDoc tree (Some r) ∅ ∅ ∅ 0) true.

Definition caret (p : Path) (o : nat) : Range := mkRange (mkPoint p o) (mkPoint p o).

(** The selection from the start of the first paragraph to the end of the
    second. *)
Definition acrossBoth : Range := mkRange (mkPoint [0; 0] 0) (mkPoint [1; 0] 1).

(** A wrapped [exec] that can be told apart from doing nothing. *)
Definition refuse (command : Command) : M unit := throw "exec".
End Examples.

(** * Properties *)

(** ** What a computation may emit, and what it may throw *)

Lemma bind_run {A B} (m : M A) (k : A -> M B) (e : Editor) :
  (m ≫= k) e =
  match m e with
  | Done a e1 tr1 =>
      match k a e1 with
      | Done b e2 tr2 => Done b e2 (tr1 ++ tr2)
      | Thrown msg e2 tr2 => Thrown msg e2 (tr1 ++ tr2)
      end
  | Thrown msg e1 tr1 => Thrown msg e1 tr1
  end.
Proof. reflexivity. Qed.

Lemma emitted_bind {A B} (m : M A) (k : A -> M B) (e : Editor) :
  emitted ((m ≫= k) e) =
  match m e with
  | Done a e1 tr1 => tr1 ++ emitted (k a e1)
  | Thrown _ _ tr1 => tr1
  end.
Proof. rewrite bind_run. destruct (m e) as [a e1 tr1|]; [|done]. by destruct (k a e1). Qed.

Section Emits.
Context {P : Operation -> Prop}.

Lemma Emits_bind {A B} (m : M A) (k : A -> M B) :
  Emits P m -> (forall a, Emits P (k a)) -> Emits P (m ≫= k).
Proof.
  intros Hm Hk e. rewrite emitted_bind. specialize (Hm e).
  destruct (m e) as [a e1 tr1|]; [|done].
  apply Forall_app. split; [done|apply Hk].
Qed.

Lemma Emits_query_bind {A B} (f : Doc -> A) (k : A -> M B) :
  (forall d, Emits P (k (f d))) -> Emits P (query f ≫= k).
Proof.
  intros Hk e. rewrite emitted_bind. simpl. apply Hk.
Qed.

Lemma Emits_pure {A} (a : A) : Emits P (pure a).
Proof. intros e. constructor. Qed.

Lemma Emits_throw {A} msg : Emits P (@throw A msg).
Proof. intros e. constructor. Qed.

Lemma Emits_query {A} (f : Doc -> A) : Emits P (query f).
Proof. intros e. constructor. Qed.

Lemma Emits_must {A} msg (f : Doc -> option A) : Emits P (must msg f).
Proof. intros e. unfold must. destruct (f (doc e)); constructor. Qed.

Lemma Emits_orThrow {A} msg (o : option A) : Emits P (orThrow msg o).
Proof. destruct o; [apply Emits_pure|apply Emits_throw]. Qed.

Lemma Emits_pathRef p : Emits P (pathRef p).
Proof. intros e. constructor. Qed.

Lemma Emits_pathRef_current h : Emits P (pathRef_current h).
Proof. intros e. constructor. Qed.

Lemma Emits_pathRef_unref h : Emits P (pathRef_unref h).
Proof. intros e. constructor. Qed.

Lemma Emits_pointRef pt a : Emits P (pointRef pt a).
Proof. intros e. constructor. Qed.

Lemma Emits_pointRef_current h : Emits P (pointRef_current h).
Proof. intros e. constructor. Qed.

Lemma Emits_pointRef_unref h : Emits P (pointRef_unref h).
Proof. intros e. constructor. Qed.

Lemma Emits_apply E op : P op -> Emits P (apply E op).
Proof. intros Hop e. simpl. by constructor. Qed.

Lemma Emits_forEach {A} (xs : list A) (body : A -> M unit) :
  (forall x, Emits P (body x)) -> Emits P (forEach xs body).
Proof.
  intros Hbody. induction xs as [|x xs IH]; simpl.
  - apply Emits_pure.
  - apply Emits_bind; [apply Hbody|done].
Qed.

Lemma Emits_arrayFrom {A B} (f : A -> M B) (xs : list A) :
  (forall x, Emits P (f x)) -> Emits P (arrayFrom f xs).
Proof.
  intros Hf. induction xs as [|x xs IH]; simpl.
  - apply Emits_pure.
  - apply Emits_bind; [apply Hf|]. intros y.
    apply Emits_bind; [done|]. intros ys. apply Emits_pure.
Qed.

Lemma Emits_withoutNormalizing E (fn : M unit) :
  Emits P fn -> Emits P (withoutNormalizing E fn).
Proof.
  intros Hfn e. unfold withoutNormalizing.
  specialize (Hfn (mkEditor (doc e) false)).
  by destruct (fn _).
Qed.

Lemma Emits_matchPath E p : Emits P (matchPath E p).
Proof.
  apply Emits_bind; [apply Emits_must|]. intros [n q]. apply Emits_pure.
Qed.

Lemma Emits_defaultMatch E m at_ : Emits P (defaultMatch E m at_).
Proof.
  destruct m; [apply Emits_pure|].
  destruct at_; first [apply Emits_matchPath|apply Emits_pure].
Qed.
End Emits.

Create HintDb emits.

#[global] Hint Resolve Emits_pure Emits_throw Emits_query Emits_must
  Emits_orThrow Emits_pathRef Emits_pathRef_current Emits_pathRef_unref
  Emits_pointRef Emits_pointRef_current Emits_pointRef_unref
  Emits_matchPath Emits_defaultMatch : emits.

(** The routine proof: split binds, loops, batches and case analyses, and
    close what the primitives close; goals about [apply] and about nested
    transforms are left to the caller. *)
Ltac emits :=
  lazymatch goal with
  | |- Emits _ (query _ ≫= _) => apply Emits_query_bind; intros ?; emits
  | |- Emits _ (_ ≫= _) => apply Emits_bind; [emits | intros ?; emits]
  | |- Emits _ (forEach _ _) => apply Emits_forEach; intros ?; emits
  | |- Emits _ (arrayFrom _ _) => apply Emits_arrayFrom; intros ?; emits
  | |- Emits _ (withoutNormalizing _ _) => apply Emits_withoutNormalizing; emits
  | |- Emits _ (match ?x with _ => _ end) => destruct x eqn:?; emits
  | |- _ => try solve [auto with emits]
  end.

Lemma Emits_mono {A} (P Q : Operation -> Prop) (m : M A) :
  (forall op, P op -> Q op) -> Emits P m -> Emits Q m.
Proof. intros HPQ Hm e. eapply Forall_impl; [apply Hm|done]. Qed.

(** ** Running a computation step by step *)

Lemma after_nil {A} (r : Result A) : after [] r = r.
Proof. by destruct r. Qed.

Lemma after_after {A} tr1 tr2 (r : Result A) :
  after tr1 (after tr2 r) = after (tr1 ++ tr2) r.
Proof. destruct r; simpl; by rewrite app_assoc. Qed.

Lemma emitted_after {A} tr (r : Result A) : emitted (after tr r) = tr ++ emitted r.
Proof. by destruct r. Qed.

Lemma bind_Done {A B} (m : M A) (k : A -> M B) e a e1 tr1 :
  m e = Done a e1 tr1 -> (m ≫= k) e = after tr1 (k a e1).
Proof. intros Hm. rewrite bind_run, Hm. by destruct (k a e1). Qed.

Lemma bind_Thrown {A B} (m : M A) (k : A -> M B) e msg e1 tr1 :
  m e = Thrown msg e1 tr1 -> (m ≫= k) e = Thrown msg e1 tr1.
Proof. intros Hm. by rewrite bind_run, Hm. Qed.

Lemma bind_assoc {A B C} (m : M A) (k1 : A -> M B) (k2 : B -> M C) e :
  ((m ≫= k1) ≫= k2) e = (m ≫= fun a => k1 a ≫= k2) e.
Proof.
  rewrite (bind_run (m ≫= k1)), !(bind_run m).
  destruct (m e) as [a e1 tr1|]; [|done].
  rewrite (bind_run (k1 a)).
  destruct (k1 a e1) as [b e2 tr2|]; [|done].
  destruct (k2 b e2); simpl; by rewrite app_assoc.
Qed.

Lemma pure_bind {A B} (a : A) (k : A -> M B) e : (pure a ≫= k) e = k a e.
Proof. rewrite (bind_Done _ _ e a e []) by done. apply after_nil. Qed.

Lemma throw_bind {A B} msg (k : A -> M B) e : (throw msg ≫= k) e = Thrown msg e [].
Proof. by apply bind_Thrown. Qed.

Lemma query_bind {A B} (f : Doc -> A) (k : A -> M B) e :
  (query f ≫= k) e = k (f (doc e)) e.
Proof. rewrite (bind_Done _ _ e (f (doc e)) e []) by done. apply after_nil. Qed.

Lemma must_bind {A B} msg (f : Doc -> option A) (k : A -> M B) e :
  (must msg f ≫= k) e
  = match f (doc e) with Some a => k a e | None => Thrown msg e [] end.
Proof.
  destruct (f (doc e)) as [a|] eqn:Hf.
  - rewrite (bind_Done _ _ e a e []); [apply after_nil|].
    unfold must. by rewrite Hf.
  - apply bind_Thrown. unfold must. by rewrite Hf.
Qed.

Lemma orThrow_bind {A B} msg (o : option A) (k : A -> M B) e :
  (orThrow msg o ≫= k) e
  = match o with Some a => k a e | None => Thrown msg e [] end.
Proof. destruct o; [apply pure_bind|apply throw_bind]. Qed.

Lemma pathRef_bind {B} p (k : nat -> M B) e :
  (pathRef p ≫= k) e
  = k (nextRef (doc e))
      (mkEditor (bumpRef (withPathRef (nextRef (doc e)) (Some Forward) p (doc e)))
                (normalizing e)).
Proof. rewrite (bind_Done _ _ e _ _ []) by reflexivity. apply after_nil. Qed.

Lemma pathRef_unref_bind {B} h (k : option Path -> M B) e :
  (pathRef_unref h ≫= k) e
  = k (snd <$> pathRefs (doc e) !! h)
      (mkEditor (dropPathRef h (doc e)) (normalizing e)).
Proof. rewrite (bind_Done _ _ e _ _ []) by reflexivity. apply after_nil. Qed.

Lemma pathRef_current_bind {B} h (k : option Path -> M B) e :
  (pathRef_current h ≫= k) e = k (snd <$> pathRefs (doc e) !! h) e.
Proof. apply query_bind. Qed.

Lemma pointRef_bind {B} pt a (k : nat -> M B) e :
  (pointRef pt a ≫= k) e
  = k (nextRef (doc e))
      (mkEditor (bumpRef (withPointRef (nextRef (doc e)) a pt (doc e)))
                (normalizing e)).
Proof. rewrite (bind_Done _ _ e _ _ []) by reflexivity. apply after_nil. Qed.

Lemma pointRef_unref_bind {B} h (k : option Point -> M B) e :
  (pointRef_unref h ≫= k) e
  = k (snd <$> pointRefs (doc e) !! h)
      (mkEditor (dropPointRef h (doc e)) (normalizing e)).
Proof. rewrite (bind_Done _ _ e _ _ []) by reflexivity. apply after_nil. Qed.

Lemma pointRef_current_bind {B} h (k : option Point -> M B) e :
  (pointRef_current h ≫= k) e = k (snd <$> pointRefs (doc e) !! h) e.
Proof. apply query_bind. Qed.

Lemma emitted_withoutNormalizing E (fn : M unit) e :
  emitted (withoutNormalizing E fn e) = emitted (fn (batch e)).
Proof. unfold withoutNormalizing, batch. by destruct (fn _). Qed.

Lemma apply_bind {B} E op (k : unit -> M B) e :
  (apply E op ≫= k) e
  = after [op] (k tt (normalize E (mkEditor (applyDoc E op (doc e)) (normalizing e)))).
Proof. by apply bind_Done. Qed.

Lemma external_bind {B} (f : Doc -> Doc * list Operation) (k : unit -> M B) e :
  (external f ≫= k) e
  = after (snd (f (doc e))) (k tt (mkEditor (fst (f (doc e))) (normalizing e))).
Proof. apply bind_Done. unfold external. by destruct (f (doc e)). Qed.

(** ** moveNodes never relocates the root *)

Lemma Emits_moveEntry E toRef h : Emits movesOffRoot (moveEntry E toRef h).
Proof.
  unfold moveEntry. emits.
  apply Emits_apply. simpl. by destruct a1.
Qed.

Lemma Emits_moveNodes E o : Emits movesOffRoot (moveNodes E o).
Proof.
  unfold moveNodes. emits. apply Emits_moveEntry.
Qed.

(** C10.  Every operation [moveNodes] emits is a [move_node] whose source is
    not the root path; and a reference that resolves to the root path is
    passed over: its turn of the loop ends normally, releases the reference
    and emits nothing. *)
Theorem moveNodes_never_moves_root (E : Engine) (o : MoveOptions) (e : Editor) :
  Forall movesOffRoot (emitted (moveNodes E o e))
  /\ forall toRef h a d n,
       moveEntry E toRef h (mkEditor (withPathRef h a [] d) n)
       = Done tt (mkEditor (dropPathRef h (withPathRef h a [] d)) n) [].
Proof.
  split; [apply Emits_moveNodes|].
  intros toRef h a d n. unfold moveEntry.
  rewrite !bind_run. simpl. by rewrite lookup_insert_eq.
Qed.

(** ** unsetNodes is setNodes with nulls *)

Lemma unsetObj_foldl (props : list string) (acc : Props) :
  foldl (fun obj key => <[key := VNull]> obj) acc props
  = nullProps props ∪ acc.
Proof.
  revert acc. induction props as [|k props IH]; intros acc; simpl.
  - unfold nullProps. simpl. rewrite gset_to_gmap_empty. symmetry. apply map_empty_union.
  - rewrite IH. unfold nullProps. simpl.
    apply map_eq. intros i.
    rewrite !lookup_union, !lookup_gset_to_gmap.
    destruct (decide (i = k)) as [->|Hne].
    + rewrite lookup_insert_eq.
      repeat case_guard; destruct (acc !! k); try done; set_solver.
    + rewrite lookup_insert_ne by done.
      repeat case_guard; destruct (acc !! i); try done; set_solver.
Qed.

Lemma unsetObj_nullProps (props : list string) : unsetObj props = nullProps props.
Proof.
  unfold unsetObj. rewrite unsetObj_foldl. apply map_union_empty.
Qed.

(** C9.  [unsetNodes(editor, props, options)] runs exactly as
    [setNodes(editor, obj, options)] for the object [obj] that maps each name
    in [props] to null: from any editor the two end in the same editor, with
    the same outcome and the same sequence of operations. *)
Theorem unsetNodes_is_setNodes_null (E : Engine) (props : PropsArg)
    (o : UnsetOptions) (e : Editor) :
  unsetNodes E props o e = setNodes E (nullProps (keysOf props)) (unsetToSet o) e.
Proof.
  unfold unsetNodes. rewrite <- unsetObj_nullProps. by destruct props.
Qed.

(** ** setNodes emits the property delta of every match *)

Lemma setNodesDelta_lookup (props : Props) (node : Node) (k : string) :
  fst (setNodesDelta props node) !! k = props !! k ≫= deltaOld node k
  /\ snd (setNodesDelta props node) !! k = props !! k ≫= deltaNew node k.
Proof.
  unfold setNodesDelta. revert k.
  apply (map_fold_weak_ind
           (fun (r : Props * Props) (m : Props) =>
              forall k, fst r !! k = m !! k ≫= deltaOld node k
                        /\ snd r !! k = m !! k ≫= deltaNew node k)).
  - intros k. simpl. by rewrite !lookup_empty.
  - intros i x m [old new] Hi IH k. specialize (IH k). simpl in IH.
    destruct IH as [IHo IHn].
    unfold setNodesStep, deltaOld, deltaNew in *.
    destruct (decide (k = i)) as [->|Hne].
    + rewrite lookup_insert_eq. rewrite Hi in IHo, IHn. simpl in *.
      destruct (bool_decide (i = "children") || bool_decide (i = "text")); [done|].
      destruct (bool_decide (x ≠ NodeI.get node i)); simpl; [|done].
      by rewrite !lookup_insert_eq.
    + rewrite lookup_insert_ne by done.
      destruct (bool_decide (i = "children") || bool_decide (i = "text")); [done|].
      destruct (bool_decide (x ≠ NodeI.get node i)); simpl; [|done].
      by rewrite !lookup_insert_ne.
Qed.

Lemma deltaOld_Some node k v old :
  deltaOld node k v = Some old
  <-> k ≠ "children" /\ k ≠ "text" /\ v ≠ NodeI.get node k /\ old = NodeI.get node k.
Proof.
  unfold deltaOld. repeat case_bool_decide; simpl; naive_solver.
Qed.

Lemma deltaNew_Some node k v new :
  deltaNew node k v = Some new
  <-> k ≠ "children" /\ k ≠ "text" /\ v ≠ NodeI.get node k /\ new = v.
Proof.
  unfold deltaNew. repeat case_bool_decide; simpl; naive_solver.
Qed.

Lemma setNodesDelta_old (props : Props) (node : Node) (k : string) (old : Value) :
  fst (setNodesDelta props node) !! k = Some old
  <-> differs props node k /\ old = NodeI.get node k.
Proof.
  rewrite (proj1 (setNodesDelta_lookup props node k)). unfold differs.
  destruct (props !! k) as [v|]; simpl.
  - rewrite deltaOld_Some. naive_solver.
  - naive_solver.
Qed.

Lemma setNodesDelta_new (props : Props) (node : Node) (k : string) (v : Value) :
  snd (setNodesDelta props node) !! k = Some v
  <-> differs props node k /\ props !! k = Some v.
Proof.
  rewrite (proj2 (setNodesDelta_lookup props node k)). unfold differs.
  destruct (props !! k) as [w|]; simpl.
  - rewrite deltaNew_Some. naive_solver.
  - naive_solver.
Qed.

Lemma setNodesDelta_new_empty (props : Props) (node : Node) :
  dom (snd (setNodesDelta props node)) = ∅ <-> ~ exists k, differs props node k.
Proof.
  rewrite dom_empty_iff_L. split.
  - intros Hempty [k Hk].
    destruct Hk as (Hc & Ht & v & Hv & Hne).
    assert (snd (setNodesDelta props node) !! k = Some v) as Hs.
    { apply setNodesDelta_new. unfold differs. naive_solver. }
    rewrite Hempty, lookup_empty in Hs. done.
  - intros Hnone. apply map_eq. intros k. rewrite lookup_empty.
    destruct (snd (setNodesDelta props node) !! k) as [v|] eqn:Hk; [|done].
    apply setNodesDelta_new in Hk. naive_solver.
Qed.

Lemma setNodesEntry_run E props entry e :
  exists e', setNodesEntry E props entry e = Done tt e' (setNodesOps props entry).
Proof.
  destruct entry as [node path]. unfold setNodesEntry, setNodesOps. simpl.
  case_bool_decide; [by eexists|].
  destruct (setNodesDelta props node) as [old new]. simpl.
  case_bool_decide; by eexists.
Qed.

Lemma setNodes_loop_emitted E props entries e :
  emitted (forEach entries (setNodesEntry E props) e)
  = flat_map (setNodesOps props) entries.
Proof.
  revert e. induction entries as [|entry entries IH]; intros e; [done|].
  simpl. rewrite emitted_bind.
  destruct (setNodesEntry_run E props entry e) as [e' ->].
  by rewrite IH.
Qed.

(** [setNodes] at a location that is not a Range emits what its loop over
    the matches emits. *)
Lemma setNodes_no_range E props o e at_ m :
  atOrSelection (set_at o) (doc e) = Some at_ ->
  (forall r, at_ ≠ AtRange r) ->
  defaultMatch E (set_match o) at_ (batch e) = Done m (batch e) [] ->
  emitted (setNodes E props o e)
  = flat_map (setNodesOps props)
      (Editor_nodes E (children (doc e)) at_ m (default ModeHighest (set_mode o))
         (default false (set_voids o))).
Proof.
  intros Hat Hrange Hmatch. unfold setNodes.
  rewrite emitted_withoutNormalizing.
  rewrite query_bind. simpl. rewrite Hat.
  erewrite bind_Done by exact Hmatch. rewrite after_nil.
  destruct at_ as [p|pt|r]; [| |by destruct (Hrange r)];
    rewrite !pure_bind, query_bind; apply setNodes_loop_emitted.
Qed.

(** [setNodes] at any location: what the settling of the location emits,
    then what the loop emits over the matches found once it is settled. *)
Lemma setNodes_any_location E props o e at_ m :
  atOrSelection (set_at o) (doc e) = Some at_ ->
  defaultMatch E (set_match o) at_ (batch e) = Done m (batch e) [] ->
  emitted (setNodes E props o e)
  = match setLocation E o at_ m (batch e) with
    | Done at' e1 tr1 =>
        tr1 ++ flat_map (setNodesOps props)
                 (Editor_nodes E (children (doc e1)) at' m
                    (default ModeHighest (set_mode o)) (default false (set_voids o)))
    | Thrown _ _ tr1 => tr1
    end.
Proof.
  intros Hat Hmatch. unfold setNodes.
  rewrite emitted_withoutNormalizing.
  rewrite query_bind. simpl. rewrite Hat.
  erewrite bind_Done by exact Hmatch. rewrite after_nil.
  rewrite <- bind_assoc. fold (setLocation E o at_ m).
  rewrite emitted_bind.
  destruct (setLocation E o at_ m (batch e)) as [at' e1 tr1|]; [|done].
  by rewrite query_bind, setNodes_loop_emitted.
Qed.

Lemma setLocation_no_range E o at_ m e :
  (forall r, at_ ≠ AtRange r) -> setLocation E o at_ m e = Done at_ e [].
Proof.
  intros Hr. unfold setLocation.
  destruct at_ as [p|pt|r]; [| |by destruct (Hr r)]; by rewrite pure_bind.
Qed.

Lemma setLocation_range E o r m e :
  setLocation E o (AtRange r) m e
  = let r' := if default false (set_hanging o) then r
              else Editor_unhangRange E (children (doc e)) r in
    if default false (set_split o)
    then splitEdges E (set_at o) r' m (default false (set_voids o)) e
    else Done (AtRange r') e [].
Proof.
  unfold setLocation.
  destruct (default false (set_hanging o)); simpl;
    [rewrite pure_bind|rewrite query_bind];
    by destruct (default false (set_split o)).
Qed.

(** C7.  For every match [(node, path)] of [setNodes]: on the root path
    nothing is emitted; elsewhere one [set_node] is emitted when some
    requested key other than [children] and [text] differs from the node's
    value, and nothing when none does; the operation's [properties] hold
    exactly the differing keys with the node's old values and its
    [newProperties] exactly the differing keys with the requested values;
    the loop over the matches emits the operations of each match, in order,
    whatever the editor; and at a Path or Point location these are all the
    operations of [setNodes].  At every location, a Range and the selection
    included, [setNodes] emits what the settling of the location emits,
    followed by the operations of each match found at the settled location:
    the settling emits nothing and changes nothing, apart from unhanging a
    Range, unless [split] is set on a Range, where it is the splitting of
    the two edges. *)
Theorem setNodes_emits_delta (E : Engine) (props : Props) (node : Node)
    (path : Path) (e : Editor) :
  let properties := fst (setNodesDelta props node) in
  let newProperties := snd (setNodesDelta props node) in
  (path = [] -> emitted (setNodesEntry E props (node, path) e) = [])
  /\ (path ≠ [] -> (exists k, differs props node k) ->
      emitted (setNodesEntry E props (node, path) e)
      = [set_node path properties newProperties])
  /\ (~ (exists k, differs props node k) ->
      emitted (setNodesEntry E props (node, path) e) = [])
  /\ (forall k old, properties !! k = Some old
                    <-> differs props node k /\ old = NodeI.get node k)
  /\ (forall k v, newProperties !! k = Some v
                  <-> differs props node k /\ props !! k = Some v)
  /\ (forall entries e0,
        emitted (forEach entries (setNodesEntry E props) e0)
        = flat_map (fun entry => emitted (setNodesEntry E props entry e)) entries)
  /\ (forall o e0 at_ m,
        atOrSelection (set_at o) (doc e0) = Some at_ ->
        (forall r, at_ ≠ AtRange r) ->
        defaultMatch E (set_match o) at_ (batch e0) = Done m (batch e0) [] ->
        emitted (setNodes E props o e0)
        = flat_map (fun entry => emitted (setNodesEntry E props entry e))
            (Editor_nodes E (children (doc e0)) at_ m
               (default ModeHighest (set_mode o)) (default false (set_voids o))))
  /\ (forall o e0 at_ m,
        atOrSelection (set_at o) (doc e0) = Some at_ ->
        defaultMatch E (set_match o) at_ (batch e0) = Done m (batch e0) [] ->
        emitted (setNodes E props o e0)
        = match setLocation E o at_ m (batch e0) with
          | Done at' e1 tr1 =>
              tr1 ++ flat_map (fun entry => emitted (setNodesEntry E props entry e))
                       (Editor_nodes E (children (doc e1)) at' m
                          (default ModeHighest (set_mode o))
                          (default false (set_voids o)))
          | Thrown _ _ tr1 => tr1
          end)
  /\ (forall o r m e0,
        setLocation E o (AtRange r) m e0
        = let r' := if default false (set_hanging o) then r
                    else Editor_unhangRange E (children (doc e0)) r in
          if default false (set_split o)
          then splitEdges E (set_at o) r' m (default false (set_voids o)) e0
          else Done (AtRange r') e0 [])
  /\ (forall o e0,
        atOrSelection (set_at o) (doc e0) = None ->
        emitted (setNodes E props o e0) = [])
  /\ (forall o e0 at_ msg e1 tr,
        atOrSelection (set_at o) (doc e0) = Some at_ ->
        defaultMatch E (set_match o) at_ (batch e0) = Thrown msg e1 tr ->
        emitted (setNodes E props o e0) = []).
Proof.
  intros properties newProperties.
  assert (forall entry e1, emitted (setNodesEntry E props entry e1)
                           = setNodesOps props entry) as Hops.
  { intros entry e1. by destruct (setNodesEntry_run E props entry e1) as [e' ->]. }
  assert (forall entries,
            flat_map (fun entry => emitted (setNodesEntry E props entry e)) entries
            = flat_map (setNodesOps props) entries) as Hflat.
  { induction entries as [|entry entries IH]; [done|]. simpl. by rewrite Hops, IH. }
  split_and!.
  - intros ->. by rewrite Hops.
  - intros Hpath Hk. rewrite Hops. unfold setNodesOps. simpl.
    rewrite bool_decide_eq_false_2 by (by destruct path).
    rewrite bool_decide_eq_true_2; [done|].
    rewrite setNodesDelta_new_empty. tauto.
  - intros Hk. rewrite Hops. unfold setNodesOps. simpl.
    case_bool_decide; [done|].
    rewrite bool_decide_eq_false_2; [done|].
    rewrite setNodesDelta_new_empty. tauto.
  - apply setNodesDelta_old.
  - apply setNodesDelta_new.
  - intros entries e0. by rewrite setNodes_loop_emitted, Hflat.
  - intros o e0 at_ m Hat Hrange Hmatch. rewrite Hflat.
    by apply setNodes_no_range.
  - intros o e0 at_ m Hat Hmatch.
    rewrite (setNodes_any_location E props o e0 at_ m) by done.
    destruct (setLocation E o at_ m (batch e0)) as [at' e1 tr1|]; [|done].
    by rewrite Hflat.
  - intros o r m e0. apply setLocation_range.
  - intros o e0 Hat. unfold setNodes. rewrite emitted_withoutNormalizing.
    rewrite query_bind. simpl. by rewrite Hat.
  - intros o e0 at_ msg e1 tr Hat Hmatch. unfold setNodes.
    rewrite emitted_withoutNormalizing.
    rewrite query_bind. simpl. rewrite Hat.
    erewrite bind_Thrown by exact Hmatch. simpl.
    pose proof (Emits_defaultMatch (P := fun _ => False) E (set_match o) at_ (batch e0))
      as Hnone.
    rewrite Hmatch in Hnone. simpl in Hnone. by destruct Hnone.
Qed.

(** ** Paths *)

Lemma removelast_snoc_last (p : Path) (i : nat) :
  last p = Some i -> removelast p ++ [i] = p.
Proof.
  destruct p as [|x p _] using rev_ind; [done|].
  rewrite last_snoc. intros [= ->]. by rewrite removelast_last.
Qed.

Lemma parent_Some (p q : Path) :
  PathI.parent p = Some q -> p ≠ [] /\ q = removelast p.
Proof. destruct p; [done|]. by intros [= <-]. Qed.

Lemma next_length (p q : Path) : PathI.next p = Some q -> length q = length p.
Proof.
  unfold PathI.next. destruct (last p) as [i|] eqn:Hlast; [|done].
  intros [= <-]. rewrite <- (removelast_snoc_last p i Hlast) at 2.
  by rewrite !length_app.
Qed.

(** ** insertNodes and the void guard *)

Lemma normalize_eta E (e : Editor) :
  normalize E (mkEditor (doc e) (normalizing e)) = normalize E e.
Proof. by destruct e. Qed.

Lemma insertAtPath_guarded E nodes select p parentPath entry e :
  PathI.parent p = Some parentPath ->
  Editor_match E (children (doc e)) (AtPath parentPath) (MKind "void") false = Some entry ->
  insertAtPath E nodes false select p e = Done tt e [].
Proof.
  intros Hparent Hvoid. unfold insertAtPath.
  rewrite Hparent, orThrow_bind.
  destruct (last p) as [i|] eqn:Hlast.
  - rewrite orThrow_bind, query_bind, Hvoid. done.
  - destruct p; [done|]. by apply last_None in Hlast.
Qed.

(** For a Path location [insertNodes] never reaches [Editor.splitNodes]:
    it runs the same whatever stands for the split, which is what lets
    [splitNodes] call it before the knot is tied. *)
Lemma insertNodes_path_agrees E split nodes o p e :
  ins_at o = Some (AtPath p) ->
  insertNodes_with E split nodes o e = insertNodes_path E nodes o e.
Proof.
  intros Hat. unfold insertNodes_path, insertNodes_with, withoutNormalizing.
  rewrite Hat. destruct (asArray nodes) as [|node rest]; [done|].
  by rewrite !pure_bind.
Qed.

(** When the location is a Path whose parent is inside a void and [voids]
    is not set, [insertNodes] emits no operation and returns the editor it
    was given, after the closing of the batch, whatever the nodes; and once
    a location has been resolved to a path whose parent is inside a void,
    the rest of [insertNodes] emits nothing and leaves the editor as the
    resolution left it. *)
Lemma insertNodes_void_guard_path (E : Engine) (nodes : NodeArg)
    (o : InsertOptions) (p parentPath : Path) (entry : NodeEntry) (e : Editor) :
  ins_at o = Some (AtPath p) ->
  default false (ins_voids o) = false ->
  PathI.parent p = Some parentPath ->
  Editor_match E (children (doc e)) (AtPath parentPath) (MKind "void") false = Some entry ->
  insertNodes E nodes o e = Done tt (normalize E e) []
  /\ (forall ns select q qParent entry' e',
        PathI.parent q = Some qParent ->
        Editor_match E (children (doc e')) (AtPath qParent) (MKind "void") false
          = Some entry' ->
        insertAtPath E ns false select q e' = Done tt e' []).
Proof.
  intros Hat Hvoids Hparent Hvoid. split.
  - unfold insertNodes, insertNodes_with, withoutNormalizing.
    rewrite Hat, Hvoids.
    destruct (asArray nodes) as [|node rest] eqn:Hnodes.
    + simpl. by rewrite normalize_eta.
    + rewrite !pure_bind.
      rewrite (insertAtPath_guarded E _ false p parentPath entry) by done.
      simpl. by rewrite normalize_eta.
  - intros ns select q qParent entry' e' Hq Hguard.
    by eapply insertAtPath_guarded.
Qed.

(** ** insertNodes and the void guard, at every location *)

Lemma bind_ext {A B} (m : M A) (k1 k2 : A -> M B) e :
  (forall a e', k1 a e' = k2 a e') -> (m ≫= k1) e = (m ≫= k2) e.
Proof.
  intros Hk. rewrite !bind_run. destruct (m e) as [a e1 tr1|]; [|done].
  by rewrite Hk.
Qed.

(** [insertNodes] is the resolution of its location followed by the guarded
    insertion. *)
Lemma insertNodes_with_location E split nodes o e :
  insertNodes_with E split nodes o e
  = withoutNormalizing E
      (match asArray nodes with
       | [] => pure tt
       | node :: _ =>
           at_ ← insertLocation E split node o;
           match at_ with
           | Some (p, select) =>
               insertAtPath E (asArray nodes) (default false (ins_voids o)) select p
           | None => pure tt
           end
       end) e.
Proof.
  unfold insertNodes_with, withoutNormalizing.
  match goal with
  | |- match ?f ?x with _ => _ end = match ?g ?x with _ => _ end =>
      assert (forall e', f e' = g e') as Heq; [|by rewrite Heq]
  end.
  intros e'. destruct (asArray nodes) as [|node rest]; [done|].
  unfold insertLocation. rewrite !bind_assoc.
  apply bind_ext. intros [at_ select] e1. rewrite bind_assoc.
  match goal with
  | |- (_ ≫= ?f) _ = (_ ≫= ?g) _ => set (kl := f); set (kr := g)
  end.
  assert (forall a e0, kl a e0 = kr a e0) as HK.
  { intros [p|pt|r] e0; unfold kl, kr.
    - by rewrite !pure_bind.
    - rewrite bind_assoc. unfold insertPoint. rewrite bind_assoc.
      apply bind_ext. intros [[n matchPath]|] e2; [|by rewrite !pure_bind].
      rewrite !bind_assoc. apply bind_ext. intros h e3.
      rewrite !bind_assoc. apply bind_ext. intros isAtEnd e4.
      rewrite !bind_assoc. apply bind_ext. intros [] e5.
      rewrite !bind_assoc. apply bind_ext. intros path e6.
      rewrite !bind_assoc. apply bind_ext. intros path' e7.
      rewrite !bind_assoc. apply bind_ext. intros at' e8.
      by rewrite !pure_bind.
    - by rewrite !pure_bind. }
  clearbody kl kr.
  destruct at_ as [p|pt|r]; [rewrite !pure_bind; apply HK..|].
  - unfold insertRange. rewrite !bind_assoc.
    apply bind_ext. intros r' e2.
    destruct (RangeI.isCollapsed r').
    + rewrite !pure_bind; apply HK.
    + destruct (RangeI.edges r') as [start end_].
      rewrite !bind_assoc. apply bind_ext. intros h e3.
      rewrite !bind_assoc. apply bind_ext. intros [] e4.
      rewrite !bind_assoc. apply bind_ext. intros pt e5.
      rewrite !bind_assoc. apply bind_ext. intros pt' e6.
      rewrite !pure_bind; apply HK.
Qed.

Lemma insertLocation_path E split node o p e :
  ins_at o = Some (AtPath p) ->
  insertLocation E split node o e = Done (Some (p, false)) e [].
Proof.
  intros Hat. unfold insertLocation. rewrite Hat, pure_bind. by rewrite pure_bind.
Qed.

(** *** What a computation keeps *)

Section Keeps.
Context {I : Editor -> Prop}.

Lemma Keeps_pure {A} (a : A) : Keeps I (pure a).
Proof. by intros e He. Qed.

Lemma Keeps_throw {A} msg : Keeps I (throw (A := A) msg).
Proof. by intros e He. Qed.

Lemma Keeps_query {A} (f : Doc -> A) : Keeps I (query f).
Proof. by intros e He. Qed.

Lemma Keeps_must {A} msg (f : Doc -> option A) : Keeps I (must msg f).
Proof. intros e He. unfold must. by destruct (f (doc e)). Qed.

Lemma Keeps_orThrow {A} msg (o : option A) : Keeps I (orThrow msg o).
Proof. destruct o; [apply Keeps_pure|apply Keeps_throw]. Qed.

Lemma Keeps_bind {A B} (m : M A) (k : A -> M B) :
  Keeps I m -> (forall a, Keeps I (k a)) -> Keeps I (m ≫= k).
Proof.
  intros Hm Hk e He. specialize (Hm e He). rewrite bind_run.
  destruct (m e) as [a e1 tr1|]; [|done].
  specialize (Hk a e1 Hm). by destruct (k a e1).
Qed.

Lemma Keeps_query_bind {A B} (f : Doc -> A) (k : A -> M B) :
  (forall a, Keeps I (k a)) -> Keeps I (query f ≫= k).
Proof. intros Hk. apply Keeps_bind; [apply Keeps_query|done]. Qed.

Lemma Keeps_orThrow_bind {A B} msg (o : option A) (k : A -> M B) :
  (forall a, o = Some a -> Keeps I (k a)) -> Keeps I (orThrow msg o ≫= k).
Proof.
  intros Hk e He. rewrite orThrow_bind. destruct o as [a|]; [|done].
  by apply Hk.
Qed.
End Keeps.

Create HintDb keeps.

#[global] Hint Resolve Keeps_pure Keeps_throw Keeps_query Keeps_must
  Keeps_orThrow : keeps.

(** The routine proof, as for [Emits]; what an [orThrow] unwraps is kept as
    an equation. *)
Ltac keeps :=
  lazymatch goal with
  | |- Keeps _ (query _ ≫= _) => apply Keeps_query_bind; intros ?; keeps
  | |- Keeps _ (orThrow _ _ ≫= _) => apply Keeps_orThrow_bind; intros ? ?; keeps
  | |- Keeps _ (_ ≫= _) => apply Keeps_bind; [keeps | intros ?; keeps]
  | |- Keeps _ (match ?x with _ => _ end) => destruct x eqn:?; keeps
  | |- _ => try solve [auto with keeps]
  end.

(** *** The path reference of insertNodes through the split *)

Section Tracks.
Context (E : Engine) (h k : nat).

Lemma tracksOutside_doc e e' :
  tracksOutside E h k e ->
  normalizing e' = false ->
  pathRefs (doc e') = pathRefs (doc e) ->
  children (doc e') = children (doc e) ->
  tracksOutside E h k e'.
Proof.
  intros [_ He] Hflag Hrefs Htree. split; [done|].
  rewrite Hrefs, Htree. apply He.
Qed.

Lemma Keeps_pointRef pt a : Keeps (tracksOutside E h k) (pointRef pt a).
Proof. intros e He. by eapply tracksOutside_doc; [done|apply He|..]. Qed.

Lemma Keeps_pointRef_current r : Keeps (tracksOutside E h k) (pointRef_current r).
Proof. apply Keeps_query. Qed.

Lemma Keeps_pointRef_unref r : Keeps (tracksOutside E h k) (pointRef_unref r).
Proof. intros e He. by eapply tracksOutside_doc; [done|apply He|..]. Qed.

Lemma Keeps_apply op :
  VoidContract E -> deepOp k op -> Keeps (tracksOutside E h k) (apply E op).
Proof.
  intros HC Hop e [Hflag He]. unfold apply, normalize. simpl. rewrite Hflag.
  split; [done|]. simpl. intros a p'. unfold transformRefs.
  rewrite lookup_omap. destruct (pathRefs (doc e) !! h) as [[a0 p]|] eqn:Hh; [|done].
  simpl. destruct (transformPath E op a0 p) as [p0|] eqn:Hp; [|done].
  simpl. intros [= <- <-].
  destruct (He a0 p eq_refl) as [Hlen Hout].
  destruct (deep_op_keeps_outside E HC (children (doc e)) op a0 p p0) as [Hlen' Hout'];
    [by rewrite Hlen|done|done|].
  split; [lia|done].
Qed.

Lemma Keeps_withoutNormalizing fn :
  Keeps (tracksOutside E h k) fn ->
  Keeps (tracksOutside E h k) (withoutNormalizing E fn).
Proof.
  intros Hfn e He. unfold withoutNormalizing.
  assert (tracksOutside E h k (mkEditor (doc e) false)) as He'.
  { by eapply tracksOutside_doc. }
  specialize (Hfn _ He'). destruct He as [Hflag _].
  destruct (fn _) as [[] e1 tr1|]; [|done]. simpl in *.
  unfold normalize. simpl. rewrite Hflag.
  by eapply tracksOutside_doc; [exact Hfn|..].
Qed.
End Tracks.

#[global] Hint Resolve Keeps_pointRef Keeps_pointRef_current
  Keeps_pointRef_unref : keeps.

Section Split.
Context (E : Engine) (HC : VoidContract E) (h k : nat).

Lemma Keeps_insertAtPath nodes voids p :
  k <= length p -> length nodes <= 1 ->
  Keeps (tracksOutside E h k) (insertAtPath E nodes voids false p).
Proof using HC.
  intros Hk Hone. unfold insertAtPath.
  apply Keeps_orThrow_bind. intros parentPath Hparent.
  apply Keeps_orThrow_bind. intros i Hlast.
  apply Keeps_query_bind. intros guard.
  destruct (negb voids && bool_decide (is_Some guard)); [apply Keeps_pure|].
  apply Keeps_bind; [|intros []; apply Keeps_pure].
  apply parent_Some in Hparent as [_ ->].
  destruct nodes as [|node [|? ?]]; simpl in *; [apply Keeps_pure| |lia].
  apply Keeps_bind; [|intros []; apply Keeps_pure].
  apply Keeps_apply; [done|]. simpl.
  by rewrite (removelast_snoc_last p i Hlast).
Qed.

Lemma Keeps_insertNodes_path node p m hg v :
  k <= length p ->
  Keeps (tracksOutside E h k)
    (insertNodes_path E (One node) (mkInsertOptions (Some (AtPath p)) m hg v)).
Proof using HC.
  intros Hk e He.
  rewrite <- (insertNodes_path_agrees E (fun _ => pure tt) _ _ p) by done.
  rewrite insertNodes_with_location. revert e He.
  apply Keeps_withoutNormalizing. simpl.
  intros e He.
  erewrite bind_Done by (by apply insertLocation_path). rewrite after_nil.
  by apply Keeps_insertAtPath.
Qed.

Lemma Keeps_splitLoop levels highestPath always voids beforeRef position target :
  k <= length highestPath ->
  Keeps (tracksOutside E h k)
    (splitLoop E levels highestPath always voids beforeRef position target).
Proof using HC.
  intros Hk. revert position target.
  induction levels as [|[node path] rest IH]; intros position target; simpl.
  { apply Keeps_pure. }
  destruct (bool_decide (length path < length highestPath)) eqn:Hlt;
    [apply Keeps_pure|].
  apply bool_decide_eq_false in Hlt. simpl.
  destruct (bool_decide (length path = 0)
            || negb voids && NodeI.isElement node && isVoid E node);
    [apply Keeps_pure|].
  keeps; try apply IH. apply Keeps_apply; [done|]. simpl. lia.
Qed.

Lemma splitPoint_tracks l pt match_ height always n highestPath e :
  tracksOutside E h k e ->
  Editor_match E (children (doc e)) (AtPoint pt) match_ false = Some (n, highestPath) ->
  k <= length highestPath ->
  tracksOutside E h k (final (splitPoint E (Some l) false pt match_ height always e)).
Proof using HC.
  intros He Hhighest Hk. unfold splitPoint.
  rewrite pointRef_bind, query_bind. simpl. rewrite Hhighest, query_bind. simpl.
  assert (forall vn vp,
            Editor_match E (children (doc e)) (AtPoint pt) (MKind "void") false
              = Some (vn, vp) -> k <= length vp) as Hvoid.
  { intros vn vp Hv.
    pose proof (match_above_void E HC _ _ _ _ _ _ _ Hhighest Hv). lia. }

  match goal with
  | |- tracksOutside _ _ _ (final (?m ?e0)) =>
      assert (Keeps (tracksOutside E h k) m) as HK;
        [|apply HK; eapply tracksOutside_doc; [exact He|apply He|done|done]]
  end.
  destruct (Editor_match E (children (doc e)) (AtPoint pt) (MKind "void") false)
    as [[vn vp]|] eqn:Hv.
  - specialize (Hvoid vn vp eq_refl). keeps.
    + apply Keeps_insertNodes_path.
      match goal with
      | Hn : PathI.next vp = Some _ |- _ => rewrite (next_length _ _ Hn)
      end. done.
    + by apply Keeps_splitLoop.
  - keeps. by apply Keeps_splitLoop.
Qed.

Lemma splitNodes_tracks pt match_ n highestPath e :
  tracksOutside E h k e ->
  Editor_match E (children (doc e)) (AtPoint pt) match_ false = Some (n, highestPath) ->
  k <= length highestPath ->
  tracksOutside E h k
    (final (splitNodes E (mkSplitOptions (Some (AtPoint pt)) (Some match_) None None None) e)).
Proof using HC.
  intros He Hhighest Hk. unfold splitNodes, withoutNormalizing.
  rewrite query_bind. simpl. rewrite !pure_bind.
  pose proof (splitPoint_tracks (AtPoint pt) pt match_ 0 false n highestPath
                (mkEditor (doc e) false)) as Hsplit.
  destruct He as [Hflag He].
  specialize (Hsplit (conj eq_refl He) Hhighest Hk).
  destruct (splitPoint _ _ _ _ _ _ _ _) as [[] e1 tr1|]; [|done].
  simpl in *. unfold normalize. simpl. rewrite Hflag.
  by eapply tracksOutside_doc; [exact Hsplit|..].
Qed.
End Split.

Lemma parent_next (p q : Path) :
  PathI.next p = Some q -> PathI.parent q = PathI.parent p.
Proof.
  unfold PathI.next. destruct (last p) as [i|] eqn:Hlast; [|done].
  intros [= <-]. rewrite <- (removelast_snoc_last p i Hlast) at 2.
  unfold PathI.parent.
  destruct (removelast p ++ [S i]) eqn:H1; [by destruct (removelast p)|].
  destruct (removelast p ++ [i]) eqn:H2; [by destruct (removelast p)|].
  rewrite <- H1, <- H2. by rewrite !removelast_last.
Qed.

(** At a Point, the path [insertNodes] resolves to is outside every void:
    the match it splits at is, and the split keeps it so. *)
Lemma insertPoint_outside E match_ pt e p e1 tr1 :
  VoidContract E ->
  normalizing e = false ->
  insertPoint E (splitNodes E) match_ pt e = Done (Some p) e1 tr1 ->
  outsideVoids E (children (doc e1)) p.
Proof.
  intros HC Hflag. unfold insertPoint. rewrite query_bind.
  destruct (Editor_match E (children (doc e)) (AtPath (path_of pt)) match_ false)
    as [[n matchPath]|] eqn:Hmatch; [|done].
  rewrite pathRef_bind, query_bind. simpl.
  set (e0 := mkEditor _ _).
  assert (tracksOutside E (nextRef (doc e)) (length matchPath) e0) as He0.
  { split; [done|]. simpl. intros a q. rewrite lookup_insert_eq. intros [= <- <-].
    split; [done|]. by eapply match_outside_voids. }
  pose proof (splitNodes_tracks E HC _ _ pt match_ n matchPath e0 He0) as Hsplit.
  rewrite (point_is_its_path E HC) in Hsplit.
  specialize (Hsplit Hmatch (le_n _)).
  destruct (splitNodes E _ e0) as [[] e2 tr2|] eqn:Hrun;
    [erewrite bind_Done by exact Hrun|by erewrite bind_Thrown by exact Hrun].
  simpl in Hsplit. rewrite pathRef_unref_bind, orThrow_bind.
  destruct Hsplit as [_ Hsplit].
  destruct (pathRefs (doc e2) !! nextRef (doc e)) as [[a path]|]; simpl; [|done].
  destruct (Hsplit a path eq_refl) as [_ Hout].
  destruct (Editor_isEnd E (children (doc e)) pt matchPath).
  - rewrite orThrow_bind.
    destruct (PathI.next path) as [q|] eqn:Hnext; simpl; [|done].
    intros [= <- <- _]. intros q' Hq'. simpl.
    apply Hout. by rewrite <- (parent_next path q).
  - rewrite pure_bind. simpl. intros [= <- <- _]. exact Hout.
Qed.

Lemma insertRange_flag E hanging r e pt e1 tr1 :
  insertRange E hanging r e = Done pt e1 tr1 -> normalizing e1 = normalizing e.
Proof.
  unfold insertRange.
  assert (forall r' : Range,
            (if RangeI.isCollapsed r' then pure (anchor r')
             else let '(_, end_) := RangeI.edges r' in
                  pointRef_ ← pointRef end_ (Some Forward);
                  external (Editor_delete E r');;
                  pt ← pointRef_unref pointRef_;
                  orThrow "TypeError: Cannot read property 'length' of null" pt) e
            = Done pt e1 tr1 -> normalizing e1 = normalizing e) as Hrest.
  { intros r'. destruct (RangeI.isCollapsed r'); [by intros [= _ <- _]|].
    destruct (RangeI.edges r') as [start end_].
    rewrite pointRef_bind, external_bind, pointRef_unref_bind. simpl.
    destruct (pointRefs _ !! _) as [[a q]|]; simpl; [|done].
    by intros [= _ <- _]. }
  destruct hanging; simpl.
  - rewrite pure_bind. apply Hrest.
  - rewrite query_bind. apply Hrest.
Qed.

(** What the resolution of the location of [insertNodes] leaves: either
    the location was a Path, given or the default [[0]] of an empty
    document without a selection, and nothing has happened; or the path
    comes out of the split at a Point and is outside every void. *)
Lemma insertLocation_resolved E node o e p select e1 tr1 :
  VoidContract E ->
  insertLocation E (splitNodes E) node o (batch e) = Done (Some (p, select)) e1 tr1 ->
  (e1 = batch e /\ tr1 = []
   /\ (ins_at o = Some (AtPath p)
       \/ (ins_at o = None /\ selection (doc e) = None /\ children (doc e) = []
           /\ p = [0])))
  \/ outsideVoids E (children (doc e1)) p.
Proof.
  intros HC. unfold insertLocation.
  match goal with |- (_ ≫= ?f) _ = _ -> _ => set (K := f) end.
  assert (forall at_ sel e0,
            normalizing e0 = false ->
            K (at_, sel) e0 = Done (Some (p, select)) e1 tr1 ->
            (at_ = AtPath p /\ e1 = e0 /\ tr1 = [])
            \/ outsideVoids E (children (doc e1)) p) as HK.
  { intros at_ sel e0 Hflag. unfold K.
    assert (forall match_ pt e' tr',
              normalizing e' = false ->
              after tr'
                ((insertPoint E (splitNodes E) match_ pt
                  ≫= fun q => pure ((fun p => (p, sel)) <$> q)) e')
              = Done (Some (p, select)) e1 tr1 ->
              outsideVoids E (children (doc e1)) p) as HP.
    { intros match_ pt e' tr' Hflag'.
      destruct (insertPoint E (splitNodes E) match_ pt e') as [[q|] e2 tr2|] eqn:Hpt;
        [erewrite bind_Done by exact Hpt
        |erewrite bind_Done by exact Hpt
        |by erewrite bind_Thrown by exact Hpt]; simpl; [|done].
      intros [= <- _ <- _]. by eapply insertPoint_outside. }
    destruct at_ as [p0|pt|r].
    - rewrite !pure_bind. intros [= <- _ <- <-]. by left.
    - rewrite !pure_bind. intros Hrun. right.
      eapply (HP _ pt e0 [] Hflag). rewrite after_nil. exact Hrun.
    - rewrite bind_assoc.
      destruct (insertRange E (default false (ins_hanging o)) r e0) as [pt e' tr'|] eqn:Hr;
        [erewrite bind_Done by exact Hr|by erewrite bind_Thrown by exact Hr].
      rewrite !pure_bind. intros Hrun. right.
      eapply (HP _ pt e' tr'); [|exact Hrun].
      by rewrite (insertRange_flag _ _ _ _ _ _ _ Hr). }
  clearbody K.
  destruct (ins_at o) as [l|] eqn:Hat.
  - rewrite pure_bind. intros Hrun.
    destruct (HK l false (batch e) eq_refl Hrun) as [(-> & -> & ->)|Hout];
      [left|by right]. by eauto.
  - rewrite bind_assoc, query_bind. simpl.
    destruct (selection (doc e)) as [r|] eqn:Hsel.
    + rewrite pure_bind. intros Hrun.
      by destruct (HK _ _ (batch e) eq_refl Hrun) as [(? & _)|Hout]; [|right].
    + rewrite bind_assoc, query_bind. simpl.
      case_bool_decide as Hlen.
      * rewrite bind_assoc, must_bind. simpl.
        destruct (Editor_end E (children (doc e)) []) as [pt|]; [|done].
        rewrite pure_bind. intros Hrun.
        by destruct (HK _ _ (batch e) eq_refl Hrun) as [(? & _)|Hout]; [|right].
      * rewrite pure_bind. intros Hrun.
        destruct (HK _ _ (batch e) eq_refl Hrun) as [([= <-] & -> & ->)|Hout];
          [left|by right].
        split_and!; try done. right. split_and!; try done.
        destruct (children (doc e)); [done|simpl in Hlen; lia].
Qed.

(** C1.  An invocation of [insertNodes], without [voids], in which the
    parent of the path the location resolves to is a void or inside one:
    [insertLocation] is [insertNodes] up to [Path.parent(at)] (l.44-98) and
    [voidAbove] is the guard of l.103, asked in the editor the resolution
    ends in.

    For every engine nothing follows the guard: [insertNodes] returns with
    what the resolution emitted and the editor it left, the batch closed.
    When the location is a Path, given or the default [[0]] of an empty
    document without a selection, the resolution does nothing: zero
    operations, and the editor returned is the one given, the tree, the
    selection and every live reference as they were.  A Range is deleted
    and a Point is split before the guard is asked; under the contract of
    the engines on voids ([VoidContract]) the path that comes out of the
    split is outside every void, so that the guard fires for a Path
    location only, and for every location: zero operations and the editor
    as it was given. *)
Theorem insertNodes_void_guard (E : Engine) (nodes : NodeArg) (node : Node)
    (rest : list Node) (o : InsertOptions) (e e1 : Editor) (tr1 : list Operation)
    (p q : Path) (select : bool) (entry : NodeEntry) :
  default false (ins_voids o) = false ->
  asArray nodes = node :: rest ->
  insertLocation E (splitNodes E) node o (batch e) = Done (Some (p, select)) e1 tr1 ->
  PathI.parent p = Some q ->
  voidAbove E (children (doc e1)) q = Some entry ->
  insertNodes E nodes o e
    = Done tt (normalize E (mkEditor (doc e1) (normalizing e))) tr1
  /\ (ins_at o = Some (AtPath p)
      \/ (ins_at o = None /\ selection (doc e) = None /\ children (doc e) = []) ->
      e1 = batch e /\ tr1 = []
      /\ insertNodes E nodes o e = Done tt (normalize E e) [])
  /\ (VoidContract E ->
      (ins_at o = Some (AtPath p)
       \/ (ins_at o = None /\ selection (doc e) = None /\ children (doc e) = []
           /\ p = [0]))
      /\ e1 = batch e /\ tr1 = []
      /\ insertNodes E nodes o e = Done tt (normalize E e) []).
Proof.
  intros Hvoids Hnodes Hloc Hparent Hguard.
  assert (insertNodes E nodes o e
          = Done tt (normalize E (mkEditor (doc e1) (normalizing e))) tr1) as Hrun.
  { unfold insertNodes. rewrite insertNodes_with_location.
    unfold withoutNormalizing. fold (batch e). rewrite Hnodes, Hvoids.
    erewrite bind_Done by exact Hloc. cbv beta iota.
    rewrite (insertAtPath_guarded E _ select p q entry) by done.
    simpl. by rewrite app_nil_r. }
  assert (e1 = batch e -> tr1 = [] ->
          insertNodes E nodes o e = Done tt (normalize E e) []) as Hsame.
  { intros -> ->. rewrite Hrun. simpl. by rewrite normalize_eta. }
  split_and!; [done| |].
  - intros [Hat|(Hat & Hsel & Hcs)].
    + rewrite (insertLocation_path E _ node o p (batch e) Hat) in Hloc.
      injection Hloc as _ <- <-. by auto.
    + revert Hloc. unfold insertLocation.
      rewrite Hat, bind_assoc, query_bind. simpl.
      rewrite Hsel, bind_assoc, query_bind. simpl. rewrite Hcs. simpl.
      rewrite !pure_bind. intros [= _ _ <- <-]. by auto.
  - intros HC.
    destruct (insertLocation_resolved E node o e p select e1 tr1 HC Hloc)
      as [(-> & -> & Hat)|Hout].
    + by auto.
    + by rewrite (Hout q Hparent) in Hguard.
Qed.

(** *** The reference engine keeps the contract on voids *)

Lemma kindIs_void n : Ref.kindIs "void" n = Ref.isVoid n.
Proof. reflexivity. Qed.

Lemma head_void_voidFree n done q :
  head (filter (fun en : NodeEntry => Ref.isMatch (MKind "void") (fst en))
               (Ref.levelsFrom n done q false)) = None
  <-> voidFree n q = true.
Proof.
  revert n done. induction q as [|i q IH]; intros n done; simpl.
  - rewrite filter_cons. simpl. rewrite kindIs_void.
    by destruct (Ref.isVoid n).
  - rewrite filter_cons. simpl. rewrite kindIs_void.
    destruct (Ref.isVoid n); simpl; [by split|].
    destruct (NodeI.children n !! i) as [c|]; [apply IH|done].
Qed.

Lemma voidAbove_voidFree tree q :
  voidAbove Ref.engine tree q = None <-> voidFree (Root tree) q = true.
Proof. apply head_void_voidFree. Qed.

Lemma levelsFrom_elem todo n0 done n p :
  (n, p) ∈ Ref.levelsFrom n0 done todo false ->
  exists j, j <= length todo /\ p = done ++ take j todo
            /\ (j = 0 \/ voidFree n0 (take (j - 1) todo) = true).
Proof.
  revert n0 done. induction todo as [|i t IH]; intros n0 done; simpl.
  - rewrite list_elem_of_singleton. intros [= -> ->].
    exists 0. by rewrite app_nil_r; auto.
  - rewrite elem_of_cons. intros [[= -> ->]|Hin].
    { exists 0. rewrite app_nil_r. split; [lia|]. by auto. }
    destruct (Ref.isVoid n0) eqn:Hvoid; simpl in Hin; [by apply elem_of_nil in Hin|].
    destruct (NodeI.children n0 !! i) as [c|] eqn:Hc; [|by apply elem_of_nil in Hin].
    destruct (IH c (done ++ [i]) Hin) as (j & Hj & -> & Hfree).
    exists (S j). split; [lia|]. split; [by rewrite <- app_assoc|].
    right. simpl. rewrite Nat.sub_0_r.
    destruct j as [|j]; simpl; [by rewrite Hvoid|].
    rewrite Hvoid, Hc. simpl.
    destruct Hfree as [|Hfree]; [done|].
    simpl in Hfree. by rewrite Nat.sub_0_r in Hfree.
Qed.

Lemma match_elem tree l m n p :
  Ref.match_ tree l m false = Some (n, p) ->
  (n, p) ∈ Ref.levelsFrom (Root tree) [] (Ref.locPath l) false
  /\ Ref.isMatch m n = true.
Proof.
  unfold Ref.match_, Ref.levels. intros Hhead.
  apply head_Some_elem_of in Hhead.
  apply list_elem_of_filter in Hhead as [Hm Hin].
  split; [done|]. simpl in Hm. by destruct (Ref.isMatch m n).
Qed.

Lemma removelast_take (l : Path) j :
  j <= length l -> removelast (take j l) = take (j - 1) l.
Proof.
  intros Hj. rewrite removelast_firstn_len, length_take_le by done.
  rewrite take_take. f_equal. lia.
Qed.

Lemma engine_match_outside_voids tree l m n p :
  Ref.match_ tree l m false = Some (n, p) -> outsideVoids Ref.engine tree p.
Proof.
  intros Hmatch q Hparent. apply match_elem in Hmatch as [Hin _].
  apply levelsFrom_elem in Hin as (j & Hj & -> & Hfree). simpl in Hparent.
  apply parent_Some in Hparent as [Hne ->].
  rewrite removelast_take by done. apply voidAbove_voidFree.
  destruct Hfree as [->|Hfree]; [by rewrite take_0 in Hne|done].
Qed.

Lemma levelsFrom_void_last todo n0 done vn vp n p :
  (vn, vp) ∈ Ref.levelsFrom n0 done todo false -> Ref.isVoid vn = true ->
  (n, p) ∈ Ref.levelsFrom n0 done todo false ->
  length p <= length vp.
Proof.
  revert n0 done. induction todo as [|i t IH]; intros n0 done; simpl.
  - rewrite !list_elem_of_singleton. by intros [= -> ->] _ [= -> ->].
  - rewrite !elem_of_cons. intros [[= -> ->]|Hv] Hvoid [[= -> ->]|Hin]; [done|..].
    + rewrite Hvoid in Hin. by apply elem_of_nil in Hin.
    + destruct (Ref.isVoid n0); [by apply elem_of_nil in Hv|].
      destruct (NodeI.children n0 !! i) as [c|]; [|by apply elem_of_nil in Hv].
      apply levelsFrom_elem in Hv as (j & _ & -> & _).
      rewrite !length_app. lia.
    + destruct (Ref.isVoid n0); [by apply elem_of_nil in Hv|].
      destruct (NodeI.children n0 !! i) as [c|]; [|by apply elem_of_nil in Hv].
      by eapply IH.
Qed.

Lemma engine_match_above_void tree l m n p vn vp :
  Ref.match_ tree l m false = Some (n, p) ->
  Ref.match_ tree l (MKind "void") false = Some (vn, vp) ->
  length p <= length vp.
Proof.
  intros Hm Hv. apply match_elem in Hm as [Hin _].
  apply match_elem in Hv as [Hvin Hvoid].
  by eapply levelsFrom_void_last.
Qed.

Lemma isVoid_setChildren n c : Ref.isVoid (Ref.setChildren n c) = Ref.isVoid n.
Proof. by destruct n. Qed.

Lemma isVoid_alterAt r g n :
  (forall x, Ref.isVoid (g x) = Ref.isVoid x) ->
  Ref.isVoid (Ref.alterAt r g n) = Ref.isVoid n.
Proof. intros Hg. destruct r; simpl; [done|apply isVoid_setChildren]. Qed.

Lemma children_setChildren_alter n (f : Node -> Node) j :
  NodeI.children (Ref.setChildren n (alter f j (NodeI.children n)))
  = alter f j (NodeI.children n).
Proof. by destruct n. Qed.

Lemma voidFree_alterAt q r g n :
  (forall x, Ref.isVoid (g x) = Ref.isVoid x) ->
  length q <= length r ->
  voidFree (Ref.alterAt r g n) q = voidFree n q.
Proof.
  intros Hg. revert r n. induction q as [|i q IH]; intros r n Hlen.
  - simpl. by rewrite isVoid_alterAt.
  - destruct r as [|j r]; simpl in Hlen; [lia|].
    cbn [voidFree]. rewrite isVoid_alterAt by done. f_equal.
    cbn [Ref.alterAt]. rewrite children_setChildren_alter.
    destruct (decide (j = i)) as [->|Hne].
    + rewrite list_lookup_alter_eq.
      destruct (NodeI.children n !! i) as [c|]; simpl; [|done].
      apply IH. lia.
    + by rewrite list_lookup_alter_ne.
Qed.

Lemma voidFree_alterChildren q r f tree :
  length q <= length r ->
  voidFree (Root (NodeI.children (Ref.alterChildren r f (Root tree)))) q
  = voidFree (Root tree) q.
Proof.
  intros Hlen. unfold Ref.alterChildren.
  set (g := fun x => Ref.setChildren x (f (NodeI.children x))).
  assert (forall x, Ref.isVoid (g x) = Ref.isVoid x) as Hg.
  { intros x. apply isVoid_setChildren. }
  rewrite <- (voidFree_alterAt q r g (Root tree)) by done.
  pose proof (isVoid_alterAt r g (Root tree) Hg) as Hroot.
  destruct (Ref.alterAt r g (Root tree)); destruct q; simpl in *; try done;
    by rewrite Hroot.
Qed.

Lemma removelast_alter (f : nat -> nat) k (p : Path) :
  length p <= S k -> removelast (alter f k p) = removelast p.
Proof.
  intros Hk.
  rewrite (removelast_firstn_len (alter f k p)), (removelast_firstn_len p).
  unfold Path in *. rewrite length_alter. apply take_alter_ge. lia.
Qed.

Lemma parent_alter (f : nat -> nat) k (p : Path) :
  length p <= S k -> PathI.parent (alter f k p) = PathI.parent p.
Proof.
  intros Hk. unfold PathI.parent. rewrite removelast_alter by done.
  destruct p; [done|]. by destruct k.
Qed.

Lemma insertShift_deep q p :
  length p <= length q ->
  length (Ref.insertShift q p) = length p
  /\ PathI.parent (Ref.insertShift q p) = PathI.parent p.
Proof.
  intros Hlen. unfold Ref.insertShift.
  destruct (_ && _); [|done]. unfold Path in *.
  rewrite length_alter. split; [done|]. apply parent_alter. lia.
Qed.

Lemma transformPath_deep op a p p' :
  deepOp (length p) op ->
  Ref.transformPath op a p = Some p' ->
  length p' = length p /\ PathI.parent p' = PathI.parent p.
Proof.
  destruct op as [q n| | |q pos tgt props| | | | |]; simpl; try done; intros Hlen.
  - intros [= <-]. by apply insertShift_deep.
  - case_bool_decide as Hpq.
    + subst q. unfold Path in *. destruct a as [[]|]; intros [= <-]; try done.
      rewrite length_alter. split; [done|]. apply parent_alter. lia.
    + unfold Ref.isPrefix. case_bool_decide as Hpre.
      { rewrite take_ge in Hpre by done. by subst. }
      intros [= <-]. apply insertShift_deep. unfold Path in *.
      by rewrite length_alter.
Qed.

Lemma engine_deep_op_keeps_outside tree op a p p' :
  deepOp (length p) op ->
  Ref.transformPath op a p = Some p' ->
  outsideVoids Ref.engine tree p ->
  length p' = length p /\ outsideVoids Ref.engine (Ref.transformTree op tree) p'.
Proof.
  intros Hdeep Hpath Hout.
  destruct (transformPath_deep op a p p' Hdeep Hpath) as [Hlen Hparent].
  split; [done|]. intros q Hq. rewrite Hparent in Hq.
  specialize (Hout q Hq). apply voidAbove_voidFree in Hout.
  apply voidAbove_voidFree. rewrite <- Hout.
  apply parent_Some in Hq as [Hne ->].
  assert (length (removelast p) < length p) as Hshort.
  { rewrite removelast_firstn_len, length_take. destruct p; [done|simpl; lia]. }
  destruct op as [qs n| | |qs pos tgt props| | | | |]; simpl in Hdeep; try done;
    apply voidFree_alterChildren;
    rewrite (removelast_firstn_len qs), length_take; lia.
Qed.

Lemma engine_void_contract : VoidContract Ref.engine.
Proof.
  split.
  - done.
  - apply engine_match_outside_voids.
  - apply engine_match_above_void.
  - apply engine_deep_op_keeps_outside.
Qed.

(** ** mergeNodes *)

Lemma next_is_Some (p : Path) : p ≠ [] -> is_Some (PathI.next p).
Proof.
  intros Hp. unfold PathI.next.
  destruct (last p) eqn:Hlast; [by eexists|].
  by apply last_None in Hlast.
Qed.

Lemma mergeKind_differ node prevNode e :
  kindsDiffer node prevNode ->
  exists msg, mergeKind node prevNode e = Thrown msg e [].
Proof.
  intros [[Hn Hp]|[Hn Hp]]; destruct node, prevNode; try done;
    by eexists.
Qed.

Lemma mergeLocation_no_range E o at_ e :
  (forall r, at_ ≠ AtRange r) ->
  mergeLocation E o at_ e = Done at_ e [].
Proof.
  intros Hr. unfold mergeLocation.
  destruct at_ as [p|pt|r]; [| |by destruct (Hr r)];
    by rewrite pure_bind.
Qed.

Lemma mergeEntries_differ E voids node path prevNode prevPath e :
  prevPath ≠ [] ->
  kindsDiffer node prevNode ->
  exists msg e', mergeEntries E voids node path prevNode prevPath e = Thrown msg e' []
                 /\ children (doc e') = children (doc e)
                 /\ selection (doc e') = selection (doc e).
Proof.
  intros Hprev Hkinds. unfold mergeEntries.
  destruct (next_is_Some prevPath Hprev) as [newPath ->].
  rewrite orThrow_bind, !query_bind. unfold trackAncestor.
  destruct (Editor_match E (children (doc e)) (AtPath path) _ false) as [[n p]|].
  - erewrite bind_Done; [|by erewrite bind_Done].
    simpl. rewrite after_nil.
    match goal with |- ∃ _ _, (_ ≫= _) ?e1 = _ ∧ _ =>
      destruct (mergeKind_differ node prevNode e1 Hkinds) as [msg Hmsg] end.
    erewrite bind_Thrown by done. by eexists _, _.
  - rewrite pure_bind.
    destruct (mergeKind_differ node prevNode e Hkinds) as [msg Hmsg].
    erewrite bind_Thrown by done. by eexists _, _.
Qed.

(** C4.  When the matched node and its predecessor are of different kinds,
    [mergeNodes] throws.  The operations emitted by then are those of the
    resolution of the location alone (none, unless the location was a Range):
    no move, no removal and no [merge_node] of the merge has been applied,
    and the tree and the selection are as the resolution left them. *)
Theorem mergeNodes_kind_mismatch_throws (E : Engine) (o : MergeOptions)
    (e e1 : Editor) (at0 at1 : Location) (m : NodeMatch) (tr1 : list Operation)
    (node prevNode : Node) (path prevPath : Path) :
  atOrSelection (mrg_at o) (doc e) = Some at0 ->
  mergeDefaultMatch E o at0 (batch e) = Done m (batch e) [] ->
  mergeLocation E o at0 (batch e) = Done at1 e1 tr1 ->
  Editor_match E (children (doc e1)) at1 m (default false (mrg_voids o)) = Some (node, path) ->
  Editor_previous E (children (doc e1)) at1 m (default false (mrg_voids o))
    = Some (prevNode, prevPath) ->
  path ≠ [] ->
  prevPath ≠ [] ->
  kindsDiffer node prevNode ->
  exists msg e2,
    mergeNodes E o e = Thrown msg e2 tr1
    /\ children (doc e2) = children (doc e1)
    /\ selection (doc e2) = selection (doc e1)
    /\ ((forall r, at0 ≠ AtRange r) -> tr1 = [] /\ e1 = batch e).
Proof.
  intros Hat Hmatch Hloc Hcur Hprev Hpath HprevPath Hkinds.
  destruct (mergeEntries_differ E (default false (mrg_voids o))
              node path prevNode prevPath e1 HprevPath Hkinds)
    as (msg & e2 & Hthrow & Hchildren & Hsel).
  exists msg, e2.
  split_and!; [|done|done|].
  - unfold mergeNodes, withoutNormalizing. fold (batch e).
    rewrite query_bind. simpl. rewrite Hat.
    erewrite bind_Done by exact Hmatch. rewrite after_nil.
    erewrite bind_Done by exact Hloc.
    rewrite !query_bind, Hcur, Hprev.
    rewrite (bool_decide_eq_false_2 (length path = 0)) by (by destruct path).
    rewrite (bool_decide_eq_false_2 (length prevPath = 0)) by (by destruct prevPath).
    simpl. rewrite Hthrow. simpl. by rewrite app_nil_r.
  - intros Hr. rewrite mergeLocation_no_range in Hloc by done.
    by injection Hloc as <- <- <-.
Qed.


Lemma Emits_removeEntry E h : Emits removesOnly (removeEntry E h).
Proof. unfold removeEntry. emits. by apply Emits_apply. Qed.

Lemma Emits_removeNodes E o : Emits removesOnly (removeNodes E o).
Proof. unfold removeNodes. emits. apply Emits_removeEntry. Qed.

Lemma Emits_mergePrepare E voids sibling path newPath emptyRef :
  Emits moveOrRemove (mergePrepare E voids sibling path newPath emptyRef).
Proof.
  unfold mergePrepare. emits.
  - eapply Emits_mono; [|apply Emits_moveNodes]. by intros [].
  - eapply Emits_mono; [|apply Emits_removeNodes]. by intros [].
Qed.

Lemma Emits_mergeEntries_empty E voids node path prevNode prevPath :
  (forall tree, prevIsEmpty E tree prevNode = true) ->
  Emits moveOrRemove (mergeEntries E voids node path prevNode prevPath).
Proof.
  intros Hempty. unfold mergeEntries, trackAncestor, mergeKind, mergeFinish.
  emits; try apply Emits_mergePrepare.
  - eapply Emits_mono; [|apply Emits_removeNodes]. by intros [].
  - by rewrite Hempty in *.
Qed.

(** [removeNodes] at a path whose identity match resolves to the one node
    there removes that node. *)
Lemma removeNodes_path_single E voids path node q x e :
  Editor_node E (children (doc e)) path = Some (node, q) ->
  Editor_nodes E (children (doc e)) (AtPath path) (MIs node) ModeHighest voids
    = [(x, path)] ->
  emitted (removeNodes E (mkRemoveOptions (Some (AtPath path)) None None None (Some voids)) e)
  = [remove_node path node].
Proof.
  intros Hnode Hnodes. unfold removeNodes, withoutNormalizing.
  rewrite query_bind. simpl.
  unfold matchPath. rewrite bind_assoc, must_bind. simpl. rewrite Hnode.
  rewrite !pure_bind, query_bind. simpl. rewrite Hnodes. simpl.
  erewrite bind_Done; [|by erewrite bind_Done; [|done]; rewrite pure_bind].
  simpl. unfold removeEntry.
  erewrite bind_Done; [|by erewrite bind_Done; [|done]; simpl;
                          rewrite lookup_insert_eq; simpl; rewrite must_bind; simpl;
                          rewrite Hnode].
  done.
Qed.

Lemma mergeEntries_steps E voids node path prevNode prevPath e
    newPath position properties emptyRef e1 e3 tr :
  PathI.next prevPath = Some newPath ->
  mergeKind node prevNode e1 = Done (position, properties) e1 [] ->
  trackAncestor (emptyAncestorOf E (children (doc e)) path prevPath) e
    = Done emptyRef e1 [] ->
  mergePrepare E voids (PathI.isSibling path prevPath) path newPath emptyRef e1
    = Done tt e3 tr ->
  mergeEntries E voids node path prevNode prevPath e
  = after tr ((mergeFinish E voids prevNode prevPath newPath position properties;;
               match emptyRef with
               | Some h => pathRef_unref h;; pure tt
               | None => pure tt
               end) e3).
Proof.
  intros Hnext Hkind Htrack Hprep. unfold mergeEntries.
  rewrite Hnext, orThrow_bind, !query_bind.
  fold (emptyAncestorOf E (children (doc e)) path prevPath).
  erewrite bind_Done by exact Htrack. rewrite after_nil.
  erewrite bind_Done by exact Hkind. rewrite after_nil.
  by erewrite bind_Done by exact Hprep.
Qed.

Lemma emitted_then_unref {A} (m : M A) (emptyRef : option nat) e :
  emitted ((m;; match emptyRef with
                | Some h => pathRef_unref h;; pure tt
                | None => pure tt
                end) e)
  = emitted (m e).
Proof.
  rewrite emitted_bind. destruct (m e) as [a e1 tr1|]; [|done].
  destruct emptyRef; simpl; by rewrite app_nil_r.
Qed.

Lemma mergeKind_state node prevNode e x e' :
  mergeKind node prevNode e = Done x e [] ->
  mergeKind node prevNode e' = Done x e' [].
Proof.
  intros H.
  destruct node, prevNode; unfold mergeKind, pure, throw, mret, M_ret in *;
    by simplify_eq.
Qed.

(** The step of an empty predecessor, from the matched entries on. *)
Lemma mergeEntries_empty_predecessor (E : Engine) (voids : bool)
    (node prevNode : Node) (path prevPath newPath : Path) (e e1 e3 : Editor)
    (position : nat) (properties : Props) (emptyRef : option nat)
    (tr : list Operation) :
  (forall tree, prevIsEmpty E tree prevNode = true) ->
  PathI.next prevPath = Some newPath ->
  mergeKind node prevNode e1 = Done (position, properties) e1 [] ->
  trackAncestor (emptyAncestorOf E (children (doc e)) path prevPath) e
    = Done emptyRef e1 [] ->
  mergePrepare E voids (PathI.isSibling path prevPath) path newPath emptyRef e1
    = Done tt e3 tr ->
  let removal :=
    removeNodes E (mkRemoveOptions (Some (AtPath prevPath)) None None None (Some voids)) e3 in
  emitted (mergeEntries E voids node path prevNode prevPath e) = tr ++ emitted removal
  /\ Forall moveOrRemove (emitted (mergeEntries E voids node path prevNode prevPath e))
  /\ (forall pn q x,
        Editor_node E (children (doc e3)) prevPath = Some (pn, q) ->
        Editor_nodes E (children (doc e3)) (AtPath prevPath) (MIs pn) ModeHighest voids
          = [(x, prevPath)] ->
        emitted removal = [remove_node prevPath pn]).
Proof.
  intros Hempty Hnext Hkind Htrack Hprep removal. split_and!.
  - erewrite mergeEntries_steps by done.
    rewrite emitted_after, emitted_then_unref.
    unfold mergeFinish. rewrite query_bind, Hempty. done.
  - by apply Emits_mergeEntries_empty.
  - intros pn q x Hnode Hnodes. by eapply removeNodes_path_single.
Qed.

(** The order of the operations of a merge, from the matched entries on. *)
Lemma mergeEntries_removal_precedes_merge (E : Engine) (voids : bool)
    (node prevNode n : Node) (path prevPath newPath p p' : Path)
    (e e2 e3 : Editor) (position : nat) (properties : Props)
    (a : option Affinity) (tr_move tr_remove : list Operation) :
  PathI.next prevPath = Some newPath ->
  emptyAncestorOf E (children (doc e)) path prevPath = Some (n, p) ->
  mergeKind node prevNode e = Done (position, properties) e [] ->
  (if negb (PathI.isSibling path prevPath)
   then moveNodes E (mkMoveOptions (Some (AtPath path)) None None newPath (Some voids))
   else pure tt) (final (pathRef p e)) = Done tt e2 tr_move ->
  pathRefs (doc e2) !! nextRef (doc e) = Some (a, p') ->
  removeNodes E (mkRemoveOptions (Some (AtPath p')) None None None (Some voids)) e2
    = Done tt e3 tr_remove ->
  prevIsEmpty E (children (doc e3)) prevNode = false ->
  emitted (mergeEntries E voids node path prevNode prevPath e)
    = tr_move ++ tr_remove ++ [merge_node newPath position None properties]
  /\ threw (mergeEntries E voids node path prevNode prevPath e) = false.
Proof.
  intros Hnext Hanc Hkind Hmove Hcur Hremove Hne.
  assert (mergeEntries E voids node path prevNode prevPath e
          = after (tr_move ++ tr_remove)
              ((mergeFinish E voids prevNode prevPath newPath position properties;;
                pathRef_unref (nextRef (doc e));; pure tt) e3)) as ->.
  { eapply (mergeEntries_steps _ _ _ _ _ _ _ _ _ _ (Some (nextRef (doc e)))
              (final (pathRef p e))).
    - done.
    - by apply (mergeKind_state _ _ e).
    - rewrite Hanc. done.
    - unfold mergePrepare. erewrite bind_Done by exact Hmove.
      unfold pathRef_current. rewrite query_bind, Hcur. simpl.
      rewrite Hremove. done. }
  unfold mergeFinish. rewrite bind_assoc, query_bind, Hne.
  rewrite apply_bind. simpl. rewrite <- (assoc_L (++)). done.
Qed.

(** [mergeNodes] up to the matched entries: the operations of the
    resolution of the location, then those of [mergeEntries]. *)
Lemma mergeNodes_entries E o e e1 at0 at1 m tr1 node prevNode path prevPath :
  atOrSelection (mrg_at o) (doc e) = Some at0 ->
  mergeDefaultMatch E o at0 (batch e) = Done m (batch e) [] ->
  mergeLocation E o at0 (batch e) = Done at1 e1 tr1 ->
  Editor_match E (children (doc e1)) at1 m (default false (mrg_voids o)) = Some (node, path) ->
  Editor_previous E (children (doc e1)) at1 m (default false (mrg_voids o))
    = Some (prevNode, prevPath) ->
  path ≠ [] ->
  prevPath ≠ [] ->
  emitted (mergeNodes E o e)
    = tr1 ++ emitted (mergeEntries E (default false (mrg_voids o)) node path
                        prevNode prevPath e1)
  /\ threw (mergeNodes E o e)
     = threw (mergeEntries E (default false (mrg_voids o)) node path
                prevNode prevPath e1).
Proof.
  intros Hat Hmatch Hloc Hcur Hprev Hpath HprevPath.
  unfold mergeNodes, withoutNormalizing. fold (batch e).
  rewrite query_bind. simpl. rewrite Hat.
  erewrite bind_Done by exact Hmatch. rewrite after_nil.
  erewrite bind_Done by exact Hloc.
  rewrite !query_bind, Hcur, Hprev.
  rewrite (bool_decide_eq_false_2 (length path = 0)) by (by destruct path).
  rewrite (bool_decide_eq_false_2 (length prevPath = 0)) by (by destruct prevPath).
  simpl. by destruct (mergeEntries _ _ _ _ _ _ e1).
Qed.

(** The order of the operations of a merge.  When an ancestor of the
    matched node is tracked and the merge is performed, the operations of
    [mergeNodes] are, in this order: those of the resolution of the
    location, those of the move of the node next to its predecessor, those
    of the removal of the tracked ancestor at the path its reference then
    holds, and the [merge_node].  The removal precedes the [merge_node],
    which is the last operation. *)
Theorem mergeNodes_removal_precedes_merge (E : Engine) (o : MergeOptions)
    (e e1 e2 e3 : Editor) (at0 at1 : Location) (m : NodeMatch)
    (node prevNode n : Node) (path prevPath newPath p p' : Path)
    (position : nat) (properties : Props) (a : option Affinity)
    (tr1 tr_move tr_remove : list Operation) :
  let voids := default false (mrg_voids o) in
  atOrSelection (mrg_at o) (doc e) = Some at0 ->
  mergeDefaultMatch E o at0 (batch e) = Done m (batch e) [] ->
  mergeLocation E o at0 (batch e) = Done at1 e1 tr1 ->
  Editor_match E (children (doc e1)) at1 m voids = Some (node, path) ->
  Editor_previous E (children (doc e1)) at1 m voids = Some (prevNode, prevPath) ->
  path ≠ [] ->
  PathI.next prevPath = Some newPath ->
  emptyAncestorOf E (children (doc e1)) path prevPath = Some (n, p) ->
  mergeKind node prevNode e1 = Done (position, properties) e1 [] ->
  (if negb (PathI.isSibling path prevPath)
   then moveNodes E (mkMoveOptions (Some (AtPath path)) None None newPath (Some voids))
   else pure tt) (final (pathRef p e1)) = Done tt e2 tr_move ->
  pathRefs (doc e2) !! nextRef (doc e1) = Some (a, p') ->
  removeNodes E (mkRemoveOptions (Some (AtPath p')) None None None (Some voids)) e2
    = Done tt e3 tr_remove ->
  prevIsEmpty E (children (doc e3)) prevNode = false ->
  emitted (mergeNodes E o e)
    = tr1 ++ tr_move ++ tr_remove ++ [merge_node newPath position None properties]
  /\ threw (mergeNodes E o e) = false.
Proof.
  intros voids Hat Hmatch Hloc Hcur Hprev Hpath Hnext Hanc Hkind Hmove Href
    Hremove Hne. subst voids.
  assert (prevPath ≠ []) as HprevPath by (by intros ->).
  destruct (mergeNodes_entries E o e e1 at0 at1 m tr1 node prevNode path prevPath)
    as [-> ->]; try done.
  destruct (mergeEntries_removal_precedes_merge E (default false (mrg_voids o))
              node prevNode n
              path prevPath newPath p p' e1 e2 e3 position properties a
              tr_move tr_remove) as [-> ->]; done.
Qed.

(** C6, as the code has it.  When the predecessor is empty and the kind
    check and the preparation of the merge have passed, the merge step is
    the removal of the predecessor: [mergeNodes] emits what the resolution of
    the location and the preparation emitted, then what [removeNodes] at the
    predecessor's path emits, which is the [remove_node] of the predecessor
    when its identity match resolves to it.  From the matched entries on,
    every operation emitted is a [move_node] or a [remove_node]: no
    [merge_node] and nothing that touches the content or the properties of
    the matched node. *)
Theorem mergeNodes_empty_predecessor (E : Engine) (o : MergeOptions)
    (e e1 e2 e3 : Editor) (at0 at1 : Location) (m : NodeMatch)
    (node prevNode : Node) (path prevPath newPath : Path)
    (position : nat) (properties : Props) (emptyRef : option nat)
    (tr1 tr : list Operation) :
  let voids := default false (mrg_voids o) in
  let removal :=
    removeNodes E (mkRemoveOptions (Some (AtPath prevPath)) None None None (Some voids)) e3 in
  let entries := mergeEntries E voids node path prevNode prevPath e1 in
  atOrSelection (mrg_at o) (doc e) = Some at0 ->
  mergeDefaultMatch E o at0 (batch e) = Done m (batch e) [] ->
  mergeLocation E o at0 (batch e) = Done at1 e1 tr1 ->
  Editor_match E (children (doc e1)) at1 m voids = Some (node, path) ->
  Editor_previous E (children (doc e1)) at1 m voids = Some (prevNode, prevPath) ->
  path ≠ [] ->
  (forall tree, prevIsEmpty E tree prevNode = true) ->
  PathI.next prevPath = Some newPath ->
  mergeKind node prevNode e2 = Done (position, properties) e2 [] ->
  trackAncestor (emptyAncestorOf E (children (doc e1)) path prevPath) e1
    = Done emptyRef e2 [] ->
  mergePrepare E voids (PathI.isSibling path prevPath) path newPath emptyRef e2
    = Done tt e3 tr ->
  emitted (mergeNodes E o e) = tr1 ++ tr ++ emitted removal
  /\ Forall moveOrRemove (emitted entries)
  /\ Forall (fun op => forall q pos t pr, op ≠ merge_node q pos t pr) (emitted entries)
  /\ (forall pn q x,
        Editor_node E (children (doc e3)) prevPath = Some (pn, q) ->
        Editor_nodes E (children (doc e3)) (AtPath prevPath) (MIs pn) ModeHighest voids
          = [(x, prevPath)] ->
        emitted removal = [remove_node prevPath pn]).
Proof.
  intros voids removal entries Hat Hmatch Hloc Hcur Hprev Hpath Hempty Hnext
    Hkind Htrack Hprep. subst voids removal entries.
  assert (prevPath ≠ []) as HprevPath by (by intros ->).
  destruct (mergeNodes_entries E o e e1 at0 at1 m tr1 node prevNode path prevPath)
    as [-> _]; try done.
  destruct (mergeEntries_empty_predecessor E (default false (mrg_voids o))
              node prevNode path prevPath
              newPath e1 e2 e3 position properties emptyRef tr)
    as (Hem & Hall & Hone); try done.
  split_and!; [by rewrite Hem|done| |done].
  eapply Forall_impl; [exact Hall|]. intros [] Hop; by try done.
Qed.

(** ** Which errors a computation may throw *)

Section Raises.
Context {Q : string -> Prop}.

Lemma Raises_bind {A B} (m : M A) (k : A -> M B) :
  Raises Q m -> (forall a, Raises Q (k a)) -> Raises Q (m ≫= k).
Proof.
  intros Hm Hk e msg e' tr. rewrite bind_run.
  destruct (m e) as [a e1 tr1|msg1 e1 tr1] eqn:Hme.
  - destruct (k a e1) as [b e2 tr2|msg2 e2 tr2] eqn:Hke; [done|].
    intros [= <- <- <-]. by eapply Hk.
  - intros [= <- <- <-]. by eapply Hm.
Qed.

Lemma Raises_query_bind {A B} (f : Doc -> A) (k : A -> M B) :
  (forall d, Raises Q (k (f d))) -> Raises Q (query f ≫= k).
Proof. intros Hk e msg e' tr. rewrite query_bind. apply Hk. Qed.

Lemma Raises_pure {A} (a : A) : Raises Q (pure a).
Proof. by intros e msg e' tr. Qed.

Lemma Raises_throw {A} msg : Q msg -> Raises Q (@throw A msg).
Proof. by intros HQ e msg' e' tr [= <- <- <-]. Qed.

Lemma Raises_query {A} (f : Doc -> A) : Raises Q (query f).
Proof. by intros e msg e' tr. Qed.

Lemma Raises_must {A} msg (f : Doc -> option A) : Q msg -> Raises Q (must msg f).
Proof.
  intros HQ e msg' e' tr. unfold must.
  destruct (f (doc e)); [done|]. by intros [= <- <- <-].
Qed.

Lemma Raises_orThrow {A} msg (o : option A) : Q msg -> Raises Q (orThrow msg o).
Proof. intros HQ. destruct o; [apply Raises_pure|by apply Raises_throw]. Qed.

Lemma Raises_external f : Raises Q (external f).
Proof. intros e msg e' tr. unfold external. by destruct (f (doc e)). Qed.

Lemma Raises_pathRef p : Raises Q (pathRef p).
Proof. by intros e msg e' tr. Qed.

Lemma Raises_pathRef_current h : Raises Q (pathRef_current h).
Proof. by intros e msg e' tr. Qed.

Lemma Raises_pathRef_unref h : Raises Q (pathRef_unref h).
Proof. by intros e msg e' tr. Qed.

Lemma Raises_pointRef pt a : Raises Q (pointRef pt a).
Proof. by intros e msg e' tr. Qed.

Lemma Raises_pointRef_current h : Raises Q (pointRef_current h).
Proof. by intros e msg e' tr. Qed.

Lemma Raises_pointRef_unref h : Raises Q (pointRef_unref h).
Proof. by intros e msg e' tr. Qed.

Lemma Raises_apply E op : Raises Q (apply E op).
Proof. by intros e msg e' tr. Qed.

Lemma Raises_forEach {A} (xs : list A) (body : A -> M unit) :
  (forall x, Raises Q (body x)) -> Raises Q (forEach xs body).
Proof.
  intros Hbody. induction xs as [|x xs IH]; simpl.
  - apply Raises_pure.
  - apply Raises_bind; [apply Hbody|done].
Qed.

Lemma Raises_arrayFrom {A B} (f : A -> M B) (xs : list A) :
  (forall x, Raises Q (f x)) -> Raises Q (arrayFrom f xs).
Proof.
  intros Hf. induction xs as [|x xs IH]; simpl.
  - apply Raises_pure.
  - apply Raises_bind; [apply Hf|]. intros y.
    apply Raises_bind; [done|]. intros ys. apply Raises_pure.
Qed.

Lemma Raises_withoutNormalizing E (fn : M unit) :
  Raises Q fn -> Raises Q (withoutNormalizing E fn).
Proof.
  intros Hfn e msg e' tr. unfold withoutNormalizing.
  destruct (fn _) eqn:Hrun; [done|]. intros [= <- <- <-]. by eapply Hfn.
Qed.
End Raises.

Create HintDb raises.

#[global] Hint Resolve Raises_pure Raises_query Raises_external
  Raises_pathRef Raises_pathRef_current Raises_pathRef_unref
  Raises_pointRef Raises_pointRef_current Raises_pointRef_unref
  Raises_apply : raises.

(** The routine proof for errors: as [emits]; a thrown message is checked
    by computation. *)
Ltac raises :=
  lazymatch goal with
  | |- Raises _ (query _ ≫= _) => apply Raises_query_bind; intros ?; raises
  | |- Raises _ (_ ≫= _) => apply Raises_bind; [raises | intros ?; raises]
  | |- Raises _ (forEach _ _) => apply Raises_forEach; intros ?; raises
  | |- Raises _ (arrayFrom _ _) => apply Raises_arrayFrom; intros ?; raises
  | |- Raises _ (withoutNormalizing _ _) => apply Raises_withoutNormalizing; raises
  | |- Raises _ (throw _) => apply Raises_throw; try done
  | |- Raises _ (must _ _) => apply Raises_must; try done
  | |- Raises _ (orThrow _ _) => apply Raises_orThrow; try done
  | |- Raises _ (match ?x with _ => _ end) => destruct x eqn:?; raises
  | |- _ => try solve [auto with raises]
  end.

Lemma Raises_matchPath E p : Raises notLiftError (matchPath E p).
Proof. unfold matchPath. raises. Qed.

Lemma Raises_defaultMatch E m at_ : Raises notLiftError (defaultMatch E m at_).
Proof. unfold defaultMatch. raises; apply Raises_matchPath. Qed.

Lemma Raises_moveNodes E o : Raises notLiftError (moveNodes E o).
Proof.
  unfold moveNodes, moveEntry. raises. apply Raises_defaultMatch.
Qed.

Lemma Raises_removeNodes E o : Raises notLiftError (removeNodes E o).
Proof.
  unfold removeNodes, removeEntry. raises. apply Raises_defaultMatch.
Qed.

Lemma Raises_insertLoop E parentPath i nodes :
  Raises notLiftError (insertLoop E parentPath i nodes).
Proof.
  revert i. induction nodes as [|node nodes IH]; intros i; simpl; raises.
Qed.

Lemma Raises_insertAtPath E nodes voids select p :
  Raises notLiftError (insertAtPath E nodes voids select p).
Proof. unfold insertAtPath. raises. apply Raises_insertLoop. Qed.

Lemma Raises_insertNodes_with E split nodes o :
  (forall so, Raises notLiftError (split so)) ->
  Raises notLiftError (insertNodes_with E split nodes o).
Proof.
  intros Hsplit. unfold insertNodes_with. raises;
    first [apply Raises_insertAtPath | apply Hsplit].
Qed.

Lemma Raises_splitLoop E levels highestPath always voids beforeRef position target :
  Raises notLiftError
    (splitLoop E levels highestPath always voids beforeRef position target).
Proof.
  revert position target.
  induction levels as [|[node path] levels IH]; intros position target; simpl; raises.
Qed.

Lemma Raises_deleteRange E r : Raises notLiftError (deleteRange E r).
Proof. unfold deleteRange. raises. Qed.

Lemma Raises_splitNodes E o : Raises notLiftError (splitNodes E o).
Proof.
  unfold splitNodes, splitPoint. raises;
    first [ apply Raises_deleteRange
          | apply Raises_splitLoop
          | apply Raises_insertNodes_with; intros; apply Raises_pure ].
Qed.

(** ** liftNodes and the depth of a match *)

Lemma liftEntry_deep E voids h :
  forall e msg e' tr (a : option Affinity) (path : Path),
    pathRefs (doc e) !! h = Some (a, path) ->
    2 <= length path ->
    liftEntry E voids h e = Thrown msg e' tr ->
    msg ≠ liftError.
Proof.
  intros e msg e' tr a path Hcur Hlen. unfold liftEntry.
  rewrite pathRef_unref_bind, Hcur. simpl. rewrite pure_bind.
  rewrite bool_decide_eq_false_2 by lia.
  match goal with |- ?m ?e0 = _ -> _ =>
    assert (Raises notLiftError m) as Hraises end.
  { raises; first [apply Raises_moveNodes | apply Raises_removeNodes
                  | apply Raises_splitNodes]. }
  apply Hraises.
Qed.

Lemma liftEntry_shallow E voids h a path d n :
  length path < 2 ->
  liftEntry E voids h (mkEditor (withPathRef h a path d) n)
  = Thrown liftError (mkEditor (dropPathRef h (withPathRef h a path d)) n) [].
Proof.
  intros Hlen. unfold liftEntry.
  rewrite pathRef_unref_bind. simpl. rewrite lookup_insert_eq. simpl.
  rewrite pure_bind. by rewrite bool_decide_eq_true_2 by lia.
Qed.

Lemma liftEntry_shallow_at E voids h e (a : option Affinity) (path : Path) :
  pathRefs (doc e) !! h = Some (a, path) ->
  length path < 2 ->
  liftEntry E voids h e
  = Thrown liftError (mkEditor (dropPathRef h (doc e)) (normalizing e)) [].
Proof.
  intros Hcur Hlen. unfold liftEntry.
  rewrite pathRef_unref_bind, Hcur. simpl. rewrite pure_bind.
  by rewrite bool_decide_eq_true_2 by lia.
Qed.

Lemma liftEntry_liftError E voids h e e' tr :
  liftEntry E voids h e = Thrown liftError e' tr ->
  exists (a : option Affinity) (path : Path),
    pathRefs (doc e) !! h = Some (a, path) /\ length path < 2
    /\ tr = [] /\ e' = mkEditor (dropPathRef h (doc e)) (normalizing e).
Proof.
  intros Hthrow.
  destruct (pathRefs (doc e) !! h) as [[a path]|] eqn:Hcur.
  - destruct (decide (length path < 2)) as [Hlt|Hge].
    + rewrite (liftEntry_shallow_at E voids h e a path) in Hthrow by done.
      injection Hthrow as <- <-. by exists a, path.
    + exfalso. eapply (liftEntry_deep E voids h e); [done|lia|done|done].
  - exfalso. revert Hthrow. unfold liftEntry.
    rewrite pathRef_unref_bind, Hcur. simpl. rewrite throw_bind. done.
Qed.

(** When a loop throws: some turn throws after the turns before it ended
    normally. *)
Lemma forEach_Thrown {A} (xs : list A) (body : A -> M unit) e msg e' tr :
  forEach xs body e = Thrown msg e' tr
  <-> exists pre x post e1 tr1 tr2,
        xs = pre ++ x :: post
        /\ forEach pre body e = Done tt e1 tr1
        /\ body x e1 = Thrown msg e' tr2
        /\ tr = tr1 ++ tr2.
Proof.
  revert e tr. induction xs as [|x xs IH]; intros e tr; simpl.
  - split; [done|]. intros (pre & y & post & ? & ? & ? & Heq & _). by destruct pre.
  - rewrite bind_run. destruct (body x e) as [[] e1 tr1|msg1 e1 tr1] eqn:Hbody.
    + split.
      * destruct (forEach xs body e1) as [|msg2 e2 tr2] eqn:Hrest; [done|].
        intros [= -> -> <-].
        apply IH in Hrest as (pre & y & post & e3 & tr3 & tr4 & -> & Hpre & Hy & ->).
        exists (x :: pre), y, post, e3, (tr1 ++ tr3), tr4.
        split_and!; [done| |done|by rewrite app_assoc].
        simpl. rewrite bind_run, Hbody, Hpre. done.
      * intros (pre & y & post & e3 & tr3 & tr4 & Heq & Hpre & Hy & ->).
        destruct pre as [|x' pre]; simpl in *.
        { injection Heq as -> ->. injection Hpre as <- <-. congruence. }
        injection Heq as -> ->. rewrite bind_run, Hbody in Hpre.
        destruct (forEach pre body e1) as [[] e4 tr5|] eqn:Hpre'; [|done].
        injection Hpre as <- <-.
        assert (forEach (pre ++ y :: post) body e1 = Thrown msg e' (tr5 ++ tr4)) as ->.
        { apply IH. by exists pre, y, post, e4, tr5, tr4. }
        by rewrite app_assoc.
    + split.
      * intros [= <- <- <-]. exists [], x, xs, e, [], tr1. done.
      * intros (pre & y & post & e3 & tr3 & tr4 & Heq & Hpre & Hy & ->).
        destruct pre as [|x' pre]; simpl in *.
        { injection Heq as -> ->. injection Hpre as <- <-. by rewrite Hbody in Hy. }
        injection Heq as -> ->. by rewrite bind_run, Hbody in Hpre.
Qed.

(** [liftNodes] up to its loop: it throws what the loop over the path
    references of the matches throws. *)
Lemma liftNodes_loop E o e at_ m hs e0 msg e' tr :
  atOrSelection (lift_at o) (doc e) = Some at_ ->
  defaultMatch E (lift_match o) at_ (batch e) = Done m (batch e) [] ->
  arrayFrom (fun t : NodeEntry => pathRef (snd t))
    (Editor_nodes E (children (doc e)) at_ m (default ModeHighest (lift_mode o))
       (default false (lift_voids o))) (batch e) = Done hs e0 [] ->
  liftNodes E o e = Thrown msg e' tr
  <-> forEach hs (liftEntry E (default false (lift_voids o))) e0 = Thrown msg e' tr.
Proof.
  intros Hat Hmatch Hrefs. unfold liftNodes, withoutNormalizing. fold (batch e).
  rewrite query_bind. simpl. rewrite Hat.
  assert (match lift_match o with
          | Some m0 => pure m0
          | None => match at_ with
                    | AtPath p => matchPath E p
                    | _ => pure (MKind "block")
                    end
          end = defaultMatch E (lift_match o) at_) as Hdef.
  { unfold defaultMatch. by destruct (lift_match o), at_. }
  rewrite Hdef. erewrite bind_Done by exact Hmatch. rewrite after_nil.
  rewrite query_bind. simpl. erewrite bind_Done by exact Hrefs. rewrite after_nil.
  by destruct (forEach hs _ e0).
Qed.

(** C5.  In the loop of [liftNodes], a match whose reference resolves to a
    path of length less than two throws the depth error, before anything is
    emitted for it; a match at depth two or more never throws that error;
    the loop throws the depth error exactly when, the matches before it
    having been lifted, some match resolves to a path of length less than
    two; and [liftNodes] throws to its caller what its loop throws. *)
Theorem liftNodes_depth_error (E : Engine) (voids : bool) :
  (forall h (a : option Affinity) (path : Path) d n,
     length path < 2 ->
     liftEntry E voids h (mkEditor (withPathRef h a path d) n)
     = Thrown liftError (mkEditor (dropPathRef h (withPathRef h a path d)) n) [])
  /\ (forall h e msg e' tr (a : option Affinity) (path : Path),
        pathRefs (doc e) !! h = Some (a, path) ->
        2 <= length path ->
        liftEntry E voids h e = Thrown msg e' tr ->
        msg ≠ liftError)
  /\ (forall hs e e' tr,
        forEach hs (liftEntry E voids) e = Thrown liftError e' tr
        <-> exists pre h post e1 (a : option Affinity) (path : Path),
              hs = pre ++ h :: post
              /\ forEach pre (liftEntry E voids) e = Done tt e1 tr
              /\ pathRefs (doc e1) !! h = Some (a, path)
              /\ length path < 2
              /\ e' = mkEditor (dropPathRef h (doc e1)) (normalizing e1))
  /\ (forall o e at_ m hs e0 e' tr,
        default false (lift_voids o) = voids ->
        atOrSelection (lift_at o) (doc e) = Some at_ ->
        defaultMatch E (lift_match o) at_ (batch e) = Done m (batch e) [] ->
        arrayFrom (fun t : NodeEntry => pathRef (snd t))
          (Editor_nodes E (children (doc e)) at_ m (default ModeHighest (lift_mode o))
             voids) (batch e) = Done hs e0 [] ->
        liftNodes E o e = Thrown liftError e' tr
        <-> forEach hs (liftEntry E voids) e0 = Thrown liftError e' tr).
Proof.
  split_and!.
  - intros h a path d n Hlen. by apply liftEntry_shallow.
  - intros h. apply liftEntry_deep.
  - intros hs e e' tr. rewrite forEach_Thrown. split.
    + intros (pre & h & post & e1 & tr1 & tr2 & -> & Hpre & Hh & ->).
      apply liftEntry_liftError in Hh as (a & path & Hcur & Hlen & -> & ->).
      exists pre, h, post, e1, a, path. by rewrite app_nil_r.
    + intros (pre & h & post & e1 & a & path & -> & Hpre & Hcur & Hlen & ->).
      exists pre, h, post, e1, tr, [].
      split_and!; [done|done| |by rewrite app_nil_r].
      by apply (liftEntry_shallow_at E voids h e1 a path).
  - intros o e at_ m hs e0 e' tr <- Hat Hmatch Hrefs.
    by eapply liftNodes_loop.
Qed.

(** ** splitNodes at a Path *)




Lemma last_snoc_nonempty (p : Path) : p ≠ [] -> is_Some (last p).
Proof.
  intros Hp. destruct (last p) eqn:Hlast; [by eexists|].
  by apply last_None in Hlast.
Qed.





(** ** wrapNodes *)

(** [insertNodes] of one node at a Path that the void guard lets through
    applies one [insert_node], there. *)
Lemma insertNodes_path_one E node path parentPath voids e :
  PathI.parent path = Some parentPath ->
  (voids = true
   \/ Editor_match E (children (doc e)) (AtPath parentPath) (MKind "void") false = None) ->
  insertNodes E (One node)
    (mkInsertOptions (Some (AtPath path)) None None (Some voids)) e
  = Done tt
      (normalize E (mkEditor (applyDoc E (insert_node path node) (doc e))
                             (normalizing e)))
      [insert_node path node].
Proof.
  intros Hparent Hguard.
  unfold insertNodes, insertNodes_with, withoutNormalizing. simpl.
  rewrite !pure_bind. unfold insertAtPath.
  rewrite Hparent, orThrow_bind.
  apply parent_Some in Hparent as [Hp Hpp].
  destruct (last_snoc_nonempty path Hp) as [i Hi].
  rewrite Hi, orThrow_bind, query_bind. simpl.
  pose proof (removelast_snoc_last path i Hi) as Hsnoc. rewrite <- Hpp in Hsnoc.
  assert (negb voids
          && bool_decide (is_Some (Editor_match E (children (doc e))
                                     (AtPath parentPath) (MKind "void") false))
          = false) as ->.
  { destruct Hguard as [->| ->]; [done|].
    rewrite bool_decide_eq_false_2; [by destruct voids|]. by intros [? ?]. }
  simpl. by rewrite Hsnoc.
Qed.

Lemma wrapperPathOf_sibling (commonPath lastPath wrapperPath : Path) :
  wrapperPathOf commonPath lastPath = Some wrapperPath ->
  length lastPath = length commonPath + 1 ->
  PathI.next lastPath = Some wrapperPath.
Proof.
  unfold wrapperPathOf. intros Hw Hlen.
  destruct (PathI.next lastPath) as [q|] eqn:Hnext; [|done].
  simpl in Hw. injection Hw as <-.
  apply next_length in Hnext. by rewrite take_ge by lia.
Qed.

Lemma wrapRoot_no_matches E element at_ match_ mode voids rootPath e :
  (forall a, wrapArea E at_ rootPath e = Done (Some a) e [] ->
             Editor_nodes E (children (doc e)) a match_ mode voids = []) ->
  (exists a', wrapArea E at_ rootPath e = Done a' e []) ->
  wrapRoot E element at_ match_ mode voids rootPath e = Done tt e [].
Proof.
  intros Hnone [a' Harea]. unfold wrapRoot.
  erewrite bind_Done by exact Harea. rewrite after_nil.
  destruct a' as [a|]; [|done].
  rewrite query_bind, (Hnone a Harea). done.
Qed.

(** * Further properties of the transforms and of their callers *)

(** ** A transform with nowhere to act *)

Lemma batch_nothing E (fn : M unit) e :
  fn (batch e) = Done tt (batch e) [] ->
  withoutNormalizing E fn e = Done tt (normalize E e) [].
Proof.
  intros Hfn. unfold withoutNormalizing. fold (batch e). rewrite Hfn. simpl.
  by rewrite normalize_eta.
Qed.

(** X1.  Without [at] and without a selection, every transform that
    defaults its location to the selection returns normally, emits no
    operation and leaves the editor as it was, whatever its other
    options. *)
Theorem transforms_without_location (E : Engine) (e : Editor) :
  selection (doc e) = None ->
  (forall m md to v,
     moveNodes E (mkMoveOptions None m md to v) e = Done tt (normalize E e) [])
  /\ (forall m md h v,
        removeNodes E (mkRemoveOptions None m md h v) e = Done tt (normalize E e) [])
  /\ (forall props m md h s v,
        setNodes E props (mkSetOptions None m md h s v) e = Done tt (normalize E e) [])
  /\ (forall keys m md s v,
        unsetNodes E keys (mkUnsetOptions None m md s v) e = Done tt (normalize E e) [])
  /\ (forall m md v,
        liftNodes E (mkLiftOptions None m md v) e = Done tt (normalize E e) [])
  /\ (forall m h v,
        mergeNodes E (mkMergeOptions None m h v) e = Done tt (normalize E e) [])
  /\ (forall m a h v,
        splitNodes E (mkSplitOptions None m a h v) e = Done tt (normalize E e) [])
  /\ (forall m md s v,
        unwrapNodes E (mkUnwrapOptions None m md s v) e = Done tt (normalize E e) [])
  /\ (forall element m md s v,
        wrapNodes E element (mkWrapOptions None m md s v) e = Done tt (normalize E e) []).
Proof.
  intros Hsel.
  assert (forall o : option Location, o = None -> atOrSelection o (doc (batch e)) = None) as Hat.
  { intros o ->. simpl. by rewrite Hsel. }
  split_and!; intros.
  - apply batch_nothing. rewrite query_bind. by rewrite Hat.
  - apply batch_nothing. rewrite query_bind. by rewrite Hat.
  - apply batch_nothing. rewrite query_bind. by rewrite Hat.
  - apply batch_nothing. rewrite query_bind. by rewrite Hat.
  - apply batch_nothing. rewrite query_bind. rewrite Hat by done.
    by destruct m.
  - apply batch_nothing. rewrite query_bind. by rewrite Hat.
  - apply batch_nothing. rewrite query_bind. by rewrite Hat.
  - apply batch_nothing. rewrite query_bind. by rewrite Hat.
  - apply batch_nothing. rewrite query_bind. by rewrite Hat.
Qed.

(** X2.  [insertNodes] with an empty array of nodes does nothing, before it
    even looks at its location. *)
Theorem insertNodes_empty_array (E : Engine) (o : InsertOptions) (e : Editor) :
  insertNodes E (Many []) o e = Done tt (normalize E e) [].
Proof. by apply batch_nothing. Qed.

(** ** insertNodes at a Path *)

Lemma insertLoop_run E parentPath nodes : forall index e,
  exists e', insertLoop E parentPath index nodes e
             = Done tt e' (insertOps parentPath index nodes)
             /\ normalizing e' = normalizing e.
Proof.
  induction nodes as [|node rest IH]; intros index e; simpl.
  - by exists e.
  - rewrite apply_bind.
    destruct (IH (S index)
                (normalize E (mkEditor (applyDoc E (insert_node (parentPath ++ [index]) node)
                                          (doc e)) (normalizing e))))
      as (e' & -> & Hn).
    exists e'. split.
    + unfold insertOps. simpl. rewrite Nat.add_0_r. do 2 f_equal.
      apply imap_ext. intros k x _. simpl. do 3 f_equal. lia.
    + rewrite Hn. unfold normalize. simpl. by destruct (normalizing e).
Qed.

(** X3.  At a Path location whose parent is not inside a void (or with
    [voids] set), [insertNodes] returns normally and emits exactly one
    [insert_node] per node, in the order of the array, at consecutive
    indices starting from the last index of the path: the first node lands
    at the path itself. *)
Theorem insertNodes_at_path_consecutive (E : Engine) (nodes : NodeArg)
    (m : option NodeMatch) (h : option bool) (voids : bool)
    (path parentPath : Path) (index : nat) (e : Editor) :
  PathI.parent path = Some parentPath ->
  last path = Some index ->
  (voids = true
   \/ Editor_match E (children (doc e)) (AtPath parentPath) (MKind "void") false = None) ->
  threw (insertNodes E nodes (mkInsertOptions (Some (AtPath path)) m h (Some voids)) e)
    = false
  /\ emitted (insertNodes E nodes (mkInsertOptions (Some (AtPath path)) m h (Some voids)) e)
     = insertOps parentPath index (asArray nodes).
Proof.
  intros Hparent Hlast Hguard.
  unfold insertNodes, insertNodes_with, withoutNormalizing. simpl.
  destruct (asArray nodes) as [|node rest] eqn:Hnodes; [done|].
  rewrite !pure_bind. unfold insertAtPath.
  rewrite Hparent, orThrow_bind, Hlast, orThrow_bind, query_bind. simpl.
  assert (negb voids
          && bool_decide (is_Some (Editor_match E (children (doc e))
                                     (AtPath parentPath) (MKind "void") false))
          = false) as ->.
  { destruct Hguard as [->| ->]; [done|].
    rewrite bool_decide_eq_false_2; [by destruct voids|]. by intros [? ?]. }
  destruct (insertLoop_run E parentPath (node :: rest) index
              (mkEditor (doc e) false)) as (e' & Hrun & _).
  rewrite (bind_Done _ _ _ _ _ _ Hrun). simpl.
  by rewrite app_nil_r.
Qed.

(** ** moveNodes and its destination *)

Lemma arrayFrom_pathRef_run (targets : list NodeEntry) : forall e,
  exists hs e',
    arrayFrom (fun t : NodeEntry => pathRef (snd t)) targets e = Done hs e' []
    /\ length hs = length targets
    /\ normalizing e' = normalizing e
    /\ children (doc e') = children (doc e)
    /\ nextRef (doc e) <= nextRef (doc e')
    /\ forall h, h < nextRef (doc e) -> pathRefs (doc e') !! h = pathRefs (doc e) !! h.
Proof.
  induction targets as [|t targets IH]; intros e; simpl.
  - exists [], e. by split_and!.
  - rewrite pathRef_bind.
    destruct (IH (mkEditor (bumpRef (withPathRef (nextRef (doc e)) (Some Forward)
                                       (snd t) (doc e))) (normalizing e)))
      as (hs & e' & Hrun & Hlen & Hn & Hc & Hnext & Hrefs).
    exists (nextRef (doc e) :: hs), e'.
    rewrite (bind_Done _ _ _ _ _ _ Hrun). simpl in *. split_and!; try done.
    + by rewrite Hlen.
    + lia.
    + intros h Hh. rewrite Hrefs by lia. apply lookup_insert_ne. lia.
Qed.

Lemma forEach_cons {A} (x : A) (xs : list A) (body : A -> M unit) :
  forEach (x :: xs) body = (body x;; forEach xs body).
Proof. reflexivity. Qed.

(** One turn of the loop of [moveNodes], run. *)
Lemma moveEntry_run E toRef h e :
  moveEntry E toRef h e
  = let e1 := mkEditor (dropPathRef h (doc e)) (normalizing e) in
    match snd <$> pathRefs (doc e) !! h with
    | None => Thrown "TypeError: Cannot read property 'length' of null" e1 []
    | Some path =>
        if bool_decide (length path ≠ 0) then
          match snd <$> delete h (pathRefs (doc e)) !! toRef with
          | None => Thrown "TypeError: newPath is null" e1 []
          | Some newPath =>
              Done tt (normalize E (mkEditor (applyDoc E (move_node path newPath) (doc e1))
                                      (normalizing e)))
                   [move_node path newPath]
          end
        else Done tt e1 []
    end.
Proof.
  unfold moveEntry.
  rewrite pathRef_unref_bind, pathRef_current_bind, orThrow_bind. simpl.
  destruct (snd <$> pathRefs (doc e) !! h) as [path|]; [|done].
  case_bool_decide; [|done].
  rewrite orThrow_bind.
  by destruct (snd <$> delete h (pathRefs (doc e)) !! toRef).
Qed.

Lemma moveLoop_dead E toRef (hs : list nat) : forall e,
  pathRefs (doc e) !! toRef = None ->
  emitted (forEach hs (moveEntry E toRef) e) = [].
Proof.
  induction hs as [|h hs IH]; intros e Hdead; [done|].
  rewrite forEach_cons, emitted_bind, moveEntry_run. simpl.
  assert (delete h (pathRefs (doc e)) !! toRef = None) as Hdead'.
  { apply lookup_delete_None. by right. }
  rewrite Hdead'. simpl.
  destruct (snd <$> pathRefs (doc e) !! h) as [path|]; [|done].
  case_bool_decide; [done|]. by apply IH.
Qed.

Lemma moveLoop_tracked E toRef (hs : list nat) : forall e to,
  normalizing e = false ->
  pathRefs (doc e) !! toRef = Some (Some Forward, to) ->
  trackedMoves E to (emitted (forEach hs (moveEntry E toRef) e)).
Proof.
  induction hs as [|h hs IH]; intros e to Hflag Hlive; [done|].
  rewrite forEach_cons, emitted_bind, moveEntry_run. simpl.
  destruct (snd <$> pathRefs (doc e) !! h) as [path|] eqn:Hh; [|done].
  destruct (decide (h = toRef)) as [->|Hne].
  - rewrite lookup_delete_eq. simpl.
    case_bool_decide; [done|].
    rewrite moveLoop_dead; [done|]. simpl. apply lookup_delete_eq.
  - rewrite lookup_delete_ne, Hlive by done. simpl.
    case_bool_decide.
    + split; [by exists path|].
      unfold normalize. simpl. rewrite Hflag.
      set (e2 := mkEditor _ false).
      assert (pathRefs (doc e2) !! toRef
              = pair (Some Forward) <$> transformPath E (move_node path to) (Some Forward) to)
        as Hto.
      { simpl. unfold transformRefs. rewrite lookup_omap.
        rewrite lookup_delete_ne, Hlive by done. done. }
      destruct (transformPath E (move_node path to) (Some Forward) to) as [to'|].
      * by apply IH.
      * done.
    + apply IH; [done|]. simpl. by rewrite lookup_delete_ne.
Qed.

Lemma defaultMatch_run E (mo : option NodeMatch) at_ e :
  (exists m, defaultMatch E mo at_ e = Done m e []
             /\ forall m', mo = Some m' -> m = m')
  \/ (exists msg, defaultMatch E mo at_ e = Thrown msg e []).
Proof.
  unfold defaultMatch. destruct mo as [m|].
  - left. exists m. split; [done|]. by intros ? [= ->].
  - destruct at_; try (left; eexists; by split).
    unfold matchPath. rewrite must_bind.
    destruct (Editor_node E (children (doc e)) p) as [[n q]|].
    + left. eexists. by split.
    + right. by eexists.
Qed.

(** [moveNodes] up to its loop. *)
Lemma moveNodes_loop E o e :
  emitted (moveNodes E o e) = []
  \/ exists hs e0 at_ m,
       atOrSelection (mv_at o) (doc e) = Some at_
       /\ length hs = length (Editor_nodes E (children (doc e)) at_ m
                                (default ModeHighest (mv_mode o))
                                (default false (mv_voids o)))
       /\ defaultMatch E (mv_match o) at_ (batch e) = Done m (batch e) []
       /\ normalizing e0 = false
       /\ pathRefs (doc e0) !! nextRef (doc e) = Some (Some Forward, mv_to o)
       /\ emitted (moveNodes E o e)
          = emitted (forEach hs (moveEntry E (nextRef (doc e))) e0).
Proof.
  unfold moveNodes. rewrite emitted_withoutNormalizing.
  rewrite query_bind. simpl.
  destruct (atOrSelection (mv_at o) (doc e)) as [at_|] eqn:Hat; [|by left].
  rewrite emitted_bind.
  destruct (defaultMatch_run E (mv_match o) at_ (batch e))
    as [(m & Hm & _)|(msg & ->)]; [|by left].
  rewrite Hm.
  simpl. rewrite pathRef_bind, query_bind. simpl.
  set (e2 := mkEditor _ false).
  destruct (arrayFrom_pathRef_run
              (Editor_nodes E (children (doc e)) at_ m (default ModeHighest (mv_mode o))
                 (default false (mv_voids o))) e2)
    as (hs & e0 & Hrun & Hlen & Hn & Hc & Hnext & Hrefs).
  right. exists hs, e0, at_, m. split_and!; try done.
  - rewrite Hrefs by (simpl; lia). simpl. apply lookup_insert_eq.
  - rewrite (bind_Done _ _ _ _ _ _ Hrun), after_nil, emitted_bind.
    destruct (forEach hs _ e0) as [[] e3 tr3|]; [|done].
    simpl. by rewrite app_nil_r.
Qed.

(** X4.  Every operation [moveNodes] emits is a [move_node] to the tracked
    destination: the first goes to [to] itself, each later one to the path
    the operations before it have shifted [to] to. *)
Theorem moveNodes_tracks_destination (E : Engine) (o : MoveOptions) (e : Editor) :
  trackedMoves E (mv_to o) (emitted (moveNodes E o e)).
Proof.
  destruct (moveNodes_loop E o e) as [->|(hs & e0 & at_ & m & _ & _ & _ & Hn & Hto & ->)];
    [done|].
  by apply moveLoop_tracked.
Qed.

(** ** One operation per match *)

Lemma forEach_bound {A} (body : A -> M unit) (xs : list A) :
  (forall x e, length (emitted (body x e)) <= 1) ->
  forall e, length (emitted (forEach xs body e)) <= length xs.
Proof.
  intros Hbody. induction xs as [|x xs IH]; intros e; [done|].
  rewrite forEach_cons, emitted_bind. specialize (Hbody x e).
  destruct (body x e) as [[] e1 tr1|]; simpl in *; [|lia].
  rewrite length_app. specialize (IH e1). lia.
Qed.

Lemma refLoop_bound (body : nat -> M unit) (targets : list NodeEntry) e :
  (forall h e, length (emitted (body h e)) <= 1) ->
  length (emitted ((arrayFrom (fun t : NodeEntry => pathRef (snd t)) targets
                    ≫= fun pathRefs => forEach pathRefs body) e))
  <= length targets.
Proof.
  intros Hbody.
  destruct (arrayFrom_pathRef_run targets e) as (hs & e0 & Hrun & Hlen & _).
  rewrite (bind_Done _ _ _ _ _ _ Hrun), after_nil, <- Hlen.
  by apply forEach_bound.
Qed.

Lemma removeEntry_bound E h e : length (emitted (removeEntry E h e)) <= 1.
Proof.
  unfold removeEntry. rewrite pathRef_unref_bind.
  destruct (snd <$> pathRefs (doc e) !! h) as [path|]; [|simpl; lia].
  rewrite must_bind. simpl.
  destruct (Editor_node E (children (doc e)) path) as [[node q]|]; simpl; lia.
Qed.

(** X5.  [moveNodes] emits at most one operation per match of its
    location, whether [match] is given or defaulted: the matches are fixed
    before the first move, and a match is moved once or passed over.
    Without a location, or when the default [match] cannot be found, it
    emits nothing. *)
Theorem moveNodes_one_move_per_match (E : Engine) (o : MoveOptions) (e : Editor) :
  length (emitted (moveNodes E o e))
  <= match atOrSelection (mv_at o) (doc e) with
     | None => 0
     | Some at_ =>
         match defaultMatch E (mv_match o) at_ (batch e) with
         | Done m _ _ =>
             length (Editor_nodes E (children (doc e)) at_ m
                       (default ModeHighest (mv_mode o)) (default false (mv_voids o)))
         | Thrown _ _ _ => 0
         end
     end.
Proof.
  destruct (moveNodes_loop E o e)
    as [->|(hs & e0 & at_ & m & Hat & Hlen & Hm & _ & _ & ->)]; [simpl; lia|].
  rewrite Hat, Hm, <- Hlen. apply forEach_bound.
  intros h e1. rewrite moveEntry_run. simpl.
  destruct (snd <$> pathRefs (doc e1) !! h); [|simpl; lia].
  case_bool_decide; [|simpl; lia].
  destruct (snd <$> delete h (pathRefs (doc e1)) !! nextRef (doc e)); simpl; lia.
Qed.

(** X6.  [removeNodes] emits nothing but [remove_node] operations, and at
    most one per match of its location, whether [match] is given or
    defaulted; the location is the one given, a Range unhung unless
    [hanging] is set.  Without a location, or when the default [match]
    cannot be found, it emits nothing. *)
Theorem removeNodes_only_removes (E : Engine) (o : RemoveOptions) (e : Editor) :
  Forall removesOnly (emitted (removeNodes E o e))
  /\ length (emitted (removeNodes E o e))
     <= match atOrSelection (rm_at o) (doc e) with
        | None => 0
        | Some at_ =>
            match defaultMatch E (rm_match o) at_ (batch e) with
            | Done m _ _ =>
                length (Editor_nodes E (children (doc e))
                          match at_ with
                          | AtRange r =>
                              if negb (default false (rm_hanging o))
                              then AtRange (Editor_unhangRange E (children (doc e)) r)
                              else at_
                          | _ => at_
                          end
                          m ModeHighest (default false (rm_voids o)))
            | Thrown _ _ _ => 0
            end
        end.
Proof.
  split; [apply Emits_removeNodes|].
  unfold removeNodes. rewrite emitted_withoutNormalizing.
  rewrite query_bind. simpl.
  destruct (atOrSelection (rm_at o) (doc e)) as [at_|]; [|simpl; lia].
  rewrite emitted_bind.
  destruct (defaultMatch_run E (rm_match o) at_ (batch e))
    as [(m & -> & _)|(msg & ->)]; [|simpl; lia].
  simpl.
  assert (match rm_mode o with
          | Some ModeAll | None => ModeHighest
          | Some m0 => m0
          end = ModeHighest) as ->.
  { by destruct (rm_mode o) as [[]|]. }
  destruct at_ as [p|pt|r]; try destruct (negb (default false (rm_hanging o)));
    rewrite ?pure_bind, ?query_bind; simpl;
    apply refLoop_bound, removeEntry_bound.
Qed.

(** X7.  The [mode] option of [removeNodes] has no effect: ['all'] is
    replaced by ['highest'], which is also the default. *)
Theorem removeNodes_ignores_mode (E : Engine) (at_ : option Location)
    (m : option NodeMatch) (mode : option Mode) (hanging voids : option bool)
    (e : Editor) :
  removeNodes E (mkRemoveOptions at_ m mode hanging voids) e
  = removeNodes E (mkRemoveOptions at_ m None hanging voids) e.
Proof. unfold removeNodes. simpl. by destruct mode as [[]|]. Qed.

(** ** splitNodes: locations and references *)

(** X9.  When nothing matches at the point, [splitNodes] returns normally
    and emits nothing, but the backward point reference it has created is
    not released: it stays registered in the editor. *)
Theorem splitNodes_no_match_keeps_reference (E : Engine) (m : option NodeMatch)
    (always : option bool) (height : option Z) (voids : option bool)
    (pt : Point) (e : Editor) :
  Editor_match E (children (doc e)) (AtPoint pt) (default (MKind "block") m)
    (default false voids) = None ->
  splitNodes E (mkSplitOptions (Some (AtPoint pt)) m always height voids) e
  = Done tt
      (normalize E
         (mkEditor (bumpRef (withPointRef (nextRef (doc e)) (Some Backward) pt (doc e)))
                   (normalizing e))) [].
Proof.
  intros Hnone. unfold splitNodes, withoutNormalizing.
  rewrite query_bind. simpl. rewrite !pure_bind.
  unfold splitPoint. rewrite pointRef_bind, query_bind. simpl.
  by rewrite Hnone.
Qed.

(** X10.  A collapsed Range location stands for its anchor: [splitNodes],
    and with [hanging] set [mergeNodes] and [insertNodes], run on it exactly
    as on the Point. *)
Theorem collapsed_range_is_its_anchor (E : Engine) (r : Range) (e : Editor) :
  RangeI.isCollapsed r = true ->
  (forall m a h v,
     splitNodes E (mkSplitOptions (Some (AtRange r)) m a h v) e
     = splitNodes E (mkSplitOptions (Some (AtPoint (anchor r))) m a h v) e)
  /\ (forall m v,
        mergeNodes E (mkMergeOptions (Some (AtRange r)) m (Some true) v) e
        = mergeNodes E (mkMergeOptions (Some (AtPoint (anchor r))) m (Some true) v) e)
  /\ (forall nodes m v,
        insertNodes E nodes (mkInsertOptions (Some (AtRange r)) m (Some true) v) e
        = insertNodes E nodes (mkInsertOptions (Some (AtPoint (anchor r))) m (Some true) v) e).
Proof.
  intros Hc. split_and!; intros.
  - unfold splitNodes, withoutNormalizing. rewrite !query_bind. simpl.
    unfold deleteRange. rewrite Hc, bind_assoc, !pure_bind. simpl.
    by rewrite !pure_bind.
  - unfold mergeNodes, withoutNormalizing. rewrite !query_bind. simpl.
    unfold mergeDefaultMatch. simpl.
    destruct m as [m|]; rewrite !pure_bind; unfold mergeLocation; simpl;
      rewrite ?bind_assoc, !pure_bind, Hc, !pure_bind; done.
  - unfold insertNodes, insertNodes_with, withoutNormalizing. simpl.
    destruct (asArray nodes) as [|node rest]; [done|].
    rewrite !pure_bind. simpl. rewrite ?bind_assoc, !pure_bind, Hc.
    by rewrite !pure_bind.
Qed.

(** ** What splitNodes emits *)

Lemma Emits_insertLoop E parentPath nodes : forall index,
  Emits insertsOnly (insertLoop E parentPath index nodes).
Proof.
  induction nodes as [|node rest IH]; intros index; simpl.
  - apply Emits_pure.
  - apply Emits_bind; [by apply Emits_apply|]. intros _. apply IH.
Qed.

Lemma Emits_insertAtPath E nodes voids p :
  Emits insertsOnly (insertAtPath E nodes voids false p).
Proof. unfold insertAtPath. emits. apply Emits_insertLoop. Qed.

Lemma Emits_insertNodes_at_path E split nodes m h v p :
  Emits insertsOnly
    (insertNodes_with E split nodes (mkInsertOptions (Some (AtPath p)) m h v)).
Proof.
  unfold insertNodes_with. simpl.
  apply Emits_withoutNormalizing.
  destruct (asArray nodes) as [|node rest]; [apply Emits_pure|].
  intros e. rewrite !pure_bind. apply Emits_insertAtPath.
Qed.

Lemma Emits_splitLoop E levels highestPath always voids beforeRef :
  forall position target,
  Emits splitsOrInserts
    (splitLoop E levels highestPath always voids beforeRef position target).
Proof.
  induction levels as [|[node path] levels IH]; intros position target; simpl.
  - apply Emits_pure.
  - emits. by apply Emits_apply.
Qed.

Lemma Emits_splitPoint E l voids at_ match_ height always :
  Emits splitsOrInserts (splitPoint E (Some l) voids at_ match_ height always).
Proof.
  unfold splitPoint. simpl. emits;
    first [ apply Emits_splitLoop
          | eapply Emits_mono; [|apply Emits_insertNodes_at_path];
            by intros [] ].
Qed.

Lemma Emits_splitNodes_at E l m always height voids :
  isRange l = false ->
  Emits splitsOrInserts (splitNodes E (mkSplitOptions (Some l) m always height voids)).
Proof.
  intros Hl. unfold splitNodes. simpl. apply Emits_withoutNormalizing.
  apply Emits_query_bind. intros d. simpl.
  destruct l as [p|pt|r]; [..|done]; emits; apply Emits_splitPoint.
Qed.

(** X11.  At a Path or a Point location, [splitNodes] emits only
    [split_node] operations and the [insert_node] of an empty text after an
    inline void: it never moves, removes, merges or sets a node, and never
    touches the text or the selection. *)
Theorem splitNodes_emits_splits (E : Engine) (l : Location) (m : option NodeMatch)
    (always : option bool) (height : option Z) (voids : option bool) (e : Editor) :
  isRange l = false ->
  Forall splitsOrInserts
    (emitted (splitNodes E (mkSplitOptions (Some l) m always height voids) e)).
Proof. intros Hl. by apply Emits_splitNodes_at. Qed.

(** X12.  With [always] set, as it is for a Path location and next to a
    void, the splits of the loop of [splitNodes] climb the tree as a chain:
    the first split has the position and target the loop starts with, every
    later one takes the previous position as its target and splits its node
    right after the index of the node split before. *)
Theorem splitLoop_always_chain (E : Engine) (levels : list NodeEntry)
    (highestPath : Path) (voids : bool) (beforeRef : nat) :
  forall (position : Num) (target : option Num) (e : Editor),
  splitChain position target
    (emitted (splitLoop E levels highestPath true voids beforeRef position target e)).
Proof.
  induction levels as [|[node path] levels IH]; intros position target e; [done|].
  simpl.
  destruct (bool_decide (length path < length highestPath)
            || bool_decide (length path = 0)
            || negb voids && NodeI.isElement node && isVoid E node) eqn:Hbreak; [done|].
  rewrite pointRef_current_bind, orThrow_bind.
  destruct (snd <$> pointRefs (doc e) !! beforeRef) as [point|]; [|done].
  rewrite !query_bind. simpl. rewrite apply_bind, emitted_after, orThrow_bind.
  destruct (last path) as [i|] eqn:Hlast.
  - simpl. exists path, i, (NodeI.rest node). split_and!; [done..|]. apply IH.
  - apply last_None in Hlast as ->. simpl in Hbreak.
    by rewrite orb_true_r in Hbreak.
Qed.

Lemma splitLoop_edges E (levels : list NodeEntry) highestPath voids beforeRef a pt e :
  pointRefs (doc e) !! beforeRef = Some (a, pt) ->
  Forall (fun lv : NodeEntry => Editor_isEdge E (children (doc e)) pt (snd lv) = true)
    (retained E highestPath voids levels) ->
  forall position target,
  splitLoop E levels highestPath false voids beforeRef position target e
  = Done tt e [].
Proof.
  intros Href. induction levels as [|[node path] levels IH]; intros Hedges position target;
    [done|].
  simpl in *.
  destruct (bool_decide (length path < length highestPath)
            || bool_decide (length path = 0)
            || negb voids && NodeI.isElement node && isVoid E node) eqn:Hbreak; [done|].
  apply Forall_cons in Hedges as [Hedge Hedges]. simpl in Hedge.
  rewrite pointRef_current_bind, Href, orThrow_bind. simpl.
  rewrite !query_bind. rewrite Hedge. simpl.
  rewrite pure_bind, orThrow_bind.
  destruct (last path) as [i|] eqn:Hlast; [by apply IH|].
  apply last_None in Hlast as ->. simpl in Hbreak.
  by rewrite orb_true_r in Hbreak.
Qed.

Lemma slice0_all {A} (xs : list A) : slice0 xs (len xs - 0) = xs.
Proof.
  unfold slice0, len. rewrite Z.sub_0_r.
  destruct (Z.ltb_spec (Z.of_nat (length xs)) 0); [lia|].
  rewrite Nat2Z.id. apply firstn_all.
Qed.

(** X13.  Unless [always] is set, splitting at a point that lies at an
    edge of every level the loop works on, from the lowest up to the
    highest match, is not a split at all: [splitNodes] emits no operation,
    releases both its point references and leaves the document as it was.
    The levels above the match do not count. *)
Theorem splitNodes_at_edges_is_noop (E : Engine) (m : option NodeMatch)
    (always voids : option bool) (pt : Point) (highestNode : Node)
    (highestPath : Path) (e : Editor) :
  default false always = false ->
  Editor_match E (children (doc e)) (AtPoint pt) (default (MKind "block") m)
    (default false voids) = Some (highestNode, highestPath) ->
  Editor_match E (children (doc e)) (AtPoint pt) (MKind "void") false = None ->
  Forall (fun lv : NodeEntry => Editor_isEdge E (children (doc e)) pt (snd lv) = true)
    (retained E highestPath (default false voids)
       (Editor_levels E (children (doc e)) (path_of pt) true (default false voids))) ->
  splitNodes E (mkSplitOptions (Some (AtPoint pt)) m always None voids) e
  = Done tt
      (normalize E
         (mkEditor
            (dropPointRef (S (nextRef (doc e)))
               (dropPointRef (nextRef (doc e))
                  (bumpRef (withPointRef (S (nextRef (doc e))) (Some Forward) pt
                     (bumpRef (withPointRef (nextRef (doc e)) (Some Backward) pt
                                 (doc e)))))))
            (normalizing e))) [].
Proof.
  intros Halways Hhighest Hvoid Hedges.
  unfold splitNodes, withoutNormalizing.
  rewrite query_bind. simpl. rewrite !pure_bind. rewrite Halways.
  unfold splitPoint. rewrite pointRef_bind, query_bind. simpl.
  rewrite Hhighest.
  rewrite query_bind. simpl. rewrite Hvoid, pure_bind.
  rewrite pointRef_bind. simpl. rewrite query_bind. simpl.
  rewrite slice0_all.
  erewrite bind_Done; cycle 1.
  { eapply splitLoop_edges; [|exact Hedges]. simpl.
    rewrite lookup_insert_ne by lia. apply lookup_insert_eq. }
  rewrite after_nil, pure_bind, pointRef_unref_bind, pointRef_unref_bind.
  done.
Qed.

(** ** What liftNodes, unwrapNodes and wrapNodes emit *)

Lemma Emits_liftEntry E voids h : Emits liftsOnly (liftEntry E voids h).
Proof.
  unfold liftEntry. emits;
    first [ eapply Emits_mono; [|apply Emits_moveNodes]; by intros []
          | eapply Emits_mono; [|apply Emits_removeNodes]; by intros []
          | eapply Emits_mono; [|by apply Emits_splitNodes_at]; by intros [] ].
Qed.

Lemma Emits_liftNodes E o : Emits liftsOnly (liftNodes E o).
Proof. unfold liftNodes. emits. apply Emits_liftEntry. Qed.

(** X14.  [liftNodes] restructures and nothing else: every operation it
    emits is a [move_node] of a node other than the root, a [remove_node],
    a [split_node] or an [insert_node]; it never merges or sets a node and
    never touches the text or the selection. *)
Theorem liftNodes_emits_structure (E : Engine) (o : LiftOptions) (e : Editor) :
  Forall liftsOnly (emitted (liftNodes E o e)).
Proof. apply Emits_liftNodes. Qed.

(** X15.  The same holds of [unwrapNodes], which lifts the children of
    every match: whatever its location, also a Range with [split], it emits
    only moves of nodes other than the root, removals, splits and
    insertions. *)
Theorem unwrapNodes_emits_structure (E : Engine) (o : UnwrapOptions) (e : Editor) :
  Forall liftsOnly (emitted (unwrapNodes E o e)).
Proof.
  revert e. change (Emits liftsOnly (unwrapNodes E o)).
  unfold unwrapNodes, unwrapEntry. emits; apply Emits_liftNodes.
Qed.

(** X16.  Without [split], [wrapNodes] emits only the [insert_node] of the
    wrapper and [move_node] operations of nodes other than the root: the
    wrapped nodes are moved, never removed and inserted again. *)
Theorem wrapNodes_emits_insert_and_moves (E : Engine) (element : Node)
    (o : WrapOptions) (e : Editor) :
  default false (wrap_split o) = false ->
  Forall wrapsOnly (emitted (wrapNodes E element o e)).
Proof.
  intros Hsplit. revert e. change (Emits wrapsOnly (wrapNodes E element o)).
  unfold wrapNodes, wrapRoot, wrapArea. rewrite Hsplit.
  emits;
    first [ eapply Emits_mono; [|apply Emits_moveNodes]; by intros []
          | eapply Emits_mono; [|apply Emits_insertNodes_at_path]; by intros [] ].
Qed.

(** ** Lifting the first or the last child *)

Lemma moveNodes_path_single E voids path to node q x e :
  path ≠ [] ->
  Editor_node E (children (doc e)) path = Some (node, q) ->
  Editor_nodes E (children (doc e)) (AtPath path) (MIs node) ModeHighest voids
    = [(x, path)] ->
  threw (moveNodes E (mkMoveOptions (Some (AtPath path)) None None to (Some voids)) e)
    = false
  /\ emitted (moveNodes E (mkMoveOptions (Some (AtPath path)) None None to (Some voids)) e)
     = [move_node path to].
Proof.
  intros Hpath Hnode Hnodes. unfold moveNodes, withoutNormalizing.
  rewrite query_bind. simpl.
  unfold matchPath. rewrite bind_assoc, must_bind. simpl. rewrite Hnode.
  rewrite !pure_bind, pathRef_bind, query_bind. simpl. rewrite Hnodes. simpl.
  rewrite !bind_assoc, pathRef_bind, !bind_assoc, !pure_bind.
  rewrite forEach_cons, !bind_assoc, bind_run, moveEntry_run. simpl.
  rewrite lookup_insert_eq. simpl.
  rewrite bool_decide_eq_true_2 by (by destruct path).
  rewrite lookup_delete_ne, lookup_insert_ne, lookup_insert_eq by lia. done.
Qed.

Lemma liftEntry_first_or_last E voids h e (a : option Affinity) (path pp : Path)
    parent parentPath index :
  pathRefs (doc e) !! h = Some (a, path) ->
  2 <= length path ->
  PathI.parent path = Some pp ->
  last path = Some index ->
  Editor_node E (children (doc e)) pp = Some (parent, parentPath) ->
  length (NodeI.children parent) ≠ 1 ->
  let e1 := mkEditor (dropPathRef h (doc e)) (normalizing e) in
  let move to_ :=
    moveNodes E (mkMoveOptions (Some (AtPath path)) None None to_ (Some voids)) in
  (index = 0 -> liftEntry E voids h e = move parentPath e1)
  /\ (forall after_, index ≠ 0 -> index = length (NodeI.children parent) - 1 ->
        PathI.next parentPath = Some after_ ->
        liftEntry E voids h e = move after_ e1).
Proof.
  intros Hcur Hlen Hpp Hlast Hparent Hmany e1 move.
  assert (liftEntry E voids h e
          = (if bool_decide (index = 0) then move parentPath
             else if bool_decide (index = length (NodeI.children parent) - 1)
                  then toPath ← orThrow "Cannot get the next path of a root path"
                                        (PathI.next parentPath);
                       move toPath
                  else
                    splitPath ← orThrow "Cannot get the next path of a root path"
                                        (PathI.next path);
                    toPath ← orThrow "Cannot get the next path of a root path"
                                     (PathI.next parentPath);
                    splitNodes E (mkSplitOptions (Some (AtPath splitPath)) None None None
                                    (Some voids));;
                    move toPath) e1) as ->.
  { unfold liftEntry. rewrite pathRef_unref_bind, Hcur. simpl. rewrite pure_bind.
    rewrite bool_decide_eq_false_2 by lia.
    rewrite Hpp, orThrow_bind, must_bind. simpl. rewrite Hparent.
    rewrite Hlast, orThrow_bind.
    by rewrite (bool_decide_eq_false_2 (length (NodeI.children parent) = 1)) by done. }
  split.
  - intros ->. done.
  - intros after_ Hnz Hend Hnext.
    rewrite bool_decide_eq_false_2, bool_decide_eq_true_2 by done.
    by rewrite Hnext, orThrow_bind.
Qed.

(** X17.  Lifting the node at a path that is the first of several
    children moves it to the path of its parent, so that it comes to stand
    before the parent; lifting the last of several children moves it to the
    path after the parent.  Either way [liftNodes] returns normally and the
    move is the only operation. *)
Theorem liftNodes_first_or_last_child (E : Engine) (voids : bool)
    (path pp parentPath q : Path) (index : nat) (node x parent : Node) (e : Editor) :
  2 <= length path ->
  PathI.parent path = Some pp ->
  last path = Some index ->
  Editor_node E (children (doc e)) path = Some (node, q) ->
  Editor_nodes E (children (doc e)) (AtPath path) (MIs node) ModeHighest voids
    = [(x, path)] ->
  Editor_node E (children (doc e)) pp = Some (parent, parentPath) ->
  length (NodeI.children parent) ≠ 1 ->
  let lift := liftNodes E (mkLiftOptions (Some (AtPath path)) None None (Some voids)) e in
  (index = 0 ->
   threw lift = false /\ emitted lift = [move_node path parentPath])
  /\ (forall after_, index ≠ 0 -> index = length (NodeI.children parent) - 1 ->
        PathI.next parentPath = Some after_ ->
        threw lift = false /\ emitted lift = [move_node path after_]).
Proof.
  intros Hlen Hpp Hlast Hnode Hnodes Hparent Hmany lift.
  assert (path ≠ []) as Hpath by (intros ->; simpl in Hlen; lia).
  set (e0 := mkEditor (bumpRef (withPathRef (nextRef (doc e)) (Some Forward) path (doc e)))
                      false).
  assert (lift = match (liftEntry E voids (nextRef (doc e));; pure tt) e0 with
                 | Done _ e' tr =>
                     Done tt (normalize E (mkEditor (doc e') (normalizing e))) tr
                 | Thrown msg e' tr => Thrown msg e' tr
                 end) as Hlift.
  { unfold lift, liftNodes, withoutNormalizing.
    rewrite query_bind. simpl.
    unfold matchPath. rewrite bind_assoc, must_bind. simpl. rewrite Hnode.
    rewrite !pure_bind, query_bind. simpl. rewrite Hnodes. simpl.
    by rewrite !bind_assoc, pathRef_bind, !bind_assoc, !pure_bind. }
  destruct (liftEntry_first_or_last E voids (nextRef (doc e)) e0 (Some Forward)
              path pp parent parentPath index) as [Hfirst Hlast'];
    try done; [apply lookup_insert_eq|].
  assert (forall to_,
            liftEntry E voids (nextRef (doc e)) e0
            = moveNodes E (mkMoveOptions (Some (AtPath path)) None None to_ (Some voids))
                (mkEditor (dropPathRef (nextRef (doc e)) (doc e0)) (normalizing e0)) ->
            threw lift = false /\ emitted lift = [move_node path to_]) as Hmove.
  { intros to_ Heq. rewrite Hlift, bind_run, Heq.
    destruct (moveNodes_path_single E voids path to_ node q x
                (mkEditor (dropPathRef (nextRef (doc e)) (doc e0)) (normalizing e0)))
      as [Hthrew Hem]; try done.
    revert Hthrew Hem.
    generalize (moveNodes E (mkMoveOptions (Some (AtPath path)) None None to_ (Some voids))
                  (mkEditor (dropPathRef (nextRef (doc e)) (doc e0)) (normalizing e0))).
    intros [[] e' tr|]; simpl; [|discriminate]. by intros _ ->. }
  split.
  - intros Hi. apply Hmove. by apply Hfirst.
  - intros after_ Hnz Hend Hnext. apply Hmove. by apply Hlast'.
Qed.

(** ** Unsetting a property the node does not have *)

Lemma setNodesDelta_unset (k : string) (node : Node) :
  k ≠ "children" -> k ≠ "text" ->
  setNodesDelta (unsetObj [k]) node
  = if bool_decide (VNull ≠ NodeI.get node k)
    then ({[k := NodeI.get node k]}, {[k := VNull]})
    else (∅, ∅).
Proof.
  intros Hc Ht. unfold setNodesDelta, unsetObj. simpl.
  rewrite insert_empty, map_fold_singleton. unfold setNodesStep.
  rewrite !bool_decide_eq_false_2 by done. simpl.
  case_bool_decide; [|done]. by rewrite !insert_empty.
Qed.

(** X18.  [unsetNodes] compares the node's value with null, not with
    absence: at a Path whose node does not hold null under the key, it emits
    one [set_node] from the node's value to null, also when the node does
    not have the key at all, in which case the old value is undefined. *)
Theorem unsetNodes_absent_key_emits (E : Engine) (k : string) (path q : Path)
    (node x : Node) (voids : bool) (e : Editor) :
  k ≠ "children" -> k ≠ "text" ->
  path ≠ [] ->
  Editor_node E (children (doc e)) path = Some (node, q) ->
  Editor_nodes E (children (doc e)) (AtPath path) (MIs node) ModeHighest voids
    = [(node, path)] ->
  NodeI.get node k ≠ VNull ->
  emitted (unsetNodes E (OneKey k)
             (mkUnsetOptions (Some (AtPath path)) None None None (Some voids)) e)
  = [set_node path {[k := NodeI.get node k]} {[k := VNull]}].
Proof.
  intros Hc Ht Hpath Hnode Hnodes Hget. unfold unsetNodes.
  erewrite (setNodes_no_range E _ _ e (AtPath path) (MIs node)); [|done..|]; cycle 1.
  { simpl. unfold matchPath. rewrite must_bind. simpl. by rewrite Hnode. }
  simpl. rewrite Hnodes. simpl. rewrite app_nil_r.
  unfold setNodesOps. simpl.
  rewrite bool_decide_eq_false_2 by (by destruct path).
  rewrite setNodesDelta_unset by done.
  rewrite (bool_decide_eq_true_2 (VNull ≠ NodeI.get node k)) by done. simpl.
  rewrite bool_decide_eq_true_2; [done|].
  rewrite dom_singleton_L. set_solver.
Qed.

(** ** The example plugins *)

Lemma nodesAtSelection_run E m mode e :
  nodesAtSelection E m mode e
  = Done (match selection (doc e) with
          | Some r => Editor_nodes E (children (doc e)) (AtRange r) m mode false
          | None => []
          end) e [].
Proof.
  unfold nodesAtSelection. rewrite query_bind. simpl.
  by destruct (selection (doc e)).
Qed.

Lemma nodesAtSelection_bind {B} E m mode (k : list NodeEntry -> M B) e :
  (nodesAtSelection E m mode ≫= k) e
  = k (match selection (doc e) with
       | Some r => Editor_nodes E (children (doc e)) (AtRange r) m mode false
       | None => []
       end) e.
Proof.
  erewrite bind_Done by apply nodesAtSelection_run. apply after_nil.
Qed.

(** X19.  The table plugin never acts on the document itself: whatever
    the command, its [exec] either runs the wrapped [exec] on the command,
    from the same editor, or returns having emitted nothing and changed
    nothing, or fails on the lookup of the edge of the cell, again without
    having emitted or changed anything. *)
Theorem withTables_swallows_or_delegates (E : Engine)
    (Editor_start : list Node -> Path -> option Point)
    (exec : Command -> M unit) (command : Command) (e : Editor) :
  withTables E Editor_start exec command e = exec command e
  \/ withTables E Editor_start exec command e = Done tt e []
  \/ exists msg, withTables E Editor_start exec command e = Thrown msg e [].
Proof.
  unfold withTables. rewrite query_bind.
  destruct (selection (doc e)) as [sel|] eqn:Hsel.
  - destruct command; rewrite ?pure_bind; try (by left).
    + destruct (RangeI.isCollapsed sel); [|rewrite !pure_bind; by left].
      rewrite bind_assoc, nodesAtSelection_bind, Hsel.
      destruct (head _) as [[cell cellPath]|]; [|rewrite !pure_bind; by left].
      rewrite bind_assoc, must_bind.
      destruct (Editor_end E (children (doc e)) cellPath) as [edge|];
        [|right; right; by eexists].
      rewrite pure_bind. case_bool_decide; [right; by left|].
      rewrite pure_bind. by left.
    + destruct (RangeI.isCollapsed sel); [|rewrite !pure_bind; by left].
      rewrite bind_assoc, nodesAtSelection_bind, Hsel.
      destruct (head _) as [[cell cellPath]|]; [|rewrite !pure_bind; by left].
      rewrite bind_assoc, must_bind.
      destruct (Editor_start (children (doc e)) cellPath) as [edge|];
        [|right; right; by eexists].
      rewrite pure_bind. case_bool_decide; [right; by left|].
      rewrite pure_bind. by left.
    + rewrite bind_assoc, nodesAtSelection_bind, Hsel, pure_bind.
      case_bool_decide; [right; by left|by left].
  - destruct command; rewrite !pure_bind; by left.
Qed.

(** X20.  What the table plugin swallows: with a selection inside a table
    an [insert_break] does nothing; with a collapsed selection at the start
    of the enclosing cell a [delete_backward] does nothing, and at its end
    a [delete_forward] does nothing.  The wrapped [exec] is not run. *)
Theorem withTables_swallows (E : Engine)
    (Editor_start : list Node -> Path -> option Point)
    (exec : Command -> M unit) (sel : Range) (e : Editor) :
  selection (doc e) = Some sel ->
  let found type :=
    head (Editor_nodes E (children (doc e)) (AtRange sel)
            (matchProps "type" (VStr type)) ModeAll false) in
  (found "table" ≠ None ->
   withTables E Editor_start exec insert_break e = Done tt e [])
  /\ (forall cell cellPath,
        RangeI.isCollapsed sel = true ->
        found "table-cell" = Some (cell, cellPath) ->
        (Editor_start (children (doc e)) cellPath = Some (anchor sel) ->
         withTables E Editor_start exec delete_backward e = Done tt e [])
        /\ (Editor_end E (children (doc e)) cellPath = Some (anchor sel) ->
            withTables E Editor_start exec delete_forward e = Done tt e [])).
Proof.
  intros Hsel found. split.
  - intros Htable. unfold withTables.
    rewrite query_bind, Hsel, pure_bind.
    rewrite bind_assoc, nodesAtSelection_bind, Hsel, pure_bind.
    by rewrite bool_decide_eq_true_2.
  - intros cell cellPath Hc Hcell. unfold found, NodeEntry in Hcell.
    split; intros Hedge; unfold withTables;
      rewrite query_bind, Hsel, Hc;
      rewrite bind_assoc, nodesAtSelection_bind, Hsel, Hcell;
      rewrite bind_assoc, must_bind, Hedge, pure_bind;
      by rewrite bool_decide_eq_true_2.
Qed.

(** X21.  What the table plugin lets through: without a selection every
    command reaches the wrapped [exec] as it is, and so does, whatever the
    selection, every command that is neither a deletion nor an
    [insert_break]. *)
Theorem withTables_delegates (E : Engine)
    (Editor_start : list Node -> Path -> option Point)
    (exec : Command -> M unit) (e : Editor) :
  (selection (doc e) = None ->
   forall command, withTables E Editor_start exec command e = exec command e)
  /\ (forall format,
        withTables E Editor_start exec (toggle_format format) e
        = exec (toggle_format format) e)
  /\ (forall type,
        withTables E Editor_start exec (other type) e = exec (other type) e).
Proof.
  split_and!.
  - intros Hsel command. unfold withTables. rewrite query_bind, Hsel.
    destruct command; by rewrite !pure_bind.
  - intros format. unfold withTables. rewrite query_bind.
    destruct (selection (doc e)); by rewrite !pure_bind.
  - intros type. unfold withTables. rewrite query_bind.
    destruct (selection (doc e)); by rewrite !pure_bind.
Qed.

(** X22.  Toggling a format that some node of the selection has is
    [unsetNodes] of that format on the text of the selection, split at its
    edges; toggling one that no node of the selection has is [setNodes] of
    the format to true, with the same options. *)
Theorem toggle_format_sets_or_unsets (E : Engine) (exec : Command -> M unit)
    (format : string) (sel : Range) (e : Editor) :
  selection (doc e) = Some sel ->
  let active :=
    head (Editor_nodes E (children (doc e)) (AtRange sel)
            (matchProps format (VBool true)) ModeAll false) in
  (active ≠ None ->
   withFormatting E exec (toggle_format format) e
   = unsetNodes E (OneKey format)
       (mkUnsetOptions None (Some (MKind "text")) None (Some true) None) e)
  /\ (active = None ->
      withFormatting E exec (toggle_format format) e
      = setNodes E {[format := VBool true]} textSplit e).
Proof.
  intros Hsel active. unfold withFormatting, isFormatActive.
  rewrite bind_assoc, nodesAtSelection_bind, Hsel, pure_bind.
  split; intros Hactive; unfold active in Hactive.
  - rewrite bool_decide_eq_true_2 by done.
    unfold unsetNodes, unsetObj. simpl. by rewrite insert_empty.
  - by rewrite bool_decide_eq_false_2 by (by intros []).
Qed.

(** X23.  Without a selection, toggling a format does nothing: no node
    counts as active, and the [setNodes] that follows has no location. *)
Theorem toggle_format_without_selection (E : Engine) (exec : Command -> M unit)
    (format : string) (e : Editor) :
  selection (doc e) = None ->
  withFormatting E exec (toggle_format format) e = Done tt (normalize E e) [].
Proof.
  intros Hsel. unfold withFormatting, isFormatActive.
  rewrite bind_assoc, nodesAtSelection_bind, Hsel, pure_bind. simpl.
  apply batch_nothing. rewrite query_bind. simpl. by rewrite Hsel.
Qed.

(** ** mergeNodes with nothing to merge *)

(** X24.  At a Path or a Point, once [match] is settled (given, or by
    default the children of the parent of the Path, or ['block']): when
    nothing matches at the location, or the match has no predecessor, or
    either of the two is the root, [mergeNodes] returns normally, emits
    nothing and leaves the editor as it was. *)
Theorem mergeNodes_nothing_to_merge (E : Engine) (l : Location)
    (match_ : option NodeMatch) (m : NodeMatch) (hanging voids : option bool)
    (e : Editor) :
  isRange l = false ->
  mergeDefaultMatch E (mkMergeOptions (Some l) match_ hanging voids) l (batch e)
    = Done m (batch e) [] ->
  match Editor_match E (children (doc e)) l m (default false voids),
        Editor_previous E (children (doc e)) l m (default false voids) with
  | Some (_, path), Some (_, prevPath) => path = [] \/ prevPath = []
  | _, _ => True
  end ->
  mergeNodes E (mkMergeOptions (Some l) match_ hanging voids) e
  = Done tt (normalize E e) [].
Proof.
  intros Hl Hmatch Hnone. apply batch_nothing.
  rewrite query_bind. simpl.
  erewrite bind_Done by exact Hmatch. rewrite after_nil.
  erewrite bind_Done
    by (apply mergeLocation_no_range; intros r ->; discriminate).
  rewrite after_nil, !query_bind. simpl.
  destruct (Editor_match E _ _ _ _) as [[node path]|]; [|done].
  destruct (Editor_previous E _ _ _ _) as [[prevNode prevPath]|]; [|done].
  destruct Hnone as [-> | ->]; simpl; [done|].
  by rewrite orb_true_r.
Qed.

Lemma Emits_mergeEntries E voids node path prevNode prevPath :
  Emits mergesOnly (mergeEntries E voids node path prevNode prevPath).
Proof.
  unfold mergeEntries, trackAncestor, mergeKind, mergePrepare, mergeFinish.
  emits;
    first [ eapply Emits_mono; [|apply Emits_moveNodes]; by intros []
          | eapply Emits_mono; [|apply Emits_removeNodes]; by intros []
          | by apply Emits_apply ].
Qed.

(** X25.  At a Path or a Point location, [mergeNodes] emits only moves
    of nodes other than the root, removals and the [merge_node]: it never
    splits, inserts or sets a node, and never touches the text or the
    selection. *)
Theorem mergeNodes_emits_merge (E : Engine) (l : Location) (m : option NodeMatch)
    (hanging voids : option bool) (e : Editor) :
  isRange l = false ->
  Forall mergesOnly (emitted (mergeNodes E (mkMergeOptions (Some l) m hanging voids) e)).
Proof.
  intros Hl. revert e.
  change (Emits mergesOnly (mergeNodes E (mkMergeOptions (Some l) m hanging voids))).
  unfold mergeNodes. apply Emits_withoutNormalizing.
  apply Emits_query_bind. intros d. simpl.
  apply Emits_bind; [unfold mergeDefaultMatch; emits|]. intros match_.
  unfold Emits. intros e. rewrite emitted_bind.
  rewrite mergeLocation_no_range by (intros r ->; discriminate).
  rewrite app_nil_l.
  match goal with |- Forall ?P (emitted (?k e)) => revert e; change (Emits P k) end.
  emits. apply Emits_mergeEntries.
Qed.

(** ** insertNodes into an empty document, removeNodes at a path *)

(** X26.  Without [at], without a selection and with no top-level node,
    [insertNodes] takes the path [[0]] as its location: unless the root
    counts as a void, it inserts the nodes at the top level from index 0
    on, in order, before it moves the selection. *)
Theorem insertNodes_into_empty_document (E : Engine) (nodes : NodeArg)
    (m : option NodeMatch) (hanging : option bool) (voids : bool) (e : Editor) :
  selection (doc e) = None ->
  children (doc e) = [] ->
  (voids = true
   \/ Editor_match E (children (doc e)) (AtPath []) (MKind "void") false = None) ->
  insertOps [] 0 (asArray nodes)
    `prefix_of` emitted (insertNodes E nodes (mkInsertOptions None m hanging (Some voids)) e).
Proof.
  intros Hsel Hempty Hguard.
  unfold insertNodes, insertNodes_with. rewrite emitted_withoutNormalizing. simpl.
  destruct (asArray nodes) as [|node rest] eqn:Hnodes; [by exists []|].
  rewrite !bind_assoc, query_bind. simpl. rewrite Hsel.
  rewrite !bind_assoc, query_bind. simpl. rewrite Hempty. simpl.
  rewrite !pure_bind. unfold insertAtPath. simpl.
  rewrite !pure_bind, query_bind. simpl.
  assert (negb voids
          && bool_decide (is_Some (Editor_match E (children (doc e))
                                     (AtPath []) (MKind "void") false))
          = false) as ->.
  { destruct Hguard as [->| ->]; [done|].
    rewrite bool_decide_eq_false_2; [by destruct voids|]. by intros [? ?]. }
  destruct (insertLoop_run E [] (node :: rest) 0 (batch e)) as (e' & Hrun & _).
  rewrite (bind_Done _ _ _ _ _ _ Hrun), emitted_after.
  by eexists.
Qed.

(** X27.  [removeNodes] at the path of a node emits one [remove_node],
    which carries the path and the node found there. *)
Theorem removeNodes_at_path (E : Engine) (voids : bool) (path q : Path)
    (node x : Node) (e : Editor) :
  Editor_node E (children (doc e)) path = Some (node, q) ->
  Editor_nodes E (children (doc e)) (AtPath path) (MIs node) ModeHighest voids
    = [(x, path)] ->
  emitted (removeNodes E (mkRemoveOptions (Some (AtPath path)) None None None (Some voids)) e)
  = [remove_node path node].
Proof. apply removeNodes_path_single. Qed.

(** ** setNodes and wrapNodes at a given location *)

Lemma Emits_rangeRef {P : Operation -> Prop} r a : Emits P (rangeRef r a).
Proof. intros e. constructor. Qed.

Lemma Emits_rangeRef_unref {P : Operation -> Prop} h : Emits P (rangeRef_unref h).
Proof. intros e. constructor. Qed.

Lemma Emits_splitEdges E l r match_ voids :
  Emits splitsOrInserts (splitEdges E (Some l) r match_ voids).
Proof.
  unfold splitEdges. simpl.
  apply Emits_bind; [apply Emits_rangeRef|]. intros h.
  destruct (RangeI.edges r) as [start end_].
  apply Emits_bind; [by apply Emits_splitNodes_at|]. intros _.
  apply Emits_bind; [by apply Emits_splitNodes_at|]. intros _.
  apply Emits_bind; [apply Emits_rangeRef_unref|]. intros r'.
  emits.
Qed.

Lemma Emits_setNodesEntry E props entry : Emits setsOrSplits (setNodesEntry E props entry).
Proof.
  destruct entry as [node path]. unfold setNodesEntry.
  case_bool_decide as Hlen; [apply Emits_pure|].
  destruct (setNodesDelta props node) as [old new].
  case_bool_decide; [|apply Emits_pure].
  apply Emits_apply. simpl. intros ->. by apply Hlen.
Qed.

(** X28.  Given a location, [setNodes] emits only [set_node] operations
    on nodes other than the root and, when it splits the edges of a Range,
    the [split_node] and [insert_node] operations of those splits: it never
    moves, removes or merges a node and never touches the text or the
    selection. *)
Theorem setNodes_emits_sets_and_splits (E : Engine) (props : Props) (l : Location)
    (m : option NodeMatch) (mode : option Mode) (hanging split voids : option bool)
    (e : Editor) :
  Forall setsOrSplits
    (emitted (setNodes E props (mkSetOptions (Some l) m mode hanging split voids) e)).
Proof.
  revert e.
  change (Emits setsOrSplits
            (setNodes E props (mkSetOptions (Some l) m mode hanging split voids))).
  unfold setNodes. simpl. emits;
    first [ apply Emits_setNodesEntry
          | eapply Emits_mono; [|apply Emits_splitEdges]; by intros [] ].
Qed.

(** X29.  Given a location, [wrapNodes] emits only the [insert_node] of
    the wrapper, [move_node] operations of nodes other than the root and,
    when it splits the edges of a Range, the operations of those splits:
    the wrapped nodes are never removed, merged or set. *)
Theorem wrapNodes_emits_wrapper_moves_splits (E : Engine) (element : Node)
    (l : Location) (m : option NodeMatch) (mode : option Mode)
    (split voids : option bool) (e : Editor) :
  Forall wrapsOrSplits
    (emitted (wrapNodes E element (mkWrapOptions (Some l) m mode split voids) e)).
Proof.
  revert e.
  change (Emits wrapsOrSplits
            (wrapNodes E element (mkWrapOptions (Some l) m mode split voids))).
  unfold wrapNodes, wrapRoot, wrapArea. simpl. emits;
    first [ eapply Emits_mono; [|apply Emits_moveNodes]; by intros []
          | eapply Emits_mono; [|apply Emits_insertNodes_at_path]; by intros []
          | eapply Emits_mono; [|apply Emits_splitEdges]; by intros [] ].
Qed.

(** ** insertNodes at a Point *)

(** X30.  At a Point location, when no node on the path of the point
    matches, [insertNodes] gives up before it splits or inserts anything:
    it returns normally, emits nothing and leaves the editor as it was.
    The [match] is the one given or, by default, the one chosen from the
    kind of the first node to insert: ['text'] for a text, ['inline'] or
    ['text'] for an inline element, ['block'] otherwise. *)
Theorem insertNodes_at_point_no_match (E : Engine) (nodes : NodeArg) (node : Node)
    (rest : list Node) (pt : Point) (match_ : option NodeMatch)
    (hanging voids : option bool) (e : Editor) :
  asArray nodes = node :: rest ->
  Editor_match E (children (doc e)) (AtPath (path_of pt))
    match match_ with
    | Some m => m
    | None =>
        if NodeI.isText node then MKind "text"
        else if isInline E node then MKinds ["inline"; "text"]
        else MKind "block"
    end false = None ->
  insertNodes E nodes (mkInsertOptions (Some (AtPoint pt)) match_ hanging voids) e
  = Done tt (normalize E e) [].
Proof.
  intros Hnodes Hnone. apply batch_nothing. simpl. rewrite Hnodes.
  rewrite !pure_bind, query_bind. simpl. by rewrite Hnone.
Qed.

(** * The properties on the example documents *)

Module OnExamples.
Import Ref Examples.

(** C1: inserting at the path of the caption, whose parent is the void
    figure, changes nothing; the reference engine keeps the contract on
    voids. *)
Lemma insertNodes_void_guard_witness :
  insertNodes engine (One (Text "x" ∅))
    (mkInsertOptions (Some (AtPath [0; 0])) None None None) (editorOf captioned)
  = Done tt (normalize engine (editorOf captioned)) []
  /\ insertLocation engine (splitNodes engine) (Text "x" ∅)
       (mkInsertOptions (Some (AtPath [0; 0])) None None None)
       (batch (editorOf captioned))
     = Done (Some ([0; 0], false)) (batch (editorOf captioned)) []
  /\ voidAbove engine captioned [0] = Some (figure [Text "caption" ∅], [0]).
Proof.
  destruct (insertNodes_void_guard engine (One (Text "x" ∅)) (Text "x" ∅) []
              (mkInsertOptions (Some (AtPath [0; 0])) None None None)
              (editorOf captioned) (batch (editorOf captioned)) []
              [0; 0] [0] false (figure [Text "caption" ∅], [0]))
    as (_ & _ & Hcontract).
  - reflexivity.
  - reflexivity.
  - reflexivity.
  - reflexivity.
  - vm_compute. reflexivity.
  - destruct (Hcontract engine_void_contract) as (_ & _ & _ & Hrun).
    split_and!; [exact Hrun|reflexivity|vm_compute; reflexivity].
Defined.

(** The resolution at a Point, on a document: in the middle of the text
    before the figure the text is split and the path resolved to is outside
    every void; inside the figure nothing matches and no path is resolved
    to. *)
Lemma insertLocation_at_points :
  match resolveAt textThenFigure (mkPoint [0; 0] 1) with
  | Done at_ e1 tr1 =>
      at_ = Some ([0; 1], false) /\ tr1 = [split_node [0; 0] 1 None ∅]
      /\ voidAbove engine (children (doc e1)) [0] = None
  | Thrown _ _ _ => False
  end
  /\ match resolveAt textThenFigure (mkPoint [0; 1; 0] 0) with
     | Done at_ e1 tr1 => at_ = None /\ tr1 = []
     | Thrown _ _ _ => False
     end.
Proof. vm_compute. split_and!; reflexivity. Qed.



(** The order of the operations on a document: merging the text of the
    second paragraph into the text of the first moves it, removes the
    paragraph it leaves empty, then merges. *)
Lemma mergeNodes_removal_precedes_merge_witness :
  emitted mergeTexts
  = [] ++ [move_node [1; 0] [0; 1]] ++ [remove_node [1] (paragraph [])]
    ++ [merge_node [0; 1] 1 None bold]
  /\ threw mergeTexts = false.
Proof.
  apply (mergeNodes_removal_precedes_merge engine
           (mkMergeOptions (Some (AtPoint (mkPoint [1; 0] 0))) (Some (MKind "text"))
              None None)
           (editorOf twoParagraphs) mergeStart mergeMoved mergeCleaned
           (AtPoint (mkPoint [1; 0] 0)) (AtPoint (mkPoint [1; 0] 0)) (MKind "text")
           (Text "b" bold) (Text "a" ∅) (paragraph [Text "b" bold])
           [1; 0] [0; 0] [0; 1] [1] [1] 1 bold (Some Forward) []).
  - reflexivity.
  - reflexivity.
  - reflexivity.
  - vm_compute. reflexivity.
  - vm_compute. reflexivity.
  - discriminate.
  - reflexivity.
  - vm_compute. reflexivity.
  - reflexivity.
  - vm_compute. reflexivity.
  - vm_compute. reflexivity.
  - vm_compute. reflexivity.
  - vm_compute. reflexivity.
Defined.

(** C3 on a document: merging the text of the second paragraph
    into the text of the first.  The paragraph at [1] is the tracked
    ancestor; its [remove_node] is the second operation, before the
    [merge_node], which is the third and last, where the comments of
    [mergeNodes] have the ancestor removed after merging.  No empty
    paragraph is left. *)
Lemma mergeNodes_removal_is_before_merge_node :
  emptyAncestorOf engine twoParagraphs [1; 0] [0; 0]
    = Some (paragraph [Text "b" bold], [1])
  /\ emitted mergeTexts
     = [move_node [1; 0] [0; 1]; remove_node [1] (paragraph []);
        merge_node [0; 1] 1 None bold]
  /\ emitted mergeTexts !! 1 = Some (remove_node [1] (paragraph []))
  /\ emitted mergeTexts !! 2 = Some (merge_node [0; 1] 1 None bold)
  /\ emitted mergeTexts !! 3 = None
  /\ threw mergeTexts = false
  /\ children (doc (final mergeTexts)) = [paragraph [Text "ab" ∅]].
Proof. vm_compute. split_and!; reflexivity. Qed.

(** C4: merging the link with the empty text before it throws, with
    nothing emitted. *)
Lemma mergeNodes_kind_mismatch_throws_witness :
  exists msg e2,
    mergeNodes engine (mkMergeOptions (Some (AtPath [0; 1])) None None None)
      (editorOf emptyThenLink) = Thrown msg e2 []
    /\ children (doc e2) = children (doc (batch (editorOf emptyThenLink)))
    /\ selection (doc e2) = selection (doc (batch (editorOf emptyThenLink)))
    /\ ((forall r, AtPath [0; 1] ≠ AtRange r) ->
        @nil Operation = [] /\ batch (editorOf emptyThenLink) = batch (editorOf emptyThenLink)).
Proof.
  apply (mergeNodes_kind_mismatch_throws engine
           (mkMergeOptions (Some (AtPath [0; 1])) None None None)
           (editorOf emptyThenLink) (batch (editorOf emptyThenLink))
           (AtPath [0; 1]) (AtPath [0; 1])
           (MOneOf [Text "" ∅; link [Text "x" ∅]]) []
           (link [Text "x" ∅]) (Text "" ∅) [0; 1] [0; 0]).
  - reflexivity.
  - vm_compute. reflexivity.
  - reflexivity.
  - vm_compute. reflexivity.
  - vm_compute. reflexivity.
  - discriminate.
  - discriminate.
  - right. split; reflexivity.
Defined.

(** C6: merging the second paragraph into the empty one before it removes
    the empty one. *)
Lemma mergeNodes_empty_predecessor_witness :
  emitted mergeIntoEmpty
  = [] ++ [] ++ emitted (removeNodes engine
                           (mkRemoveOptions (Some (AtPath [0])) None None None (Some false))
                           (batch (editorOf emptyThenText)))
  /\ Forall moveOrRemove
       (emitted (mergeEntries engine false (paragraph [Text "b" ∅]) [1]
                   (paragraph [Text "" ∅]) [0] (batch (editorOf emptyThenText))))
  /\ Forall (fun op => forall q pos t pr, op ≠ merge_node q pos t pr)
       (emitted (mergeEntries engine false (paragraph [Text "b" ∅]) [1]
                   (paragraph [Text "" ∅]) [0] (batch (editorOf emptyThenText))))
  /\ (forall pn q x,
        Editor_node engine (children (doc (batch (editorOf emptyThenText)))) [0]
          = Some (pn, q) ->
        Editor_nodes engine (children (doc (batch (editorOf emptyThenText))))
          (AtPath [0]) (MIs pn) ModeHighest false = [(x, [0])] ->
        emitted (removeNodes engine
                   (mkRemoveOptions (Some (AtPath [0])) None None None (Some false))
                   (batch (editorOf emptyThenText)))
        = [remove_node [0] pn]).
Proof.
  apply (mergeNodes_empty_predecessor engine
           (mkMergeOptions (Some (AtPath [1])) None None None)
           (editorOf emptyThenText) (batch (editorOf emptyThenText))
           (batch (editorOf emptyThenText)) (batch (editorOf emptyThenText))
           (AtPath [1]) (AtPath [1]) (MOneOf emptyThenText)
           (paragraph [Text "b" ∅]) (paragraph [Text "" ∅]) [1] [0] [1]
           1 ∅ None [] []).
  - reflexivity.
  - vm_compute. reflexivity.
  - reflexivity.
  - vm_compute. reflexivity.
  - vm_compute. reflexivity.
  - discriminate.
  - intros tree. vm_compute. reflexivity.
  - reflexivity.
  - reflexivity.
  - vm_compute. reflexivity.
  - vm_compute. reflexivity.
Defined.

(** C6 fails as stated: the predecessor of the link is an empty text, yet
    [mergeNodes] throws on the kind check and removes nothing. *)
Lemma mergeNodes_empty_predecessor_other_kind :
  Editor_previous engine emptyThenLink (AtPath [0; 1])
    (MOneOf [Text "" ∅; link [Text "x" ∅]]) false = Some (Text "" ∅, [0; 0])
  /\ (forall tree, prevIsEmpty engine tree (Text "" ∅) = true)
  /\ threw mergeLink = true
  /\ emitted mergeLink = []
  /\ children (doc (final mergeLink)) = emptyThenLink.
Proof. split_and!; try intros tree; vm_compute; reflexivity. Qed.

(** C8 on a document: wrapping the two texts of two paragraphs,
    at the root path.  The last match is at [1; 0], the common path of the
    matches is the root, and the wrapper belongs one level below it, after
    the paragraph that holds the last match, at [2].  The code takes
    [Path.next(lastPath).slice(0, depth)], the next path cut back, where
    the cut-back path was to be advanced: it is [1], and the first
    operation inserts the empty wrapper there, before the paragraph of the
    last match. *)
Lemma wrapNodes_wrapper_before_last_match :
  Editor_nodes engine twoParagraphs (AtPath []) (MKind "text") ModeHighest false
    = [(Text "a" ∅, [0; 0]); (Text "b" bold, [1; 0])]
  /\ wrapCommonPath [0; 0] [1; 0] = Some []
  /\ PathI.next [1; 0] = Some [1; 1]
  /\ wrapperPathOf [] [1; 0] = Some [1]
  /\ PathI.next (take 1 [1; 0]) = Some [2]
  /\ head (emitted wrapTexts) = Some (insert_node [1] (quote []))
  /\ Ref.transformTree (insert_node [1] (quote [])) twoParagraphs
     = [paragraph [Text "a" ∅]; quote []; paragraph [Text "b" bold]].
Proof. vm_compute. split_and!; reflexivity. Qed.

(** C5 on a document: lifting a child of the root throws the depth error
    and emits nothing; lifting the only child of a nested paragraph moves it
    out and removes the paragraph it leaves. *)
Lemma liftNodes_on_nested :
  liftAt [1] = Thrown liftError (final (liftAt [1])) []
  /\ emitted (liftAt [0; 0]) = [move_node [0; 0] [1]; remove_node [0] (paragraph [])]
  /\ children (doc (final (liftAt [0; 0])))
     = [paragraph [Text "a" ∅]; paragraph [Text "b" ∅]].
Proof. vm_compute. split_and!; reflexivity. Qed.

(** C6 and C7 on documents: the empty paragraph is removed and the other
    kept as it was; of the requested bold, italic and text, only italic
    differs on the bold text and may be set. *)
Lemma mergeNodes_and_setNodes_runs :
  emitted mergeIntoEmpty = [remove_node [0] (paragraph [Text "" ∅])]
  /\ children (doc (final mergeIntoEmpty)) = [paragraph [Text "b" ∅]]
  /\ emitted setBoldItalic
     = [set_node [1; 0] (props [("italic", VUndefined)])
                        (props [("italic", VBool true)])]
  /\ children (doc (final setBoldItalic))
     = [paragraph [Text "a" ∅];
        paragraph [Text "b" (props [("bold", VBool true); ("italic", VBool true)])]].
Proof. vm_compute. split_and!; reflexivity. Qed.
(** X1: the example document has no selection. *)
Lemma transforms_without_location_witness :
  (forall m md to v,
     moveNodes engine (mkMoveOptions None m md to v) (editorOf twoParagraphs)
     = Done tt (normalize engine (editorOf twoParagraphs)) [])
  /\ (forall m md h v,
        removeNodes engine (mkRemoveOptions None m md h v) (editorOf twoParagraphs)
        = Done tt (normalize engine (editorOf twoParagraphs)) [])
  /\ (forall props m md h s v,
        setNodes engine props (mkSetOptions None m md h s v) (editorOf twoParagraphs)
        = Done tt (normalize engine (editorOf twoParagraphs)) [])
  /\ (forall keys m md s v,
        unsetNodes engine keys (mkUnsetOptions None m md s v) (editorOf twoParagraphs)
        = Done tt (normalize engine (editorOf twoParagraphs)) [])
  /\ (forall m md v,
        liftNodes engine (mkLiftOptions None m md v) (editorOf twoParagraphs)
        = Done tt (normalize engine (editorOf twoParagraphs)) [])
  /\ (forall m h v,
        mergeNodes engine (mkMergeOptions None m h v) (editorOf twoParagraphs)
        = Done tt (normalize engine (editorOf twoParagraphs)) [])
  /\ (forall m a h v,
        splitNodes engine (mkSplitOptions None m a h v) (editorOf twoParagraphs)
        = Done tt (normalize engine (editorOf twoParagraphs)) [])
  /\ (forall m md s v,
        unwrapNodes engine (mkUnwrapOptions None m md s v) (editorOf twoParagraphs)
        = Done tt (normalize engine (editorOf twoParagraphs)) [])
  /\ (forall element m md s v,
        wrapNodes engine element (mkWrapOptions None m md s v) (editorOf twoParagraphs)
        = Done tt (normalize engine (editorOf twoParagraphs)) []).
Proof.
  apply (transforms_without_location engine (editorOf twoParagraphs)).
  reflexivity.
Defined.

(** X3: two texts inserted at [0; 1] land at [0; 1] and [0; 2]. *)
Lemma insertNodes_at_path_consecutive_witness :
  threw (insertNodes engine (Many [Text "x" ∅; Text "y" ∅])
           (mkInsertOptions (Some (AtPath [0; 1])) None None (Some false))
           (editorOf twoParagraphs)) = false
  /\ emitted (insertNodes engine (Many [Text "x" ∅; Text "y" ∅])
                (mkInsertOptions (Some (AtPath [0; 1])) None None (Some false))
                (editorOf twoParagraphs))
     = insertOps [0] 1 (asArray (Many [Text "x" ∅; Text "y" ∅])).
Proof.
  apply (insertNodes_at_path_consecutive engine _ None None false [0; 1] [0] 1).
  - reflexivity.
  - reflexivity.
  - right. vm_compute. reflexivity.
Defined.

(** X9: no inline encloses the point. *)
Lemma splitNodes_no_match_keeps_reference_witness :
  splitNodes engine
    (mkSplitOptions (Some (AtPoint (mkPoint [0; 0] 1))) (Some (MKind "inline"))
       None None None) (editorOf twoParagraphs)
  = Done tt
      (normalize engine
         (mkEditor (bumpRef (withPointRef (nextRef (doc (editorOf twoParagraphs)))
                               (Some Backward) (mkPoint [0; 0] 1)
                               (doc (editorOf twoParagraphs))))
                   (normalizing (editorOf twoParagraphs)))) [].
Proof.
  apply (splitNodes_no_match_keeps_reference engine (Some (MKind "inline")) None None None
           (mkPoint [0; 0] 1) (editorOf twoParagraphs)).
  vm_compute. reflexivity.
Defined.

(** X10: a caret in the first text. *)
Lemma collapsed_range_is_its_anchor_witness :
  (forall m a h v,
     splitNodes engine (mkSplitOptions (Some (AtRange (caret [0; 0] 1))) m a h v)
       (editorOf twoParagraphs)
     = splitNodes engine
         (mkSplitOptions (Some (AtPoint (anchor (caret [0; 0] 1)))) m a h v)
         (editorOf twoParagraphs))
  /\ (forall m v,
        mergeNodes engine (mkMergeOptions (Some (AtRange (caret [0; 0] 1))) m (Some true) v)
          (editorOf twoParagraphs)
        = mergeNodes engine
            (mkMergeOptions (Some (AtPoint (anchor (caret [0; 0] 1)))) m (Some true) v)
            (editorOf twoParagraphs))
  /\ (forall nodes m v,
        insertNodes engine nodes
          (mkInsertOptions (Some (AtRange (caret [0; 0] 1))) m (Some true) v)
          (editorOf twoParagraphs)
        = insertNodes engine nodes
            (mkInsertOptions (Some (AtPoint (anchor (caret [0; 0] 1)))) m (Some true) v)
            (editorOf twoParagraphs)).
Proof.
  apply (collapsed_range_is_its_anchor engine (caret [0; 0] 1) (editorOf twoParagraphs)).
  vm_compute. reflexivity.
Defined.

(** X11: a split in the middle of the first text. *)
Lemma splitNodes_emits_splits_witness :
  Forall splitsOrInserts
    (emitted (splitNodes engine
                (mkSplitOptions (Some (AtPoint (mkPoint [0; 0] 1))) None None None None)
                (editorOf twoParagraphs))).
Proof.
  apply (splitNodes_emits_splits engine (AtPoint (mkPoint [0; 0] 1)) None None None None
           (editorOf twoParagraphs)).
  reflexivity.
Defined.

(** X13: the start of the second paragraph is the start of its text and
    of the paragraph, not of the document. *)
Lemma splitNodes_at_edges_is_noop_witness :
  splitNodes engine
    (mkSplitOptions (Some (AtPoint (mkPoint [1; 0] 0))) None None None None)
    (editorOf twoParagraphs)
  = Done tt
      (normalize engine
         (mkEditor
            (dropPointRef (S (nextRef (doc (editorOf twoParagraphs))))
               (dropPointRef (nextRef (doc (editorOf twoParagraphs)))
                  (bumpRef
                     (withPointRef (S (nextRef (doc (editorOf twoParagraphs))))
                        (Some Forward) (mkPoint [1; 0] 0)
                        (bumpRef
                           (withPointRef (nextRef (doc (editorOf twoParagraphs)))
                              (Some Backward) (mkPoint [1; 0] 0)
                              (doc (editorOf twoParagraphs))))))))
            (normalizing (editorOf twoParagraphs)))) [].
Proof.
  apply (splitNodes_at_edges_is_noop engine None None None (mkPoint [1; 0] 0)
           (paragraph [Text "b" bold]) [1] (editorOf twoParagraphs)).
  - reflexivity.
  - vm_compute. reflexivity.
  - vm_compute. reflexivity.
  - vm_compute. repeat constructor.
Defined.

(** X16: wrapping the two texts of the document, without [split]. *)
Lemma wrapNodes_emits_insert_and_moves_witness :
  Forall wrapsOnly
    (emitted (wrapNodes engine (quote [Text "junk" ∅])
                (mkWrapOptions (Some (AtPath [])) (Some (MKind "text")) None None None)
                (editorOf twoParagraphs))).
Proof.
  apply (wrapNodes_emits_insert_and_moves engine (quote [Text "junk" ∅])
           (mkWrapOptions (Some (AtPath [])) (Some (MKind "text")) None None None)
           (editorOf twoParagraphs)).
  reflexivity.
Defined.

(** X17: the first paragraph of the quote is lifted to the path of the
    quote. *)
Lemma liftNodes_first_or_last_child_witness :
  (0 = 0 ->
   threw (liftNodes engine (mkLiftOptions (Some (AtPath [0; 0])) None None (Some false))
            (editorOf quoted)) = false
   /\ emitted (liftNodes engine (mkLiftOptions (Some (AtPath [0; 0])) None None (Some false))
                 (editorOf quoted))
      = [move_node [0; 0] [0]])
  /\ (forall after_, 0 ≠ 0 ->
        0 = length (NodeI.children (quote [paragraph [Text "a" ∅]; paragraph [Text "b" ∅]])) - 1 ->
        PathI.next [0] = Some after_ ->
        threw (liftNodes engine (mkLiftOptions (Some (AtPath [0; 0])) None None (Some false))
                 (editorOf quoted)) = false
        /\ emitted (liftNodes engine
                      (mkLiftOptions (Some (AtPath [0; 0])) None None (Some false))
                      (editorOf quoted))
           = [move_node [0; 0] after_]).
Proof.
  apply (liftNodes_first_or_last_child engine false [0; 0] [0] [0] [0; 0] 0
           (paragraph [Text "a" ∅]) (paragraph [Text "a" ∅])
           (quote [paragraph [Text "a" ∅]; paragraph [Text "b" ∅]])
           (editorOf quoted)).
  - simpl. lia.
  - reflexivity.
  - reflexivity.
  - vm_compute. reflexivity.
  - vm_compute. reflexivity.
  - vm_compute. reflexivity.
  - simpl. lia.
Defined.

(** X18: the first text has no [bold]. *)
Lemma unsetNodes_absent_key_emits_witness :
  emitted (unsetNodes engine (OneKey "bold")
             (mkUnsetOptions (Some (AtPath [0; 0])) None None None (Some false))
             (editorOf twoParagraphs))
  = [set_node [0; 0] {["bold" := NodeI.get (Text "a" ∅) "bold"]} {["bold" := VNull]}].
Proof.
  apply (unsetNodes_absent_key_emits engine "bold" [0; 0] [0; 0] (Text "a" ∅) (Text "a" ∅)
           false (editorOf twoParagraphs)).
  - discriminate.
  - discriminate.
  - discriminate.
  - vm_compute. reflexivity.
  - vm_compute. reflexivity.
  - vm_compute. discriminate.
Defined.

(** X20: the caret at the start of the second cell of the table. *)
Lemma withTables_swallows_witness :
  (head (Editor_nodes engine (children (doc (selecting (caret [1; 0; 1; 0] 0) tableDoc)))
           (AtRange (caret [1; 0; 1; 0] 0)) (matchProps "type" (VStr "table"))
           ModeAll false) ≠ None ->
   withTables engine start refuse insert_break (selecting (caret [1; 0; 1; 0] 0) tableDoc)
   = Done tt (selecting (caret [1; 0; 1; 0] 0) tableDoc) [])
  /\ (forall cell cellPath,
        RangeI.isCollapsed (caret [1; 0; 1; 0] 0) = true ->
        head (Editor_nodes engine
                (children (doc (selecting (caret [1; 0; 1; 0] 0) tableDoc)))
                (AtRange (caret [1; 0; 1; 0] 0)) (matchProps "type" (VStr "table-cell"))
                ModeAll false) = Some (cell, cellPath) ->
        (start (children (doc (selecting (caret [1; 0; 1; 0] 0) tableDoc))) cellPath
         = Some (anchor (caret [1; 0; 1; 0] 0)) ->
         withTables engine start refuse delete_backward
           (selecting (caret [1; 0; 1; 0] 0) tableDoc)
         = Done tt (selecting (caret [1; 0; 1; 0] 0) tableDoc) [])
        /\ (Editor_end engine (children (doc (selecting (caret [1; 0; 1; 0] 0) tableDoc)))
              cellPath = Some (anchor (caret [1; 0; 1; 0] 0)) ->
            withTables engine start refuse delete_forward
              (selecting (caret [1; 0; 1; 0] 0) tableDoc)
            = Done tt (selecting (caret [1; 0; 1; 0] 0) tableDoc) [])).
Proof.
  apply (withTables_swallows engine start refuse (caret [1; 0; 1; 0] 0)
           (selecting (caret [1; 0; 1; 0] 0) tableDoc)).
  reflexivity.
Defined.

(** X22: the second text of the selection is bold. *)
Lemma toggle_format_sets_or_unsets_witness :
  (head (Editor_nodes engine (children (doc (selecting acrossBoth twoParagraphs)))
           (AtRange acrossBoth) (matchProps "bold" (VBool true)) ModeAll false) ≠ None ->
   withFormatting engine refuse (toggle_format "bold") (selecting acrossBoth twoParagraphs)
   = unsetNodes engine (OneKey "bold")
       (mkUnsetOptions None (Some (MKind "text")) None (Some true) None)
       (selecting acrossBoth twoParagraphs))
  /\ (head (Editor_nodes engine (children (doc (selecting acrossBoth twoParagraphs)))
              (AtRange acrossBoth) (matchProps "bold" (VBool true)) ModeAll false) = None ->
      withFormatting engine refuse (toggle_format "bold")
        (selecting acrossBoth twoParagraphs)
      = setNodes engine {["bold" := VBool true]} textSplit
          (selecting acrossBoth twoParagraphs)).
Proof.
  apply (toggle_format_sets_or_unsets engine refuse "bold" acrossBoth
           (selecting acrossBoth twoParagraphs)).
  reflexivity.
Defined.

(** X23: the example document has no selection. *)
Lemma toggle_format_without_selection_witness :
  withFormatting engine refuse (toggle_format "bold") (editorOf twoParagraphs)
  = Done tt (normalize engine (editorOf twoParagraphs)) [].
Proof.
  apply (toggle_format_without_selection engine refuse "bold" (editorOf twoParagraphs)).
  reflexivity.
Defined.

(** X24: the first paragraph has no predecessor among the children of the
    root, which is the default match at its path. *)
Lemma mergeNodes_nothing_to_merge_witness :
  mergeNodes engine (mkMergeOptions (Some (AtPath [0])) None None None)
    (editorOf twoParagraphs)
  = Done tt (normalize engine (editorOf twoParagraphs)) [].
Proof.
  apply (mergeNodes_nothing_to_merge engine (AtPath [0]) None (MOneOf twoParagraphs)
           None None (editorOf twoParagraphs)).
  - reflexivity.
  - vm_compute. reflexivity.
  - vm_compute. exact I.
Defined.

(** X25: the merge of the second paragraph into the first. *)
Lemma mergeNodes_emits_merge_witness :
  Forall mergesOnly
    (emitted (mergeNodes engine (mkMergeOptions (Some (AtPath [1])) None None None)
                (editorOf twoParagraphs))).
Proof.
  apply (mergeNodes_emits_merge engine (AtPath [1]) None None None (editorOf twoParagraphs)).
  reflexivity.
Defined.

(** X26: two paragraphs inserted into the empty document. *)
Lemma insertNodes_into_empty_document_witness :
  insertOps [] 0 (asArray (Many twoParagraphs))
    `prefix_of` emitted (insertNodes engine (Many twoParagraphs)
                           (mkInsertOptions None None None (Some false)) (editorOf [])).
Proof.
  apply (insertNodes_into_empty_document engine (Many twoParagraphs) None None false
           (editorOf [])).
  - reflexivity.
  - reflexivity.
  - right. vm_compute. reflexivity.
Defined.

(** X27: the removal of the first paragraph. *)
Lemma removeNodes_at_path_witness :
  emitted (removeNodes engine
             (mkRemoveOptions (Some (AtPath [0])) None None None (Some false))
             (editorOf twoParagraphs))
  = [remove_node [0] (paragraph [Text "a" ∅])].
Proof.
  apply (removeNodes_at_path engine false [0] [0] (paragraph [Text "a" ∅])
           (paragraph [Text "a" ∅]) (editorOf twoParagraphs)).
  - vm_compute. reflexivity.
  - vm_compute. reflexivity.
Defined.
(** X30: a text is to be inserted at a point inside the caption of the
    void figure; the search for a text stops at the figure. *)
Lemma insertNodes_at_point_no_match_witness :
  insertNodes engine (One (Text "x" ∅))
    (mkInsertOptions (Some (AtPoint (mkPoint [0; 0] 1))) None None None)
    (editorOf captioned)
  = Done tt (normalize engine (editorOf captioned)) [].
Proof.
  apply (insertNodes_at_point_no_match engine (One (Text "x" ∅)) (Text "x" ∅) []
           (mkPoint [0; 0] 1) None None None (editorOf captioned)).
  - reflexivity.
  - vm_compute. reflexivity.
Defined.
End OnExamples.
